(** * DRUIDS AI backend: session cache, tool channel and tool adapters

    A shallow embedding of the TypeScript backend:
    - [Channel]   : backend/mcp-client.ts  (class MCPClient, the singleton channel)
    - [Remote]    : the MCP server entry point and mcp/tools/get-druids-component-props.ts
    - [Adapters]  : backend/mcp-tools.ts   (the two agent-callable tools)
    - [Backend]   : the express entry point (session cache, dispatcher, routes)
    - [Listing], [McpServer], [Startup], [Legacy] : the listing tool, the
      request handlers of the MCP server, start-up, and backend/query.ts
    - [Overlap]   : [getChatEngine] as segments between its [await]s

    Conventions.  A JavaScript computation that may throw and that mutates
    module state is a function [S -> Res A * S]: state changes made before
    a throw are kept, as in the source.  Each awaited operation on the
    outside world (handshake, teardown, remote call, index load, model
    call) takes its outcome from an explicit argument.  [Date.now()] is an
    integer number of milliseconds.

    In [Backend] a call is one turn of the event loop: it runs to
    completion before the next event.  For [getChatEngine] this is exact
    on a cache hit (no [await] on that path) and for the tail of a miss
    (the agent is constructed, stored, time-stamped and its check
    scheduled without an [await] in between).  On a miss the code waits
    for the index and for the handshake, and other turns can run
    meanwhile; [Overlap] models that, and [Backend.step] is the case of a
    call whose segments follow one another ([call_alone_is_one_turn]).

    [Map] objects are finite maps.  The plain object [found] of the props
    tool is modelled with its prototype chain. *)

From stdpp Require Import gmap strings list fin_maps pretty.
From Stdlib Require Import Ascii ZArith Lia.

(** ** Thrown values and effectful computations *)

(** What a [catch (error)] clause can receive: an [Error] made by
    [new Error(message)], an instance of a subclass of [Error] with its
    name ([TypeError], [SyntaxError], [McpError], ...) and message, or
    some other thrown value.  None of them carries an integer [code]. *)
Inductive Thrown :=
| ErrorObj (message : string)
| ErrorNamed (name message : string)
| NonError.

Inductive Res (A : Type) :=
| Ok (a : A)
| Throw (e : Thrown).
Arguments Ok {A} a.
Arguments Throw {A} e.

(** [l.map(f)] with a callback that may throw: the first throw, in the
    order of the array, ends the whole call. *)
Fixpoint map_res {A B} (f : A -> Res B) (l : list A) : Res (list B) :=
  match l with
  | [] => Ok []
  | x :: rest =>
      match f x with
      | Throw e => Throw e
      | Ok y =>
          match map_res f rest with
          | Throw e => Throw e
          | Ok ys => Ok (y :: ys)
          end
      end
  end.

Definition Eff (S A : Type) : Type := S -> Res A * S.

#[global] Instance Eff_ret {S} : MRet (Eff S) := fun A a s => (Ok a, s).
#[global] Instance Eff_bind {S} : MBind (Eff S) := fun A B k m s =>
  match m s with
  | (Ok a, s') => k a s'
  | (Throw e, s') => (Throw e, s')
  end.

Definition throw {S A} (e : Thrown) : Eff S A := fun s => (Throw e, s).
Definition get {S} : Eff S S := fun s => (Ok s, s).
Definition modify {S} (f : S -> S) : Eff S unit := fun s => (Ok tt, f s).

(** [try { m } catch (error) { h error }] *)
Definition try_catch {S A} (m : Eff S A) (h : Thrown -> Eff S A) : Eff S A :=
  fun s =>
    match m s with
    | (Ok a, s') => (Ok a, s')
    | (Throw e, s') => h e s'
    end.

(** [error instanceof Error ? error.message : "Unknown error occurred"] *)
Definition error_text (e : Thrown) : string :=
  match e with
  | ErrorObj m | ErrorNamed _ m => m
  | NonError => "Unknown error occurred"
  end.

(** [Error.prototype.toString] on an error with this name and message:
    the message alone when the name is empty, the name alone when the
    message is, and otherwise the name, a colon, a space and the message. *)
Definition error_toString (name message : string) : string :=
  if String.eqb name "" then message
  else if String.eqb message "" then name
  else name +:+ ": " +:+ message.

(** ** Data exchanged with the tool service *)

(** A JSON scalar, for fields typed [unknown]. *)
Inductive JsValue :=
| JNull
| JBool (b : bool)
| JNum (z : Z)
| JStr (s : string).

Record AvailableComponent := {
  ac_name : string;
  ac_description : option string;
  ac_statusLevel : option string;
  ac_directoryPath : string;
  ac_importPath : option string
}.

Record AIFriendlyProp := {
  fp_name : string;
  fp_type : string;
  fp_required : option bool;
  fp_defaultValue : option JsValue;
  fp_description : option string;
  fp_possibleValues : option (list string)
}.

Record AIFriendlyComponentProps := {
  cp_name : string;
  cp_props : option (list AIFriendlyProp);
  cp_notFound : option bool
}.

(** One element of [response.content].  A text element is represented by
    what [JSON.parse(content.text)] does with it: the parsed value, or the
    [SyntaxError] it throws. *)
Inductive Content (A : Type) :=
| TextContent (parsed : Res A)
| OtherContent.
Arguments TextContent {A} parsed.
Arguments OtherContent {A}.

(** Outcome of [client.callTool]: it rejects, or resolves to a response
    whose [content] is an array ([Some]) or anything else ([None]). *)
Inductive CallOutcome (A : Type) :=
| CallRejects (e : Thrown)
| CallResolves (content : option (list (Content A))).
Arguments CallRejects {A} e.
Arguments CallResolves {A} content.

(** The other end of the channel, as seen during one operation. *)
Record Peer := {
  handshake : option Thrown;
  teardown : option Thrown;
  list_tool : CallOutcome (list AvailableComponent);
  props_tool : list string -> CallOutcome (list AIFriendlyComponentProps)
}.

(** ** backend/mcp-client.ts *)

Module Channel.

Record ClientInfo := { ci_name : string; ci_version : string }.
Record Transport := {
  tr_command : string;
  tr_args : list string;
  tr_cwd : string
}.

(** Operations put on the wire; a ghost log, never read by the code. *)
Inductive WireOp :=
| WConnect
| WClose
| WCallTool (tool : string) (names : option (list string)).

Record MCPClient := {
  client : option ClientInfo;
  transport : option Transport;
  isConnected : bool;
  wire : list WireOp
}.

Definition fresh : MCPClient :=
  {| client := None; transport := None; isConnected := false; wire := [] |}.

Definition sent (op : WireOp) (c : MCPClient) : MCPClient :=
  {| client := client c; transport := transport c;
     isConnected := isConnected c; wire := wire c ++ [op] |}.

Definition isReady (c : MCPClient) : bool := isConnected c.

Definition not_usable (c : MCPClient) : bool :=
  negb (isConnected c) || negb (bool_decide (is_Some (client c))).

Definition connect (p : Peer) : Eff MCPClient unit := fun c =>
  if isConnected c then (Ok tt, c)
  else
    let t := {| tr_command := "node"; tr_args := ["index.js"]; tr_cwd := "../mcp" |} in
    let k := {| ci_name := "druids-backend-client"; ci_version := "1.0.0" |} in
    let c1 := {| client := Some k; transport := Some t;
                 isConnected := false; wire := wire c ++ [WConnect] |} in
    match handshake p with
    | None =>
        (Ok tt, {| client := client c1; transport := transport c1;
                   isConnected := true; wire := wire c1 |})
    | Some e => (Throw e, c1)
    end.

Definition disconnect (p : Peer) : Eff MCPClient unit := fun c =>
  if not_usable c then (Ok tt, c)
  else
    match teardown p with
    | None =>
        (Ok tt, {| client := None; transport := None;
                   isConnected := false; wire := wire c ++ [WClose] |})
    | Some _ => (Ok tt, sent WClose c)
    end.

(** The shared tail of [listAvailableComponents] and [getComponentProps]:
    a rejected call is rethrown; otherwise the first content element is
    parsed if it is text, and anything else yields the empty array. *)
Definition read_response {A} (o : CallOutcome (list A)) : Res (list A) :=
  match o with
  | CallRejects e => Throw e
  | CallResolves (Some (TextContent parsed :: _)) => parsed
  | CallResolves _ => Ok []
  end.

Definition listAvailableComponents (p : Peer)
  : Eff MCPClient (list AvailableComponent) := fun c =>
  if not_usable c then (Throw (ErrorObj "MCP Client not connected"), c)
  else (read_response (list_tool p),
        sent (WCallTool "list-available-druids-components" None) c).

Definition getComponentProps (p : Peer) (names : list string)
  : Eff MCPClient (list AIFriendlyComponentProps) := fun c =>
  if not_usable c then (Throw (ErrorObj "MCP Client not connected"), c)
  else (read_response (props_tool p names),
        sent (WCallTool "get-druids-component-props" (Some names)) c).

End Channel.

(** ** mcp/tools/get-druids-component-props.ts and the MCP server entry point *)

Module Remote.

(** A raw prop of the docs builder ([Prop]). *)
Record RawProp := {
  rp_name : string;
  rp_type : string;
  rp_required : option bool;
  rp_defaultValue : option JsValue;
  rp_description : option string;
  rp_possibleValues : option (list string)
}.

(** An entry of the app map; [props] may be [undefined]. *)
Record AppMapItem := {
  label : string;
  props : option (list RawProp)
}.

(** Truthiness of an optional string: [undefined] and the empty string are falsy. *)
Definition truthy_string (o : option string) : option string :=
  match o with
  | Some s => if String.eqb s "" then None else Some s
  | None => None
  end.

Definition mapPropToAIFriendly (prop : RawProp) : AIFriendlyProp :=
  {| fp_name := rp_name prop;
     fp_type := rp_type prop;
     fp_required := rp_required prop;
     fp_defaultValue := rp_defaultValue prop;
     fp_description := truthy_string (rp_description prop);
     fp_possibleValues := rp_possibleValues prop |}.

(** *** The object [found]

    [found] is made by [{}], so it inherits from [Object.prototype]: a key
    it does not own is looked up along its prototype chain, and assigning
    to [__proto__] runs the inherited setter, which replaces the prototype
    when it is handed an object (here: an array of props). *)

(** The string-keyed properties of [Object.prototype]. *)
Definition object_prototype_keys : list string :=
  ["constructor"; "__defineGetter__"; "__defineSetter__"; "hasOwnProperty";
   "__lookupGetter__"; "__lookupSetter__"; "isPrototypeOf";
   "propertyIsEnumerable"; "toString"; "valueOf"; "__proto__";
   "toLocaleString"].

(** The string-keyed properties of [Array.prototype] in the engine of the
    image the Dockerfile names (node:18). *)
Definition array_prototype_keys : list string :=
  ["length"; "constructor"; "at"; "concat"; "copyWithin"; "fill"; "find";
   "findIndex"; "findLast"; "findLastIndex"; "lastIndexOf"; "pop"; "push";
   "reverse"; "shift"; "unshift"; "slice"; "sort"; "splice"; "includes";
   "indexOf"; "join"; "keys"; "entries"; "values"; "forEach"; "filter";
   "flat"; "flatMap"; "map"; "every"; "some"; "reduce"; "reduceRight";
   "toLocaleString"; "toString"].

Definition digit (c : ascii) : option nat :=
  let n := nat_of_ascii c in
  if (48 <=? n)%nat && (n <=? 57)%nat then Some (n - 48)%nat else None.

Fixpoint digits (acc : nat) (s : string) : option nat :=
  match s with
  | EmptyString => Some acc
  | String c rest =>
      match digit c with
      | Some d => digits (10 * acc + d) rest
      | None => None
      end
  end.

(** The array index a property key denotes, if it is one: decimal digits
    without a leading zero. *)
Definition array_index (key : string) : option nat :=
  match key with
  | EmptyString => None
  | String c EmptyString => digit c
  | String c _ => if Ascii.eqb c "0" then None else digits 0 key
  end.

Record JsObject := {
  own : gmap string (option (list RawProp));
  proto_array : option (list RawProp)
}.

(** [{}]: no own property, prototype [Object.prototype]. *)
Definition empty_object : JsObject := {| own := ∅; proto_array := None |}.

(** [found[key] = value].  For every key but [__proto__] this defines an
    own property (the inherited ones are writable data properties). *)
Definition assign (key : string) (value : option (list RawProp))
  (found : JsObject) : JsObject :=
  if String.eqb key "__proto__" then
    match value with
    | Some ps => {| own := own found; proto_array := Some ps |}
    | None => found
    end
  else {| own := <[key := value]> (own found); proto_array := proto_array found |}.

(** What [found[name]] can be: [undefined], an array of props, or a value
    that is neither (a built-in function or object, a prop object, a
    number) and therefore has no [map]. *)
Inductive JsRead :=
| Undefined
| PropsArray (ps : list RawProp)
| Foreign (truthy : bool).

(** [found[name]]: the own property if there is one, else the first hit
    along the chain: the elements and [length] of a prototype array, then
    [Array.prototype], then [Object.prototype], whose [__proto__] getter
    returns the prototype of [found]. *)
Definition get_property (found : JsObject) (name : string) : JsRead :=
  match own found !! name with
  | Some (Some ps) => PropsArray ps
  | Some None => Undefined
  | None =>
      match proto_array found with
      | Some elements =>
          if match array_index name with
             | Some i => (i <? length elements)%nat
             | None => false
             end
          then Foreign true
          else if String.eqb name "length"
          then Foreign (negb (length elements =? 0)%nat)
          else if bool_decide (name ∈ array_prototype_keys) then Foreign true
          else if String.eqb name "__proto__" then PropsArray elements
          else if bool_decide (name ∈ object_prototype_keys) then Foreign true
          else Undefined
      | None =>
          if bool_decide (name ∈ object_prototype_keys) then Foreign true
          else Undefined
      end
  end.

(** The loop that fills [found]: an item is recorded when its label was
    requested; a later item with the same label overwrites an earlier one. *)
Definition build_lookup (nameSet : gset string) (componentMap : list AppMapItem)
  : JsObject :=
  foldl (fun found item =>
           if decide (label item ∈ nameSet)
           then assign (label item) (props item) found
           else found)
        empty_object componentMap.

(** The callback of [names.map]: a falsy value gives [notFound]; on any
    other value [props.map] is called, which exists on arrays only. *)
Definition format_result (found : JsObject) (name : string)
  : Res AIFriendlyComponentProps :=
  match get_property found name with
  | PropsArray ps =>
      Ok {| cp_name := name;
            cp_props := Some (mapPropToAIFriendly <$> ps);
            cp_notFound := None |}
  | Undefined | Foreign false =>
      Ok {| cp_name := name; cp_props := None; cp_notFound := Some true |}
  | Foreign true => Throw (ErrorNamed "TypeError" "props.map is not a function")
  end.

(** [fetched] is the outcome of fetching and decoding the app map. *)
Definition getDruidsComponentProps (fetched : Res (list AppMapItem))
  (names : list string) : Res (list AIFriendlyComponentProps) :=
  if (length names =? 0)%nat then Ok []
  else
    match fetched with
    | Throw e => Throw e
    | Ok componentMap =>
        let nameSet : gset string := list_to_set names in
        let found := build_lookup nameSet componentMap in
        map_res (format_result found) names
    end.

(** How a throwing request handler reaches the caller of
    [client.callTool]: the server answers with a JSON-RPC error of code
    -32603 that carries [error.message] ("Internal error" when there is
    none), and the client rejects with the [McpError] made from it. *)
Definition handler_message (e : Thrown) : string :=
  match e with
  | ErrorObj m | ErrorNamed _ m => m
  | NonError => "Internal error"
  end.

Definition mcp_error (e : Thrown) : Thrown :=
  ErrorNamed "McpError" ("MCP error -32603: " +:+ handler_message e).

(** The [CallToolRequestSchema] handler for "get-druids-component-props",
    seen from the client: the result is serialised into one text element,
    which the client parses back; a throwing handler rejects the call. *)
Definition call_props_tool (fetched : Res (list AppMapItem)) (names : list string)
  : CallOutcome (list AIFriendlyComponentProps) :=
  match getDruidsComponentProps fetched names with
  | Ok result => CallResolves (Some [TextContent (Ok result)])
  | Throw e => CallRejects (mcp_error e)
  end.

(** The tool service with a given app map behind it. *)
Definition service (hs td : option Thrown)
  (listing : CallOutcome (list AvailableComponent))
  (fetched : Res (list AppMapItem)) : Peer :=
  {| handshake := hs; teardown := td;
     list_tool := listing;
     props_tool := call_props_tool fetched |}.

End Remote.

(** ** backend/mcp-tools.ts *)

Module Adapters.
Import Channel.

(** The JSON object each adapter serialises and returns. *)
Inductive Envelope :=
| ListOk (components : list AvailableComponent) (total : nat) (message : string)
| PropsOk (components : list AIFriendlyComponentProps) (notFound : list string)
          (message : string)
| Failure (error : string) (message : string).

Definition success (e : Envelope) : bool :=
  match e with
  | Failure _ _ => false
  | _ => true
  end.

Definition message (e : Envelope) : string :=
  match e with
  | ListOk _ _ m | PropsOk _ _ m | Failure _ m => m
  end.

(** A string between double-quote characters (code 34). *)
Definition quoted (s : string) : string :=
  String "034"%char (s +:+ String "034"%char EmptyString).

(** The value of [input.names] as the agent supplied it. *)
Inductive JsNames :=
| NamesMissing
| NamesScalar (v : JsValue)
| NamesArray (l : list string).

Definition falsy (n : JsNames) : bool :=
  match n with
  | NamesMissing => true
  | NamesScalar JNull => true
  | NamesScalar (JBool b) => negb b
  | NamesScalar (JNum z) => (z =? 0)%Z
  | NamesScalar (JStr s) => String.eqb s ""
  | NamesArray _ => false
  end.

Definition isArray (n : JsNames) : bool :=
  match n with
  | NamesArray _ => true
  | _ => false
  end.

Definition elements (n : JsNames) : list string :=
  match n with
  | NamesArray l => l
  | _ => []
  end.

Definition invalid_names (n : JsNames) : bool :=
  falsy n || negb (isArray n) || (length (elements n) =? 0)%nat.

(** [if (!mcpClient.isReady()) await mcpClient.connect();] *)
Definition ensure_connected (p : Peer) : Eff MCPClient unit := fun c =>
  if isReady c then (Ok tt, c) else connect p c.

Definition list_components_call (p : Peer) : Eff MCPClient Envelope :=
  try_catch
    (ensure_connected p;;
     components ← listAvailableComponents p;
     mret (ListOk components (length components)
             ("Found " +:+ pretty (length components)
              +:+ " available DRUIDS components")))
    (fun error =>
       mret (Failure (error_text error)
               "Failed to retrieve component list. Please try again or use the RAG tool for general component information.")).

Definition is_not_found (comp : AIFriendlyComponentProps) : bool :=
  match cp_notFound comp with
  | Some true => true
  | _ => false
  end.

Definition props_message (foundComponents notFoundComponents
                          : list AIFriendlyComponentProps) : string :=
  "Retrieved props for " +:+ pretty (length foundComponents) +:+ " components. "
  +:+ (if (0 <? length notFoundComponents)%nat
       then "Could not find: " +:+ String.concat ", " (cp_name <$> notFoundComponents)
       else "").

Definition get_component_props_call (p : Peer) (names : JsNames)
  : Eff MCPClient Envelope :=
  try_catch
    (if invalid_names names
     then mret (Failure
                  "Invalid input: names must be a non-empty array of component names"
                  ("Please provide component names as an array, e.g., ["
                   +:+ quoted "Button" +:+ ", " +:+ quoted "Input" +:+ "]"))
     else
       ensure_connected p;;
       componentProps ← getComponentProps p (elements names);
       let foundComponents := filter (fun comp => is_not_found comp = false) componentProps in
       let notFoundComponents := filter (fun comp => is_not_found comp = true) componentProps in
       mret (PropsOk foundComponents (cp_name <$> notFoundComponents)
               (props_message foundComponents notFoundComponents)))
    (fun error =>
       mret (Failure (error_text error)
               "Failed to retrieve component props. Please try again or use the RAG tool for general component information.")).

(** The two tool classes of this file. *)
Inductive McpTool :=
| ListComponentsTool
| GetComponentPropsTool.

Definition tool_name (t : McpTool) : string :=
  match t with
  | ListComponentsTool => "list_druids_components"
  | GetComponentPropsTool => "get_component_props"
  end.

Definition createMCPTools : list McpTool := [ListComponentsTool; GetComponentPropsTool].

End Adapters.

(** ** The express entry point: session cache, dispatcher, routes *)

Module Backend.
Import Channel Adapters.

(** The retrieval tool built by [initializeEngine]. *)
Record QueryEngineTool := {
  qe_name : string;
  qe_description : string;
  qe_similarityTopK : nat
}.

(** An element of an agent's [tools] array. *)
Inductive BaseTool :=
| Retrieval (q : QueryEngineTool)
| Remote (t : McpTool).

(** An agent object.  [agent_ref] is its identity (the order of
    construction): two agents are the same instance iff they are equal. *)
Record OpenAIAgent := {
  agent_ref : nat;
  tools : list BaseTool
}.

(** A pending [setTimeout] callback: the closure's [userId] and the
    earliest time at which it may run. *)
Record Timer := {
  due : Z;
  timer_user : string
}.

#[global] Instance Timer_eq_dec : EqDecision Timer.
Proof. solve_decision. Defined.

(** Module state.  [constructed] and [dispatched] are ghost counters:
    agents constructed so far, and dispatcher entries so far. *)
Record Server := {
  queryEngineTool : option QueryEngineTool;
  chatEngines : gmap string OpenAIAgent;
  lastActivityTimes : gmap string Z;
  mcpClient : MCPClient;
  timers : list Timer;
  clock : Z;
  constructed : nat;
  dispatched : nat
}.

Definition boot (t0 : Z) : Server :=
  {| queryEngineTool := None; chatEngines := ∅; lastActivityTimes := ∅;
     mcpClient := fresh; timers := []; clock := t0;
     constructed := 0; dispatched := 0 |}.

Definition set_queryEngineTool (q : option QueryEngineTool) (s : Server) : Server :=
  {| queryEngineTool := q; chatEngines := chatEngines s;
     lastActivityTimes := lastActivityTimes s; mcpClient := mcpClient s;
     timers := timers s; clock := clock s;
     constructed := constructed s; dispatched := dispatched s |}.

Definition set_mcpClient (c : MCPClient) (s : Server) : Server :=
  {| queryEngineTool := queryEngineTool s; chatEngines := chatEngines s;
     lastActivityTimes := lastActivityTimes s; mcpClient := c;
     timers := timers s; clock := clock s;
     constructed := constructed s; dispatched := dispatched s |}.

Definition set_clock (t : Z) (s : Server) : Server :=
  {| queryEngineTool := queryEngineTool s; chatEngines := chatEngines s;
     lastActivityTimes := lastActivityTimes s; mcpClient := mcpClient s;
     timers := timers s; clock := t;
     constructed := constructed s; dispatched := dispatched s |}.

Definition set_timers (l : list Timer) (s : Server) : Server :=
  {| queryEngineTool := queryEngineTool s; chatEngines := chatEngines s;
     lastActivityTimes := lastActivityTimes s; mcpClient := mcpClient s;
     timers := l; clock := clock s;
     constructed := constructed s; dispatched := dispatched s |}.

(** [chatEngines.set(userId, new OpenAIAgent({tools: allTools, ...}))] *)
Definition store_new_agent (userId : string) (allTools : list BaseTool) (s : Server)
  : Server :=
  let chatEngine := {| agent_ref := constructed s; tools := allTools |} in
  {| queryEngineTool := queryEngineTool s;
     chatEngines := <[userId := chatEngine]> (chatEngines s);
     lastActivityTimes := lastActivityTimes s; mcpClient := mcpClient s;
     timers := timers s; clock := clock s;
     constructed := S (constructed s); dispatched := dispatched s |}.

(** [lastActivityTimes.set(userId, Date.now())] *)
Definition touch (userId : string) (s : Server) : Server :=
  {| queryEngineTool := queryEngineTool s; chatEngines := chatEngines s;
     lastActivityTimes := <[userId := clock s]> (lastActivityTimes s);
     mcpClient := mcpClient s; timers := timers s; clock := clock s;
     constructed := constructed s; dispatched := dispatched s |}.

(** [chatEngines.delete(userId); lastActivityTimes.delete(userId);] *)
Definition evict (userId : string) (s : Server) : Server :=
  {| queryEngineTool := queryEngineTool s;
     chatEngines := delete userId (chatEngines s);
     lastActivityTimes := delete userId (lastActivityTimes s);
     mcpClient := mcpClient s; timers := timers s; clock := clock s;
     constructed := constructed s; dispatched := dispatched s |}.

Definition count_dispatch (s : Server) : Server :=
  {| queryEngineTool := queryEngineTool s; chatEngines := chatEngines s;
     lastActivityTimes := lastActivityTimes s; mcpClient := mcpClient s;
     timers := timers s; clock := clock s;
     constructed := constructed s; dispatched := S (dispatched s) |}.

(** The outside world during one call: whether loading the index
    succeeds, the tool service, and the model behind an agent's [chat]
    in its two modes. *)
Record World := {
  index_load : option Thrown;
  peer : Peer;
  chat_full : OpenAIAgent -> string -> Res string;
  chat_stream : OpenAIAgent -> string -> Res (list string)
}.

(** Run an operation of the singleton channel. *)
Definition on_mcp {A} (m : Eff MCPClient A) : Eff Server A := fun s =>
  let '(r, c) := m (mcpClient s) in (r, set_mcpClient c s).

Definition initializeEngine (w : World) : Eff Server unit := fun s =>
  match index_load w with
  | None =>
      let tool := {| qe_name := "druids_query_engine";
                     qe_description := "A query engine for the DRUIDS design system";
                     qe_similarityTopK := 3 |} in
      (Ok tt, set_queryEngineTool (Some tool) s)
  | Some e => (Throw e, s)
  end.

Definition idle_threshold : Z := 10 * 60 * 1000.
Definition check_delay : Z := 5 * 60 * 1000.

(** The body of [if (!chatEngines.has(userId)) { ... }]. *)
Definition create_agent (w : World) (userId : string) : Eff Server unit :=
  s ← get;
  (if queryEngineTool s is None then initializeEngine w else mret tt);;
  s ← get;
  match queryEngineTool s with
  | None => throw (ErrorObj "Failed to initialize query engine")
  | Some qet =>
      (if isReady (mcpClient s) then mret tt
       else try_catch (on_mcp (connect (peer w))) (fun _ => mret tt));;
      let mcpTools := Remote <$> createMCPTools in
      let allTools := Retrieval qet :: mcpTools in
      modify (store_new_agent userId allTools)
  end.

Definition schedule_check (userId : string) (s : Server) : Server :=
  set_timers (timers s ++ [{| due := clock s + check_delay; timer_user := userId |}]) s.

Definition getChatEngine (w : World) (userId : string)
  : Eff Server (option OpenAIAgent) :=
  s ← get;
  (if chatEngines s !! userId is None then create_agent w userId else mret tt);;
  modify (touch userId);;
  modify (schedule_check userId);;
  s ← get;
  mret (chatEngines s !! userId).

(** The callback handed to [setTimeout]. *)
Definition eviction_check (userId : string) (s : Server) : Server :=
  let lastActivityTime := lastActivityTimes s !! userId in
  if (idle_threshold <=? clock s - default 0 lastActivityTime)%Z
  then evict userId s
  else s.

(** [chatEngine.chat(...)] on what [getChatEngine] returned. *)
Definition with_agent {A} (o : option OpenAIAgent) (k : OpenAIAgent -> Res A)
  : Eff Server A := fun s =>
  match o with
  | Some chatEngine => (k chatEngine, s)
  | None =>
      (Throw (ErrorNamed "TypeError"
                "Cannot read properties of undefined (reading 'chat')"), s)
  end.

Definition queryIndex (w : World) (query userId : string) : Eff Server string :=
  modify count_dispatch;;
  chatEngine ← getChatEngine w userId;
  with_agent chatEngine (fun a => chat_full w a query).

(** The fragments the generator yields, in order. *)
Definition streamQueryIndex (w : World) (query userId : string)
  : Eff Server (list string) :=
  modify count_dispatch;;
  chatEngine ← getChatEngine w userId;
  with_agent chatEngine (fun a => chat_stream w a query).

(** *** Routes *)

Record Request := {
  x_user : option string;
  body_query : string
}.

Inductive Body :=
| BodyAnswer (text : string)
| BodyError (error : string).

Inductive Response :=
| Json (status : nat) (body : Body)
| EventStream (written : list string).

(** [!userId] *)
Definition missing (h : option string) : bool :=
  match h with
  | None => true
  | Some u => String.eqb u ""
  end.

(** [error instanceof Error ? error.toString() : "An unknown error occurred"] *)
Definition describe (e : Thrown) : string :=
  match e with
  | ErrorObj m => error_toString "Error" m
  | ErrorNamed n m => error_toString n m
  | NonError => "An unknown error occurred"
  end.

Definition newline : string := String "010"%char EmptyString.

(** [`data: ${response}\n\n`] *)
Definition frame (response : string) : string :=
  "data: " +:+ response +:+ newline +:+ newline.

Definition post_query (w : World) (req : Request) (s : Server) : Response * Server :=
  if missing (x_user req) then (Json 400 (BodyError "Missing X-User header"), s)
  else
    match queryIndex w (body_query req) (default "" (x_user req)) s with
    | (Ok response, s') => (Json 200 (BodyAnswer response), s')
    | (Throw e, s') => (Json 500 (BodyError (describe e)), s')
    end.

Definition post_stream_query (w : World) (req : Request) (s : Server)
  : Response * Server :=
  if missing (x_user req) then (Json 400 (BodyError "Missing X-User header"), s)
  else
    match streamQueryIndex w (body_query req) (default "" (x_user req)) s with
    | (Ok fragments, s') => (EventStream (frame <$> fragments), s')
    | (Throw e, s') => (Json 500 (BodyError (describe e)), s')
    end.

(** *** The event loop *)

Inductive Event :=
| Elapse (dt : Z)
| TimerFires (tm : Timer)
| Access (w : World) (userId : string)
| ToolList (p : Peer)
| ToolProps (p : Peer) (names : JsNames)
| Disconnect (p : Peer).

Fixpoint remove_first (tm : Timer) (l : list Timer) : list Timer :=
  match l with
  | [] => []
  | x :: l' => if decide (x = tm) then l' else x :: remove_first tm l'
  end.

(** One turn of the event loop; [None] when the event cannot happen
    (time does not run backwards; a timer fires only if it is pending and
    its delay has elapsed).  [Access] is a call of [getChatEngine] during
    which no other turn runs; calls that overlap are in [Overlap]. *)
Definition step (s : Server) (ev : Event) : option Server :=
  match ev with
  | Elapse dt =>
      if (0 <=? dt)%Z then Some (set_clock (clock s + dt) s) else None
  | TimerFires tm =>
      if decide (tm ∈ timers s) then
        if (due tm <=? clock s)%Z
        then Some (eviction_check (timer_user tm)
                     (set_timers (remove_first tm (timers s)) s))
        else None
      else None
  | Access w userId => Some (getChatEngine w userId s).2
  | ToolList p => Some (on_mcp (list_components_call p) s).2
  | ToolProps p names => Some (on_mcp (get_component_props_call p names) s).2
  | Disconnect p => Some (on_mcp (disconnect p) s).2
  end.

Fixpoint run (s : Server) (evs : list Event) : option Server :=
  match evs with
  | [] => Some s
  | ev :: evs' =>
      match step s ev with
      | Some s' => run s' evs'
      | None => None
      end
  end.

End Backend.

(** * Notions used in the statements *)

Import Channel Remote Adapters Backend.

(** ** Channel and adapters *)

(** [isConnected] is only ever set together with a client object. *)
Definition well_formed (c : MCPClient) : Prop :=
  isConnected c = true -> is_Some (client c).

(** The inputs C10 speaks of: [names] missing, not an array, or an empty
    array. *)
Definition unusable_names (names : JsNames) : Prop :=
  names = NamesMissing \/ (exists v, names = NamesScalar v) \/ names = NamesArray [].

(** The entry of the app map that answers for a name: the last item
    carrying that label. *)
Fixpoint last_labelled (name : string) (componentMap : list AppMapItem)
  : option AppMapItem :=
  match componentMap with
  | [] => None
  | item :: rest =>
      match last_labelled name rest with
      | Some later => Some later
      | None => if decide (label item = name) then Some item else None
      end
  end.

(** The record the service holds for a name: the props of the item that
    answers for it.  A label that is absent, or present without props, has
    no record. *)
Definition record_of (componentMap : list AppMapItem) (name : string)
  : option (list RawProp) :=
  last_labelled name componentMap ≫= props.

(** The props most recently handed to the [__proto__] setter (or stored
    under an ordinary label) by an item that has props. *)
Fixpoint last_with_props (name : string) (componentMap : list AppMapItem)
  : option (list RawProp) :=
  match componentMap with
  | [] => None
  | item :: rest =>
      match last_with_props name rest with
      | Some ps => Some ps
      | None => if decide (label item = name) then props item else None
      end
  end.

(** A prop as the tool shows it: its name and type, its [required] flag
    and default value when it has them, its description when that is a
    non-empty string, its possible values when it has them. *)
Definition shows (raw : RawProp) (shown : AIFriendlyProp) : Prop :=
  fp_name shown = rp_name raw
  /\ fp_type shown = rp_type raw
  /\ fp_required shown = rp_required raw
  /\ fp_defaultValue shown = rp_defaultValue raw
  /\ fp_description shown
     = match rp_description raw with
       | Some d => if decide (d = "") then None else Some d
       | None => None
       end
  /\ fp_possibleValues shown = rp_possibleValues raw.

(** No requested name is a property name of [Object.prototype]. *)
Definition plain_names (names : list string) : Prop :=
  Forall (fun n => n ∉ object_prototype_keys) names.

(** ** Session cache *)

(** The state in which a new agent is built: the index loaded if it was
    not, and one connect attempt made if the channel was not ready. *)
Definition prepared (w : World) (s : Server) : Server :=
  let s1 := if queryEngineTool s is None
            then (initializeEngine w s).2 else s in
  if isReady (mcpClient s1) then s1
  else set_mcpClient (connect (peer w) (mcpClient s1)).2 s1.

(** The index is loaded, or loading it now succeeds. *)
Definition index_available (w : World) (s : Server) : Prop :=
  is_Some (queryEngineTool s) \/ index_load w = None.

(** ** Event loop *)

Definition accesses (u : string) (ev : Event) : bool :=
  match ev with
  | Access _ u' => bool_decide (u' = u)
  | _ => false
  end.

(** The event is an eviction check of session [u]. *)
Definition checks (u : string) (ev : Event) : bool :=
  match ev with
  | TimerFires tm => bool_decide (timer_user tm = u)
  | _ => false
  end.

(** The event is a check of [u] that finds it idle for the threshold or more. *)
Definition evicts (u : string) (s : Server) (ev : Event) : bool :=
  checks u ev
  && (idle_threshold <=? clock s - default 0 (lastActivityTimes s !! u))%Z.

Definition never_accessed (u : string) (evs : list Event) : Prop :=
  Forall (fun ev => accesses u ev = false) evs.

Fixpoint no_eviction (u : string) (s : Server) (evs : list Event) : Prop :=
  match evs with
  | [] => True
  | ev :: evs' =>
      evicts u s ev = false
      /\ match step s ev with
         | Some s' => no_eviction u s' evs'
         | None => True
         end
  end.

Definition reachable (s : Server) : Prop :=
  exists t0 evs, run (boot t0) evs = Some s.

(** Every cached agent was constructed before now. *)
Definition refs_below (s : Server) : Prop :=
  forall u a, chatEngines s !! u = Some a -> (agent_ref a < constructed s)%nat.

Definition maps_agree (s : Server) : Prop :=
  dom (chatEngines s) = dom (lastActivityTimes s).

(** ** Routes *)

(** The text between "data: " and the closing blank line of a frame. *)
Definition frame_body (f : string) : string :=
  String.substring 6 (String.length f - 8) f.

(** The model answers this query with [chunks] in streamed mode and with
    their concatenation in non-streamed mode. *)
Definition same_output (w : World) (a : OpenAIAgent) (query : string)
  (chunks : list string) : Prop :=
  chat_stream w a query = Ok chunks
  /\ chat_full w a query = Ok (String.concat "" chunks).

(** * Concrete data *)

Module Examples.

Definition boom : Thrown := ErrorObj "write EPIPE".

(** A tool service that cannot be reached. *)
Definition unreachable : Peer :=
  {| handshake := Some (ErrorObj "spawn node ENOENT");
     teardown := None;
     list_tool := CallRejects NonError;
     props_tool := fun _ => CallRejects NonError |}.

(** A tool service whose connection cannot be closed cleanly. *)
Definition stubborn : Peer :=
  {| handshake := None;
     teardown := Some boom;
     list_tool := CallRejects NonError;
     props_tool := fun _ => CallRejects NonError |}.

(** A channel that completed its handshake. *)
Definition live : MCPClient :=
  {| client := Some {| ci_name := "druids-backend-client"; ci_version := "1.0.0" |};
     transport := Some {| tr_command := "node"; tr_args := ["index.js"];
                          tr_cwd := "../mcp" |};
     isConnected := true;
     wire := [WConnect] |}.

Definition size_prop : RawProp :=
  {| rp_name := "size"; rp_type := "string"; rp_required := Some false;
     rp_defaultValue := Some (JStr "md"); rp_description := None;
     rp_possibleValues := Some ["sm"; "md"; "lg"] |}.

Definition app_map : list AppMapItem :=
  [ {| label := "Button"; props := Some [size_prop] |};
    {| label := "Input"; props := Some [] |} ].

(** The tool service, reachable, with [app_map] behind it. *)
Definition druids : Peer :=
  service None None (CallResolves (Some [TextContent (Ok [])])) (Ok app_map).

End Examples.

Module Scenario.

Definition echo_full (a : OpenAIAgent) (query : string) : Res string :=
  Ok ("You asked: " +:+ query).
Definition echo_stream (a : OpenAIAgent) (query : string) : Res (list string) :=
  Ok ["You asked: "; query].

(** The tool service is up. *)
Definition healthy : World :=
  {| index_load := None; peer := Examples.druids;
     chat_full := echo_full; chat_stream := echo_stream |}.

(** The tool service cannot be reached. *)
Definition degraded : World :=
  {| index_load := None; peer := Examples.unreachable;
     chat_full := echo_full; chat_stream := echo_stream |}.

(** A model whose stream ends without a fragment. *)
Definition silent : World :=
  {| index_load := None; peer := Examples.druids;
     chat_full := fun _ _ => Ok ""; chat_stream := fun _ _ => Ok [] |}.

Definition alice : string := "alice".

Definition first_check : Timer := {| due := 300000; timer_user := alice |}.

(** The agent the first access constructs. *)
Definition first_agent : OpenAIAgent :=
  {| agent_ref := 0;
     tools := [Retrieval {| qe_name := "druids_query_engine";
                            qe_description := "A query engine for the DRUIDS design system";
                            qe_similarityTopK := 3 |};
               Remote ListComponentsTool; Remote GetComponentPropsTool] |}.

Definition ask (query : string) : Request :=
  {| x_user := Some alice; body_query := query |}.

Definition anonymous (query : string) : Request :=
  {| x_user := None; body_query := query |}.

Definition final (evs : list Event) : Server :=
  default (boot 0) (run (boot 0) evs).

End Scenario.

(** * More of the code *)

(** ** String methods used by the tool service *)

Module JsString.

(** [s.slice(n)] *)
Fixpoint drop (n : nat) (s : string) : string :=
  match n, s with
  | O, _ => s
  | S n', String _ s' => drop n' s'
  | S _, EmptyString => EmptyString
  end.

(** [s.includes(pat)] *)
Fixpoint includes (s pat : string) : bool :=
  String.prefix pat s
  || match s with
     | EmptyString => false
     | String _ s' => includes s' pat
     end.

(** [s.replace(pat, rep)] for a string pattern and a replacement without
    dollar signs: the leftmost occurrence is replaced. *)
Fixpoint replace (s pat rep : string) : string :=
  if String.prefix pat s then rep +:+ drop (String.length pat) s
  else
    match s with
    | EmptyString => EmptyString
    | String c s' => String c (replace s' pat rep)
    end.

End JsString.

(** ** mcp/tools/list-available-druids-components.ts *)

Module Listing.
Import Remote.

Record Metadata := {
  md_description : option string;
  md_statusLevel : option string
}.

(** An entry of the app map with the fields both tools read. *)
Record AppMapEntry := {
  entry_label : string;
  entry_props : option (list RawProp);
  entry_destination : option string;
  entry_metadata : option Metadata;
  entry_importPath : option string
}.

(** The part of an entry that [getDruidsComponentProps] looks at. *)
Definition props_view (item : AppMapEntry) : AppMapItem :=
  {| label := entry_label item; props := entry_props item |}.

(** [item.destination && item.destination.includes('/components/')] *)
Definition is_component (item : AppMapEntry) : bool :=
  match entry_destination item with
  | Some d => negb (String.eqb d "") && JsString.includes d "/components/"
  | None => false
  end.

(** The object built for a listed item; [dir] is [DRUIDS_DIRECTORY_PATH].
    Only items that passed the filter are mapped, so the destination is a
    string there. *)
Definition to_available (dir : string) (item : AppMapEntry) : AvailableComponent :=
  {| ac_name := entry_label item;
     ac_description := entry_metadata item ≫= md_description;
     ac_statusLevel := entry_metadata item ≫= md_statusLevel;
     ac_directoryPath :=
       dir +:+ JsString.replace (default "" (entry_destination item))
                 "/components/" "/";
     ac_importPath := entry_importPath item |}.

Definition listAvailableDruidsComponents (dir : string)
  (fetched : Res (list AppMapEntry)) : Res (list AvailableComponent) :=
  match fetched with
  | Throw e => Throw e
  | Ok componentMap =>
      Ok (to_available dir
            <$> filter (fun item => is_component item = true) componentMap)
  end.

End Listing.

(** ** The MCP server entry point: tool listing and dispatch *)

Module McpServer.
Import Remote Listing Adapters.

Record ToolDescriptor := {
  td_name : string;
  td_description : string;
  td_properties : list string;
  td_required : list string
}.

(** The [ListToolsRequestSchema] handler. *)
Definition list_tools : list ToolDescriptor :=
  [ {| td_name := "list-available-druids-components";
       td_description := "Lists all available DRUIDS design system components with their description, status level, directory path, and import path.";
       td_properties := [];
       td_required := [] |};
    {| td_name := "get-druids-component-props";
       td_description :=
         "Given a list of component names, retrieves their props from the Design System. This is useful to understand the props of a component. If a component is not found, the tool will return a "
         +:+ quoted "notFound" +:+ " property with the component name.";
       td_properties := ["names"];
       td_required := ["names"] |} ].

(** [request.params.arguments]: absent, or an object whose [names] may be
    absent. *)
Inductive CallArguments :=
| NoArguments
| WithNames (names : option (list string)).

(** What the handler serialises into its single text element. *)
Inductive ToolPayload :=
| ComponentList (l : list AvailableComponent)
| ComponentProps (l : list AIFriendlyComponentProps).

Definition res_map {A B} (f : A -> B) (r : Res A) : Res B :=
  match r with
  | Ok a => Ok (f a)
  | Throw e => Throw e
  end.

(** The [CallToolRequestSchema] handler.  Destructuring absent arguments
    throws a TypeError (the text is the engine's); absent [names] reach
    [getDruidsComponentProps] as [undefined], which it treats as no names. *)
Definition call_tool (dir : string) (fetched : Res (list AppMapEntry))
  (name : string) (arguments : CallArguments) : Res ToolPayload :=
  if String.eqb name "list-available-druids-components" then
    res_map ComponentList (listAvailableDruidsComponents dir fetched)
  else if String.eqb name "get-druids-component-props" then
    match arguments with
    | NoArguments =>
        Throw (ErrorNamed "TypeError"
                 "Cannot destructure property 'names' of 'request.params.arguments' as it is undefined.")
    | WithNames names =>
        res_map ComponentProps
          (getDruidsComponentProps (res_map (fmap props_view) fetched)
             (default [] names))
    end
  else Throw (ErrorObj ("Tool not found: " +:+ name)).

(** The server as the peer of the backend's channel: a handler result is
    serialised into one text element, which the client parses back; a
    throwing handler rejects the call. *)
Definition list_outcome (r : Res (list AvailableComponent))
  : CallOutcome (list AvailableComponent) :=
  match r with
  | Ok l => CallResolves (Some [TextContent (Ok l)])
  | Throw e => CallRejects (mcp_error e)
  end.

Definition peer_of (hs td : option Thrown) (dir : string)
  (fetched : Res (list AppMapEntry)) : Peer :=
  service hs td
    (list_outcome (listAvailableDruidsComponents dir fetched))
    (res_map (fmap props_view) fetched).

End McpServer.

(** ** Start-up of the express entry point *)

Module Startup.
Import Backend.

(** [initializeEngine().then(() => app.listen(...))]: the state in which
    the server starts to listen, if it ever does. *)
Definition listening (w : World) (t0 : Z) : option Server :=
  match initializeEngine w (boot t0) with
  | (Ok _, s) => Some s
  | (Throw _, _) => None
  end.

End Startup.

(** ** backend/query.ts: the backend without the tool channel *)

Module Legacy.
Import Backend.

Record Server := {
  queryEngineTool : option QueryEngineTool;
  chatEngines : gmap string OpenAIAgent;
  lastActivityTimes : gmap string Z;
  timers : list Timer;
  clock : Z;
  constructed : nat
}.

Definition boot (t0 : Z) : Server :=
  {| queryEngineTool := None; chatEngines := ∅; lastActivityTimes := ∅;
     timers := []; clock := t0; constructed := 0 |}.

Definition initializeEngine (w : World) : Eff Server unit := fun s =>
  match index_load w with
  | None =>
      let tool := {| qe_name := "druids_query_engine";
                     qe_description := "A query engine for the DRUIDS design system";
                     qe_similarityTopK := 3 |} in
      (Ok tt, {| queryEngineTool := Some tool; chatEngines := chatEngines s;
                 lastActivityTimes := lastActivityTimes s; timers := timers s;
                 clock := clock s; constructed := constructed s |})
  | Some e => (Throw e, s)
  end.

(** [chatEngines.set(userId, new OpenAIAgent({tools: [queryEngineTool], ...}))] *)
Definition store_new_agent (userId : string) (qet : QueryEngineTool) (s : Server)
  : Server :=
  let chatEngine := {| agent_ref := constructed s; tools := [Retrieval qet] |} in
  {| queryEngineTool := queryEngineTool s;
     chatEngines := <[userId := chatEngine]> (chatEngines s);
     lastActivityTimes := lastActivityTimes s; timers := timers s;
     clock := clock s; constructed := S (constructed s) |}.

Definition create_agent (w : World) (userId : string) : Eff Server unit :=
  s ← get;
  (if queryEngineTool s is None then initializeEngine w else mret tt);;
  s ← get;
  match queryEngineTool s with
  | None => throw (ErrorObj "Failed to initialize query engine")
  | Some qet => modify (store_new_agent userId qet)
  end.

Definition touch (userId : string) (s : Server) : Server :=
  {| queryEngineTool := queryEngineTool s; chatEngines := chatEngines s;
     lastActivityTimes := <[userId := clock s]> (lastActivityTimes s);
     timers := timers s; clock := clock s; constructed := constructed s |}.

Definition schedule_check (userId : string) (s : Server) : Server :=
  {| queryEngineTool := queryEngineTool s; chatEngines := chatEngines s;
     lastActivityTimes := lastActivityTimes s;
     timers := timers s ++ [{| due := clock s + check_delay; timer_user := userId |}];
     clock := clock s; constructed := constructed s |}.

Definition getChatEngine (w : World) (userId : string)
  : Eff Server (option OpenAIAgent) :=
  s ← get;
  (if chatEngines s !! userId is None then create_agent w userId else mret tt);;
  modify (touch userId);;
  modify (schedule_check userId);;
  s ← get;
  mret (chatEngines s !! userId).

Definition evict (userId : string) (s : Server) : Server :=
  {| queryEngineTool := queryEngineTool s;
     chatEngines := delete userId (chatEngines s);
     lastActivityTimes := delete userId (lastActivityTimes s);
     timers := timers s; clock := clock s; constructed := constructed s |}.

Definition eviction_check (userId : string) (s : Server) : Server :=
  let lastActivityTime := lastActivityTimes s !! userId in
  if (idle_threshold <=? clock s - default 0 lastActivityTime)%Z
  then evict userId s
  else s.

Inductive Event :=
| Elapse (dt : Z)
| TimerFires (tm : Timer)
| Access (w : World) (userId : string).

Definition step (s : Server) (ev : Event) : option Server :=
  match ev with
  | Elapse dt =>
      if (0 <=? dt)%Z
      then Some {| queryEngineTool := queryEngineTool s;
                   chatEngines := chatEngines s;
                   lastActivityTimes := lastActivityTimes s;
                   timers := timers s; clock := clock s + dt;
                   constructed := constructed s |}
      else None
  | TimerFires tm =>
      if decide (tm ∈ timers s) then
        if (due tm <=? clock s)%Z
        then Some (eviction_check (timer_user tm)
                     {| queryEngineTool := queryEngineTool s;
                        chatEngines := chatEngines s;
                        lastActivityTimes := lastActivityTimes s;
                        timers := remove_first tm (timers s);
                        clock := clock s; constructed := constructed s |})
        else None
      else None
  | Access w userId => Some (getChatEngine w userId s).2
  end.

Fixpoint run (s : Server) (evs : list Event) : option Server :=
  match evs with
  | [] => Some s
  | ev :: evs' =>
      match step s ev with
      | Some s' => run s' evs'
      | None => None
      end
  end.

End Legacy.

(** ** Calls of [getChatEngine] that overlap

    On a miss [getChatEngine] waits for the outside world in two places:
    at line 48 for the index ([await initializeEngine()]) and at line 57
    for the handshake ([await mcpClient.connect()]).  Between the lookup
    of line 46 and the insertion of line 100 other turns of the event loop
    can therefore run, a second call for the same id among them.  Here a
    call is a sequence of segments, each running to the next [await] or to
    the [return]; [Backend.step] is the case of a call whose segments
    follow one another with nothing in between. *)

Module Overlap.
Import Channel Adapters Backend.

(** Where a call is suspended. *)
Inductive Await :=
| AwaitIndex
| AwaitConnect.

(** A suspended call: its argument, where it waits, and the outside world
    that will answer it. *)
Record Call := {
  call_world : World;
  call_user : string;
  call_await : Await
}.

(** How a segment ends: at an [await], or with the call returning (or
    throwing); [built] tells whether the segment constructed an agent. *)
Inductive Progress :=
| Suspends (point : Await)
| Returns (r : Res (option OpenAIAgent)) (built : bool).

(** [connect] up to its [await]: lines 33-59 of mcp-client.ts. *)
Definition connect_begin (c : MCPClient) : MCPClient :=
  {| client := Some {| ci_name := "druids-backend-client"; ci_version := "1.0.0" |};
     transport := Some {| tr_command := "node"; tr_args := ["index.js"];
                          tr_cwd := "../mcp" |};
     isConnected := isConnected c;
     wire := wire c ++ [WConnect] |}.

(** [connect] from its [await] on: lines 60-68, on the channel as it is
    when the handshake settles. *)
Definition connect_settle (p : Peer) : Eff MCPClient unit := fun c =>
  match handshake p with
  | None =>
      (Ok tt, {| client := client c; transport := transport c;
                 isConnected := true; wire := wire c |})
  | Some e => (Throw e, c)
  end.

(** Lines 103-115. *)
Definition tail (userId : string) (built : bool) (s : Server) : Progress * Server :=
  let s1 := schedule_check userId (touch userId s) in
  (Returns (Ok (chatEngines s1 !! userId)) built, s1).

(** Lines 65-100 and the tail.  [queryEngineTool] is read again at line
    66; line 51 has checked it and nothing ever resets it, so the second
    branch is dead (a [null] element has no counterpart in [BaseTool]). *)
Definition build (userId : string) (s : Server) : Progress * Server :=
  let mcpTools := Remote <$> createMCPTools in
  let allTools :=
    match queryEngineTool s with
    | Some qet => Retrieval qet :: mcpTools
    | None => mcpTools
    end in
  tail userId true (store_new_agent userId allTools s).

(** Lines 51-57, entered with the index loaded or just loaded. *)
Definition after_index (userId : string) (s : Server) : Progress * Server :=
  match queryEngineTool s with
  | None => (Returns (Throw (ErrorObj "Failed to initialize query engine")) false, s)
  | Some _ =>
      if isReady (mcpClient s) then build userId s
      else (Suspends AwaitConnect, set_mcpClient (connect_begin (mcpClient s)) s)
  end.

(** The first segment of a call: lines 46-48. *)
Definition begin (userId : string) (s : Server) : Progress * Server :=
  match chatEngines s !! userId with
  | Some _ => tail userId false s
  | None =>
      match queryEngineTool s with
      | None => (Suspends AwaitIndex, s)
      | Some _ => after_index userId s
      end
  end.

(** The segment that runs when the awaited operation settles. *)
Definition resume (w : World) (userId : string) (point : Await) (s : Server)
  : Progress * Server :=
  match point with
  | AwaitIndex =>
      match initializeEngine w s with
      | (Ok _, s1) => after_index userId s1
      | (Throw e, s1) => (Returns (Throw e) false, s1)
      end
  | AwaitConnect =>
      build userId (set_mcpClient (connect_settle (peer w) (mcpClient s)).2 s)
  end.

(** A call that has returned; a ghost record. *)
Record Return := {
  ret_call : nat;
  ret_user : string;
  ret_value : Res (option OpenAIAgent);
  ret_built : bool
}.

Record State := {
  server : Server;
  pending : gmap nat Call;
  returns : list Return
}.

(** No call in progress. *)
Definition idle (s : Server) : State :=
  {| server := s; pending := ∅; returns := [] |}.

Inductive Event :=
| Begin (id : nat) (w : World) (userId : string)
| Settle (id : nat)
| Turn (ev : Backend.Event).

Definition advance (id : nat) (w : World) (userId : string)
  (out : Progress * Server) (st : State) : State :=
  match out.1 with
  | Suspends point =>
      {| server := out.2;
         pending := <[id := {| call_world := w; call_user := userId;
                               call_await := point |}]> (pending st);
         returns := returns st |}
  | Returns r built =>
      {| server := out.2;
         pending := delete id (pending st);
         returns := returns st ++ [{| ret_call := id; ret_user := userId;
                                      ret_value := r; ret_built := built |}] |}
  end.

(** One turn of the event loop.  A call begins under an id not in use;
    a suspended call resumes when what it awaits settles; every other
    turn is as in [Backend.step], where a call is never a single turn. *)
Definition step (st : State) (ev : Event) : option State :=
  match ev with
  | Begin id w userId =>
      match pending st !! id with
      | Some _ => None
      | None => Some (advance id w userId (begin userId (server st)) st)
      end
  | Settle id =>
      match pending st !! id with
      | Some call =>
          Some (advance id (call_world call) (call_user call)
                  (resume (call_world call) (call_user call) (call_await call)
                     (server st)) st)
      | None => None
      end
  | Turn (Access _ _) => None
  | Turn ev =>
      match Backend.step (server st) ev with
      | Some s => Some {| server := s; pending := pending st; returns := returns st |}
      | None => None
      end
  end.

Fixpoint run (st : State) (evs : list Event) : option State :=
  match evs with
  | [] => Some st
  | ev :: evs' =>
      match step st ev with
      | Some st' => run st' evs'
      | None => None
      end
  end.

End Overlap.

(** ** More concrete data *)

Module Cases.
Import Remote Listing Backend.

Definition dir : string := "packages/druids".

Definition guide_entry : AppMapEntry :=
  {| entry_label := "Getting started"; entry_props := None;
     entry_destination := Some "/guides/start";
     entry_metadata := None; entry_importPath := None |}.

Definition button_entry : AppMapEntry :=
  {| entry_label := "Button"; entry_props := Some [Examples.size_prop];
     entry_destination := Some "/components/button";
     entry_metadata := Some {| md_description := Some "Triggers an action";
                               md_statusLevel := Some "stable" |};
     entry_importPath := Some "@druids/ui/Button" |}.

Definition draft_entry : AppMapEntry :=
  {| entry_label := "Ghost"; entry_props := None;
     entry_destination := None;
     entry_metadata := None; entry_importPath := None |}.

Definition entries : list AppMapEntry := [guide_entry; button_entry; draft_entry].

(** The repository's tool service, reachable, with [entries] behind it. *)
Definition server : Peer := McpServer.peer_of None None dir (Ok entries).

(** The same service while the app map cannot be fetched. *)
Definition server_without_map : Peer :=
  McpServer.peer_of None None dir (Throw (ErrorNamed "TypeError" "fetch failed")).

(** A server that is listening, and calls of two users that overlap. *)
Definition listening : Server :=
  default (boot 0) (Startup.listening Scenario.healthy 0).

Definition bob : string := "bob".

Definition interleaved : list Overlap.Event :=
  [ Overlap.Begin 2 Scenario.healthy bob;
    Overlap.Settle 1;
    Overlap.Settle 2;
    Overlap.Begin 3 Scenario.degraded Scenario.alice;
    Overlap.Turn (Elapse 300000);
    Overlap.Turn (TimerFires Scenario.first_check);
    Overlap.Begin 4 Scenario.healthy Scenario.alice ].

Definition after (evs : list Overlap.Event) : Overlap.State :=
  default (Overlap.idle listening) (Overlap.run (Overlap.idle listening) evs).

End Cases.

(** ** Further notions used in the statements *)

(** A response that carries no text as its first content element. *)
Definition textless {A} (o : CallOutcome A) : Prop :=
  o = CallResolves None
  \/ o = CallResolves (Some [])
  \/ exists rest, o = CallResolves (Some (OtherContent :: rest)).

(** Nothing was sent on a channel that never connected, and the first
    operation ever sent is a handshake. *)
Definition handshake_first (c : MCPClient) : Prop :=
  match wire c with
  | [] => isConnected c = false
  | op :: _ => op = WConnect
  end.

(** The server is listening and has handled some events. *)
Definition serving (s : Server) : Prop :=
  exists w0 t0 s0 evs, Startup.listening w0 t0 = Some s0 /\ run s0 evs = Some s.



(** No session is stamped in the future, and every pending check is due
    at most [check_delay] after now and after the last activity of its
    session. *)
Definition time_sane (s : Server) : Prop :=
  (forall u l, lastActivityTimes s !! u = Some l -> (l <= clock s)%Z)
  /\ (forall tm, tm ∈ timers s -> (due tm <= clock s + check_delay)%Z)
  /\ (forall tm l, tm ∈ timers s ->
        lastActivityTimes s !! timer_user tm = Some l ->
        (due tm <= l + check_delay)%Z).

(** No agent object is held by two sessions. *)
Definition agents_unshared (s : Server) : Prop :=
  forall u u' a a',
    chatEngines s !! u = Some a -> chatEngines s !! u' = Some a' ->
    agent_ref a = agent_ref a' -> u = u'.




(** The tools every agent of the current backend is built with. *)
Definition full_toolset (a : OpenAIAgent) : Prop :=
  exists q, tools a = [Retrieval q; Remote ListComponentsTool;
                       Remote GetComponentPropsTool].

(** ** Overlapping calls *)

(** The state was reached from a server with an empty cache and no call
    in progress (at start-up, or once the index is loaded). *)
Definition started (st : Overlap.State) : Prop :=
  exists s0 evs, chatEngines s0 = ∅ /\ Overlap.run (Overlap.idle s0) evs = Some st.

(** A call for [u] is in progress. *)
Definition in_flight (u : string) (st : Overlap.State) : Prop :=
  exists id call, Overlap.pending st !! id = Some call /\ Overlap.call_user call = u.

(** The event begins a call for [u]. *)
Definition begins (u : string) (ev : Overlap.Event) : bool :=
  match ev with
  | Overlap.Begin _ _ u' => bool_decide (u' = u)
  | _ => false
  end.

(** The event is a check that evicts [u]. *)
Definition evicting (u : string) (st : Overlap.State) (ev : Overlap.Event) : bool :=
  match ev with
  | Overlap.Turn e => evicts u (Overlap.server st) e
  | _ => false
  end.

(** Along the run no call for [u] begins while call [i] is in progress,
    and no check evicts [u]. *)
Fixpoint undisturbed (i : nat) (u : string) (st : Overlap.State)
  (evs : list Overlap.Event) : bool :=
  match evs with
  | [] => true
  | ev :: evs' =>
      match Overlap.pending st !! i with
      | Some _ => negb (begins u ev)
      | None => true
      end
      && negb (evicting u st ev)
      && match Overlap.step st ev with
         | Some st' => undisturbed i u st' evs'
         | None => true
         end
  end.

(** The calls for [u] among those that returned. *)
Definition returned_to (u : string) (l : list Overlap.Return) : list Overlap.Return :=
  filter (fun r => Overlap.ret_user r = u) l.

(** What a segment of a call for [v] does to the cache: nothing, or one
    insertion under [v] of an agent constructed in that segment. *)
Definition segment_effect (v : string) (s s' : Server) : Prop :=
  (is_Some (queryEngineTool s) -> is_Some (queryEngineTool s'))
  /\ ((chatEngines s' = chatEngines s /\ constructed s' = constructed s)
      \/ (exists allTools,
            chatEngines s'
            = <[v := {| agent_ref := constructed s; tools := allTools |}]>
                (chatEngines s)
            /\ constructed s' = S (constructed s))).

(** * Properties *)

(** Unfolds the plumbing of [Eff] computations. *)
Ltac eff_unfold :=
  unfold try_catch, mbind, Eff_bind, mret, Eff_ret, throw, get, modify in *.

(** ** The tool channel *)

Section ChannelFacts.

Variable p : Peer.

Lemma well_formed_fresh : well_formed fresh.
Proof. unfold well_formed; simpl; discriminate. Qed.

Lemma not_usable_false (c : MCPClient) :
  well_formed c -> isConnected c = true -> not_usable c = false.
Proof.
  intros Hwf Hc. unfold not_usable. rewrite Hc. simpl.
  rewrite bool_decide_eq_true_2; auto.
Qed.

Lemma not_usable_disconnected (c : MCPClient) :
  isConnected c = false -> not_usable c = true.
Proof. intros Hc. unfold not_usable. rewrite Hc. reflexivity. Qed.

Lemma connect_well_formed (c : MCPClient) :
  well_formed c -> well_formed (connect p c).2.
Proof.
  intros Hwf. unfold connect.
  destruct (isConnected c) eqn:Hc; [exact Hwf |].
  destruct (handshake p); unfold well_formed; simpl; eauto.
Qed.

Lemma disconnect_well_formed (c : MCPClient) :
  well_formed c -> well_formed (disconnect p c).2.
Proof.
  intros Hwf. unfold disconnect.
  destruct (not_usable c); [exact Hwf |].
  destruct (teardown p); unfold well_formed; simpl; [exact Hwf | discriminate].
Qed.

Lemma connect_ok (c : MCPClient) :
  isConnected c = false -> handshake p = None ->
  (connect p c).1 = Ok tt /\ isConnected (connect p c).2 = true
  /\ is_Some (client (connect p c).2).
Proof.
  intros Hc Hh. unfold connect. rewrite Hc, Hh. simpl. eauto.
Qed.

Lemma connect_fails (c : MCPClient) (e : Thrown) :
  isConnected c = false -> handshake p = Some e ->
  (connect p c).1 = Throw e /\ isConnected (connect p c).2 = false.
Proof.
  intros Hc Hh. unfold connect. rewrite Hc, Hh. simpl. eauto.
Qed.

Lemma sent_well_formed (op : WireOp) (c : MCPClient) :
  well_formed c -> well_formed (sent op c).
Proof. exact (fun H => H). Qed.

Lemma listAvailableComponents_well_formed (c : MCPClient) :
  well_formed c -> well_formed (listAvailableComponents p c).2.
Proof.
  intros Hwf. unfold listAvailableComponents.
  destruct (not_usable c); [exact Hwf | apply sent_well_formed; exact Hwf].
Qed.

Lemma getComponentProps_well_formed (names : list string) (c : MCPClient) :
  well_formed c -> well_formed (getComponentProps p names c).2.
Proof.
  intros Hwf. unfold getComponentProps.
  destruct (not_usable c); [exact Hwf | apply sent_well_formed; exact Hwf].
Qed.

Lemma disconnect_never_throws (c : MCPClient) : (disconnect p c).1 = Ok tt.
Proof.
  unfold disconnect. destruct (not_usable c); [reflexivity |].
  destruct (teardown p); reflexivity.
Qed.

Lemma disconnect_noop (c : MCPClient) :
  isReady c = false -> disconnect p c = (Ok tt, c).
Proof.
  unfold isReady. intros Hc. unfold disconnect.
  rewrite not_usable_disconnected; auto.
Qed.

End ChannelFacts.

(** C6, as stated, fails: when [client.close()] raises on a connected
    channel, [disconnect] swallows the error but the channel still reports
    ready. *)
Lemma disconnect_failed_teardown_stays_ready :
  (disconnect Examples.stubborn Examples.live).1 = Ok tt
  /\ isReady (disconnect Examples.stubborn Examples.live).2 = true.
Proof. split; reflexivity. Qed.

(** C6 (amended): on every channel state the code can reach, [disconnect]
    never throws; it changes nothing when the channel is already
    disconnected; when the teardown succeeds the channel ends disconnected
    (and a second [disconnect] changes nothing more); when the teardown
    raises, the error is swallowed and the connection state is kept. *)
Theorem disconnect_contract (p : Peer) (c : MCPClient) :
  well_formed c ->
  (disconnect p c).1 = Ok tt
  /\ (isReady c = false -> (disconnect p c).2 = c)
  /\ (teardown p = None ->
      isReady (disconnect p c).2 = false
      /\ (disconnect p (disconnect p c).2).2 = (disconnect p c).2)
  /\ (forall e, teardown p = Some e ->
      isReady (disconnect p c).2 = isReady c
      /\ client (disconnect p c).2 = client c
      /\ transport (disconnect p c).2 = transport c).
Proof.
  intros Hwf.
  split; [apply disconnect_never_throws |].
  split; [intros Hc; rewrite disconnect_noop; auto |].
  split.
  - intros Htd.
    assert (Hoff : isReady (disconnect p c).2 = false).
    { unfold isReady. destruct (isConnected c) eqn:Hc.
      - unfold disconnect. rewrite not_usable_false, Htd by assumption.
        reflexivity.
      - rewrite disconnect_noop by exact Hc. exact Hc. }
    split; [exact Hoff |]. rewrite disconnect_noop; auto.
  - intros e Htd. unfold disconnect.
    destruct (not_usable c); [auto |]. rewrite Htd. simpl. auto.
Qed.

Lemma disconnect_contract_witness :
  well_formed Examples.live
  /\ (disconnect Examples.druids Examples.live).1 = Ok tt
  /\ isReady (disconnect Examples.druids Examples.live).2 = false.
Proof.
  assert (Hwf : well_formed Examples.live) by (intros _; simpl; eauto).
  destruct (disconnect_contract Examples.druids Examples.live Hwf)
    as (Hok & _ & Hclear & _).
  split; [exact Hwf |]. split; [exact Hok |].
  apply Hclear. reflexivity.
Defined.

(** ** The tool adapters *)

Section AdapterFacts.

Variable p : Peer.

Lemma ensure_connected_ready (c : MCPClient) :
  isReady c = true -> ensure_connected p c = (Ok tt, c).
Proof. intros Hc. unfold ensure_connected. rewrite Hc. reflexivity. Qed.

Lemma ensure_connected_fails (c : MCPClient) (e : Thrown) :
  isReady c = false -> handshake p = Some e ->
  ensure_connected p c = (Throw e, (connect p c).2)
  /\ isReady (connect p c).2 = false.
Proof.
  unfold isReady. intros Hc Hh.
  unfold ensure_connected, isReady, connect. rewrite Hc, Hh. auto.
Qed.

(** An adapter never throws: whatever the channel does, a JSON envelope
    comes back. *)
Lemma list_components_call_total (c : MCPClient) :
  exists env, (list_components_call p c).1 = Ok env.
Proof.
  unfold list_components_call. eff_unfold.
  destruct (ensure_connected p c) as [[[]|e] c1]; simpl; eauto.
  destruct (listAvailableComponents p c1) as [[v|e] c2]; simpl; eauto.
Qed.

Lemma get_component_props_call_total (names : JsNames) (c : MCPClient) :
  exists env, (get_component_props_call p names c).1 = Ok env.
Proof.
  unfold get_component_props_call. eff_unfold.
  destruct (invalid_names names); simpl; eauto.
  destruct (ensure_connected p c) as [[[]|e] c1]; simpl; eauto.
  destruct (getComponentProps p (elements names) c1) as [[v|e] c2]; simpl; eauto.
Qed.

Lemma ensure_connected_well_formed (c : MCPClient) :
  well_formed c -> well_formed (ensure_connected p c).2.
Proof.
  intros Hwf. unfold ensure_connected.
  destruct (isReady c); [exact Hwf | apply connect_well_formed; exact Hwf].
Qed.

Lemma list_components_call_well_formed (c : MCPClient) :
  well_formed c -> well_formed (list_components_call p c).2.
Proof.
  intros Hwf. unfold list_components_call. eff_unfold.
  pose proof (ensure_connected_well_formed c Hwf) as H1.
  destruct (ensure_connected p c) as [[[] | e] c1]; simpl in *; [| exact H1].
  pose proof (listAvailableComponents_well_formed p c1 H1) as H2.
  destruct (listAvailableComponents p c1) as [[v | e] c2]; simpl in *; exact H2.
Qed.

Lemma get_component_props_call_well_formed (names : JsNames) (c : MCPClient) :
  well_formed c -> well_formed (get_component_props_call p names c).2.
Proof.
  intros Hwf. unfold get_component_props_call. eff_unfold.
  destruct (invalid_names names); simpl; [exact Hwf |].
  pose proof (ensure_connected_well_formed c Hwf) as H1.
  destruct (ensure_connected p c) as [[[] | e] c1]; simpl in *; [| exact H1].
  pose proof (getComponentProps_well_formed p (elements names) c1 H1) as H2.
  destruct (getComponentProps p (elements names) c1) as [[v | e] c2]; simpl in *;
    exact H2.
Qed.

Lemma list_components_call_unreachable (c : MCPClient) (e : Thrown) :
  isReady c = false -> handshake p = Some e ->
  exists env, (list_components_call p c).1 = Ok env
              /\ success env = false /\ message env <> "".
Proof.
  intros Hc Hh. destruct (ensure_connected_fails c e Hc Hh) as [He _].
  unfold list_components_call. eff_unfold. rewrite He. simpl.
  eexists; split; [reflexivity |]. split; [reflexivity | discriminate].
Qed.

Lemma get_component_props_call_unreachable (names : JsNames) (c : MCPClient)
  (e : Thrown) :
  isReady c = false -> handshake p = Some e ->
  exists env, (get_component_props_call p names c).1 = Ok env
              /\ success env = false /\ message env <> "".
Proof.
  intros Hc Hh. destruct (ensure_connected_fails c e Hc Hh) as [He _].
  unfold get_component_props_call. eff_unfold.
  destruct (invalid_names names); simpl.
  - eexists; split; [reflexivity |]. split; [reflexivity | discriminate].
  - rewrite He. simpl.
    eexists; split; [reflexivity |]. split; [reflexivity | discriminate].
Qed.

End AdapterFacts.

Lemma unusable_names_invalid (names : JsNames) :
  unusable_names names <-> invalid_names names = true.
Proof.
  unfold unusable_names, invalid_names. split.
  - intros [-> | [[v ->] | ->]]; simpl; try reflexivity.
    apply orb_true_r.
  - destruct names as [| v | [| n l]]; simpl; eauto.
    discriminate.
Qed.

(** C10: when [names] is missing, not an array, or empty,
    [get_component_props] answers with the [success: false] envelope that
    explains the input error, and the channel is left exactly as it was:
    no connect and no remote call (the wire log is unchanged). *)
Theorem get_component_props_rejects_bad_input (p : Peer) (names : JsNames)
  (c : MCPClient) :
  unusable_names names ->
  exists hint,
    get_component_props_call p names c
    = (Ok (Failure
             "Invalid input: names must be a non-empty array of component names"
             hint), c)
    /\ hint <> ""
    /\ wire (get_component_props_call p names c).2 = wire c.
Proof.
  intros Hbad. apply unusable_names_invalid in Hbad.
  unfold get_component_props_call. eff_unfold. rewrite Hbad.
  eexists. split; [reflexivity |]. split; [discriminate | reflexivity].
Qed.

(** A bare string where the array is expected. *)
Lemma get_component_props_rejects_bad_input_witness :
  exists hint,
    get_component_props_call Examples.druids (NamesScalar (JStr "Button"))
      Examples.live
    = (Ok (Failure
             "Invalid input: names must be a non-empty array of component names"
             hint), Examples.live).
Proof.
  destruct (get_component_props_rejects_bad_input Examples.druids
              (NamesScalar (JStr "Button")) Examples.live)
    as (hint & Hcall & _).
  - right; left. eexists; reflexivity.
  - exists hint. exact Hcall.
Defined.

(** ** Batch lookup *)

Section Lookup.

Variable names : list string.

Lemma map_res_Forall2 {A B} (f : A -> Res B) (l : list A) (l' : list B) :
  map_res f l = Ok l' -> Forall2 (fun x y => f x = Ok y) l l'.
Proof.
  revert l'. induction l as [| x l IH]; intros l'; simpl.
  - intros [= <-]. constructor.
  - destruct (f x) as [y | e] eqn:Hx; [| discriminate].
    destruct (map_res f l) as [ys | e]; [| discriminate].
    intros [= <-]. constructor; auto.
Qed.

Lemma map_res_total {A B} (f : A -> Res B) (l : list A) :
  (forall x, x ∈ l -> exists y, f x = Ok y) -> exists l', map_res f l = Ok l'.
Proof.
  induction l as [| x l IH]; intros Hall; simpl; [eauto |].
  destruct (Hall x) as [y ->]; [apply elem_of_cons; auto |].
  destruct IH as [ys ->]; [intros z Hz; apply Hall, elem_of_cons; auto |].
  eauto.
Qed.

Lemma Forall2_elem_l {A B} (P : A -> B -> Prop) (l : list A) (l' : list B) (x : A) :
  Forall2 P l l' -> x ∈ l -> exists y, y ∈ l' /\ P x y.
Proof.
  induction 1 as [| a b l l' Hab _ IH]; intros Hin; [inversion Hin |].
  apply elem_of_cons in Hin as [-> | Hin].
  - exists b. split; [apply elem_of_cons; auto | exact Hab].
  - destruct (IH Hin) as (y & Hy & HP). exists y.
    split; [apply elem_of_cons; auto | exact HP].
Qed.

Lemma Forall2_elem_r {A B} (P : A -> B -> Prop) (l : list A) (l' : list B) (y : B) :
  Forall2 P l l' -> y ∈ l' -> exists x, x ∈ l /\ P x y.
Proof.
  induction 1 as [| a b l l' Hab _ IH]; intros Hin; [inversion Hin |].
  apply elem_of_cons in Hin as [-> | Hin].
  - exists a. split; [apply elem_of_cons; auto | exact Hab].
  - destruct (IH Hin) as (x & Hx & HP). exists x.
    split; [apply elem_of_cons; auto | exact HP].
Qed.

(** The own properties of [found] after the loop. *)
Lemma fill_own (componentMap : list AppMapItem) (acc : JsObject) (n : string) :
  n ∈ names -> n <> "__proto__" ->
  own (foldl (fun found item =>
                if decide (label item ∈ (list_to_set names : gset string))
                then assign (label item) (props item) found
                else found) acc componentMap) !! n
  = match last_labelled n componentMap with
    | Some item => Some (props item)
    | None => own acc !! n
    end.
Proof.
  intros Hin Hn. revert acc.
  induction componentMap as [| item rest IH]; intros acc; simpl; [reflexivity |].
  rewrite IH. destruct (last_labelled n rest); [reflexivity |].
  destruct (decide (label item = n)) as [-> | Hne].
  - rewrite decide_True by (apply elem_of_list_to_set; exact Hin).
    unfold assign. rewrite (proj2 (String.eqb_neq _ _) Hn). simpl.
    apply lookup_insert_eq.
  - destruct (decide (label item ∈ (list_to_set names : gset string))); [| reflexivity].
    unfold assign. destruct (String.eqb (label item) "__proto__").
    + destruct (props item); reflexivity.
    + simpl. apply lookup_insert_ne. exact Hne.
Qed.

(** [__proto__] never becomes an own property. *)
Lemma fill_own_proto (nameSet : gset string) (componentMap : list AppMapItem)
  (acc : JsObject) :
  own (foldl (fun found item =>
                if decide (label item ∈ nameSet)
                then assign (label item) (props item) found
                else found) acc componentMap) !! "__proto__"
  = own acc !! "__proto__".
Proof.
  revert acc. induction componentMap as [| item rest IH]; intros acc; simpl;
    [reflexivity |].
  rewrite IH. destruct (decide (label item ∈ nameSet)); [| reflexivity].
  unfold assign. destruct (String.eqb_spec (label item) "__proto__") as [Heq | Hne].
  - destruct (props item); reflexivity.
  - simpl. apply lookup_insert_ne. exact Hne.
Qed.

(** The prototype of [found] after the loop. *)
Lemma fill_proto (componentMap : list AppMapItem) (acc : JsObject) :
  "__proto__" ∈ names ->
  proto_array (foldl (fun found item =>
                        if decide (label item ∈ (list_to_set names : gset string))
                        then assign (label item) (props item) found
                        else found) acc componentMap)
  = match last_with_props "__proto__" componentMap with
    | Some ps => Some ps
    | None => proto_array acc
    end.
Proof.
  intros Hin. revert acc.
  induction componentMap as [| item rest IH]; intros acc; simpl; [reflexivity |].
  rewrite IH. destruct (last_with_props "__proto__" rest); [reflexivity |].
  destruct (decide (label item = "__proto__")) as [Heq | Hne].
  - rewrite Heq. rewrite decide_True by (apply elem_of_list_to_set; exact Hin).
    unfold assign. simpl. destruct (props item); reflexivity.
  - destruct (decide (label item ∈ (list_to_set names : gset string))); [| reflexivity].
    unfold assign. rewrite (proj2 (String.eqb_neq _ _) Hne). reflexivity.
Qed.

Lemma fill_proto_untouched (componentMap : list AppMapItem) (acc : JsObject) :
  "__proto__" ∉ names ->
  proto_array (foldl (fun found item =>
                        if decide (label item ∈ (list_to_set names : gset string))
                        then assign (label item) (props item) found
                        else found) acc componentMap)
  = proto_array acc.
Proof.
  intros Hout. revert acc.
  induction componentMap as [| item rest IH]; intros acc; simpl; [reflexivity |].
  rewrite IH.
  destruct (decide (label item ∈ (list_to_set names : gset string))) as [Hin |];
    [| reflexivity].
  apply elem_of_list_to_set in Hin.
  unfold assign. destruct (String.eqb_spec (label item) "__proto__") as [Heq | Hne].
  - exfalso. apply Hout. rewrite <- Heq. exact Hin.
  - reflexivity.
Qed.

Lemma last_with_props_unlabelled (componentMap : list AppMapItem) (n : string) :
  last_labelled n componentMap = None -> last_with_props n componentMap = None.
Proof.
  induction componentMap as [| item rest IH]; simpl; [reflexivity |].
  destruct (last_labelled n rest); [discriminate |].
  rewrite IH by reflexivity.
  destruct (decide (label item = n)); [discriminate | reflexivity].
Qed.

Lemma record_last_with_props (componentMap : list AppMapItem) (n : string)
  (ps : list RawProp) :
  record_of componentMap n = Some ps -> last_with_props n componentMap = Some ps.
Proof.
  unfold record_of. induction componentMap as [| item rest IH]; simpl;
    [discriminate |].
  destruct (last_labelled n rest) as [later |] eqn:Hlast.
  - intros Hrec. rewrite (IH Hrec). reflexivity.
  - rewrite (last_with_props_unlabelled rest n Hlast).
    destruct (decide (label item = n)); [auto | discriminate].
Qed.

(** What [found[n]] is for a requested name with a record ... *)
Lemma read_recorded (componentMap : list AppMapItem) (n : string)
  (ps : list RawProp) :
  n ∈ names -> record_of componentMap n = Some ps ->
  get_property (build_lookup (list_to_set names) componentMap) n = PropsArray ps.
Proof.
  intros Hin Hrec. unfold get_property, build_lookup.
  destruct (decide (n = "__proto__")) as [-> | Hn].
  - rewrite fill_own_proto, (fill_proto _ _ Hin).
    rewrite (record_last_with_props _ _ _ Hrec). reflexivity.
  - rewrite (fill_own _ _ _ Hin Hn). unfold record_of in Hrec.
    destruct (last_labelled n componentMap) as [item |]; simpl in *; [| discriminate].
    rewrite Hrec. reflexivity.
Qed.

(** ... and for one without: never an array of props. *)
Lemma read_unrecorded (componentMap : list AppMapItem) (n : string)
  (ps : list RawProp) :
  n ∈ names -> n <> "__proto__" -> record_of componentMap n = None ->
  get_property (build_lookup (list_to_set names) componentMap) n <> PropsArray ps.
Proof.
  intros Hin Hn Hrec. unfold get_property, build_lookup.
  rewrite (fill_own _ _ _ Hin Hn). unfold record_of in Hrec.
  destruct (last_labelled n componentMap) as [item |]; simpl in *.
  - rewrite Hrec. discriminate.
  - rewrite lookup_empty.
    rewrite (proj2 (String.eqb_neq _ _) Hn).
    destruct (proto_array _); repeat (case_match; try discriminate).
Qed.

(** With no inherited name among the requested ones, every read yields
    [undefined] or a stored array. *)
Lemma read_plain (componentMap : list AppMapItem) (n : string) :
  plain_names names -> n ∈ names ->
  get_property (build_lookup (list_to_set names) componentMap) n
  = match record_of componentMap n with
    | Some ps => PropsArray ps
    | None => Undefined
    end.
Proof.
  intros Hplain Hin. unfold plain_names in Hplain. rewrite Forall_forall in Hplain.
  assert (Hproto : "__proto__" ∉ names).
  { intros H. apply (Hplain _ H). unfold object_prototype_keys.
    repeat (apply elem_of_cons; first [left; reflexivity | right]). }
  assert (Hn : n <> "__proto__") by (intros ->; exact (Hproto Hin)).
  unfold get_property, build_lookup.
  rewrite (fill_own _ _ _ Hin Hn), (fill_proto_untouched _ _ Hproto).
  unfold record_of. simpl.
  destruct (last_labelled n componentMap) as [item |]; simpl.
  - destruct (props item); reflexivity.
  - rewrite lookup_empty. rewrite bool_decide_eq_false_2; [reflexivity |].
    apply Hplain. exact Hin.
Qed.

Lemma format_result_name (found : JsObject) (n : string)
  (entry : AIFriendlyComponentProps) :
  format_result found n = Ok entry -> cp_name entry = n.
Proof.
  unfold format_result.
  destruct (get_property found n) as [| ps | []]; intros [= <-]; reflexivity.
Qed.

Lemma format_result_found (componentMap : list AppMapItem) (n : string)
  (ps : list RawProp) :
  n ∈ names -> record_of componentMap n = Some ps ->
  format_result (build_lookup (list_to_set names) componentMap) n
  = Ok {| cp_name := n; cp_props := Some (mapPropToAIFriendly <$> ps);
          cp_notFound := None |}.
Proof.
  intros Hin Hrec. unfold format_result.
  rewrite (read_recorded _ _ _ Hin Hrec). reflexivity.
Qed.

Lemma format_result_missing (componentMap : list AppMapItem) (n : string)
  (entry : AIFriendlyComponentProps) :
  n ∈ names -> n <> "__proto__" -> record_of componentMap n = None ->
  format_result (build_lookup (list_to_set names) componentMap) n = Ok entry ->
  entry = {| cp_name := n; cp_props := None; cp_notFound := Some true |}.
Proof.
  intros Hin Hn Hrec. unfold format_result.
  pose proof (fun ps => read_unrecorded componentMap n ps Hin Hn Hrec) as Hno.
  destruct (get_property _ n) as [| ps | []]; try (intros [= <-]; reflexivity).
  exfalso. exact (Hno ps eq_refl).
Qed.

(** The tool returns whenever no requested name is inherited. *)
Lemma plain_names_resolve (componentMap : list AppMapItem) :
  plain_names names ->
  exists result,
    map_res (format_result (build_lookup (list_to_set names) componentMap)) names
    = Ok result.
Proof.
  intros Hplain. apply map_res_total. intros n Hin. unfold format_result.
  rewrite (read_plain _ _ Hplain Hin).
  destruct (record_of componentMap n); eauto.
Qed.

End Lookup.

Lemma mapPropToAIFriendly_shows (ps : list RawProp) :
  Forall2 shows ps (mapPropToAIFriendly <$> ps).
Proof.
  induction ps as [| raw ps IH]; [constructor |].
  rewrite fmap_cons. constructor; [| exact IH].
  unfold shows, mapPropToAIFriendly, truthy_string. simpl.
  repeat split. destruct (rp_description raw) as [d |]; [| reflexivity].
  destruct (String.eqb_spec d ""), (decide (d = "")); congruence.
Qed.


(** [record_of] in plain terms: a label the app map does not carry has
    no record, and where labels do not repeat the record of an item's
    label is that item's props. *)
Lemma last_labelled_absent (componentMap : list AppMapItem) (n : string) :
  (forall item, item ∈ componentMap -> label item <> n) ->
  last_labelled n componentMap = None.
Proof.
  induction componentMap as [| x rest IH]; intros Habs; simpl; [reflexivity |].
  rewrite IH by (intros item Hin; apply Habs; apply elem_of_cons; auto).
  rewrite decide_False; [reflexivity |]. apply Habs. apply elem_of_cons. auto.
Qed.

Lemma record_of_absent (componentMap : list AppMapItem) (n : string) :
  (forall item, item ∈ componentMap -> label item <> n) ->
  record_of componentMap n = None.
Proof.
  intros Habs. unfold record_of. rewrite last_labelled_absent by exact Habs.
  reflexivity.
Qed.

Lemma record_of_unique (componentMap : list AppMapItem) (item : AppMapItem) :
  NoDup (label <$> componentMap) -> item ∈ componentMap ->
  record_of componentMap (label item) = props item.
Proof.
  unfold record_of. intros Hnd Hin.
  assert (Hlast : last_labelled (label item) componentMap = Some item).
  { induction componentMap as [| x rest IH]; [inversion Hin |].
    rewrite fmap_cons in Hnd. apply NoDup_cons in Hnd as [Hfresh Hnd].
    simpl. apply elem_of_cons in Hin as [-> | Hin].
    - rewrite last_labelled_absent.
      + rewrite decide_True by reflexivity. reflexivity.
      + intros y Hy Heq. apply Hfresh. rewrite <- Heq.
        apply list_elem_of_fmap_2. exact Hy.
    - rewrite (IH Hnd Hin). reflexivity. }
  rewrite Hlast. reflexivity.
Qed.

Lemma partition_length (l : list AIFriendlyComponentProps) :
  (length (filter (fun comp => is_not_found comp = false) l)
   + length (filter (fun comp => is_not_found comp = true) l))%nat = length l.
Proof.
  induction l as [| x l IH]; [reflexivity |].
  rewrite !filter_cons. destruct (is_not_found x) eqn:Hx.
  - rewrite decide_False by discriminate. rewrite decide_True by reflexivity.
    simpl. lia.
  - rewrite decide_True by reflexivity. rewrite decide_False by discriminate.
    simpl. lia.
Qed.

(** C5: when the channel call succeeds, [get_component_props] returns a
    [success: true] envelope in which every requested name with a record
    appears under [components] with its props and not under [notFound],
    every requested name without a record appears under [notFound] and
    not under [components], and every requested name is accounted for.
    (The name [__proto__] is never reported missing: it is found, or the
    call fails.) *)
Theorem get_component_props_partitions
  (hs td : option Thrown) (listing : CallOutcome (list AvailableComponent))
  (componentMap : list AppMapItem) (names : list string) (c : MCPClient)
  (result : list AIFriendlyComponentProps) :
  let p := service hs td listing (Ok componentMap) in
  names <> [] ->
  well_formed c ->
  (isReady c = false -> hs = None) ->
  read_response (props_tool p names) = Ok result ->
  exists components notFound msg c',
    get_component_props_call p (NamesArray names) c
    = (Ok (PropsOk components notFound msg), c')
    /\ success (PropsOk components notFound msg) = true
    /\ (forall n ps, n ∈ names -> record_of componentMap n = Some ps ->
        (exists shown,
           {| cp_name := n; cp_props := Some shown; cp_notFound := None |}
             ∈ components
           /\ Forall2 shows ps shown)
        /\ n ∉ notFound)
    /\ (forall n, n ∈ names -> n <> "__proto__" ->
        record_of componentMap n = None ->
        n ∈ notFound /\ forall comp, comp ∈ components -> cp_name comp <> n)
    /\ (length components + length notFound)%nat = length names.
Proof.
  intros p Hne Hwf Hhs Hres.
  set (found := build_lookup (list_to_set names) componentMap).
  assert (Hmap : map_res (format_result found) names = Ok result).
  { assert (Hlen : (length names =? 0)%nat = false).
    { destruct names; [congruence | reflexivity]. }
    simpl in Hres. unfold call_props_tool, getDruidsComponentProps in Hres.
    rewrite Hlen in Hres. fold found in Hres.
    destruct (map_res (format_result found) names) as [r | e];
      simpl in Hres; [| discriminate].
    injection Hres as ->. reflexivity. }
  pose proof (map_res_Forall2 _ _ _ Hmap) as Hall.
  assert (Hvalid : invalid_names (NamesArray names) = false).
  { unfold invalid_names. simpl. destruct names; [congruence | reflexivity]. }
  assert (Hconn : exists c1, ensure_connected p c = (Ok tt, c1)
                             /\ not_usable c1 = false).
  { destruct (isReady c) eqn:Hc.
    - exists c. split; [apply ensure_connected_ready; exact Hc |].
      apply not_usable_false; assumption.
    - assert (Hh : handshake p = None) by (apply Hhs; reflexivity).
      destruct (connect_ok p c Hc Hh) as (H1 & H2 & H3).
      exists (connect p c).2. split.
      + unfold ensure_connected. rewrite Hc.
        destruct (connect p c) as [r c1]. simpl in *. rewrite H1. reflexivity.
      + unfold not_usable. rewrite H2. simpl.
        rewrite bool_decide_eq_true_2; auto. }
  destruct Hconn as (c1 & Hens & Huse).
  assert (Hcall : getComponentProps p names c1
                  = (Ok result,
                     sent (WCallTool "get-druids-component-props" (Some names)) c1)).
  { unfold getComponentProps. rewrite Huse, Hres. reflexivity. }
  exists (filter (fun comp => is_not_found comp = false) result),
         (cp_name <$> filter (fun comp => is_not_found comp = true) result).
  eexists. eexists. split.
  { unfold get_component_props_call. eff_unfold. rewrite Hvalid, Hens.
    simpl. rewrite Hcall. reflexivity. }
  split; [reflexivity |].
  split; [| split].
  - intros n ps Hin Hrec.
    pose proof (format_result_found names componentMap n ps Hin Hrec) as Hfmt.
    fold found in Hfmt. split.
    + exists (mapPropToAIFriendly <$> ps).
      split; [| apply mapPropToAIFriendly_shows].
      apply list_elem_of_filter. split; [reflexivity |].
      destruct (Forall2_elem_l _ _ _ n Hall Hin) as (entry & Hentry & Hn).
      rewrite Hfmt in Hn. injection Hn as <-. exact Hentry.
    + intros Hnf. apply list_elem_of_fmap in Hnf as (comp & Hname & Hcomp).
      apply list_elem_of_filter in Hcomp as [Hflag Hcomp].
      destruct (Forall2_elem_r _ _ _ comp Hall Hcomp) as (m & Hm & Hfm).
      pose proof (format_result_name _ _ _ Hfm) as Hnm.
      rewrite <- Hname in Hnm. subst m.
      rewrite Hfmt in Hfm. injection Hfm as <-. discriminate.
  - intros n Hin Hproto Hrec.
    destruct (Forall2_elem_l _ _ _ n Hall Hin) as (entry & Hentry & Hn).
    pose proof (format_result_missing names componentMap n entry Hin Hproto Hrec Hn)
      as Hfmt.
    split.
    + apply list_elem_of_fmap. exists entry. split; [rewrite Hfmt; reflexivity |].
      apply list_elem_of_filter. split; [rewrite Hfmt; reflexivity | exact Hentry].
    + intros comp Hcomp Hname.
      apply list_elem_of_filter in Hcomp as [Hflag Hcomp].
      destruct (Forall2_elem_r _ _ _ comp Hall Hcomp) as (m & Hm & Hfm).
      pose proof (format_result_name _ _ _ Hfm) as Hnm.
      rewrite Hname in Hnm. subst m.
      pose proof (format_result_missing names componentMap n comp Hin Hproto Hrec Hfm)
        as Hc.
      rewrite Hc in Hflag. discriminate.
  - rewrite length_fmap, partition_length. symmetry.
    exact (Forall2_length _ _ _ Hall).
Qed.

(** The example of the spec: ["Button"; "Ghost"] with only "Button" on record. *)
Lemma get_component_props_partitions_witness :
  exists components notFound msg c',
    get_component_props_call Examples.druids (NamesArray ["Button"; "Ghost"]) fresh
    = (Ok (PropsOk components notFound msg), c')
    /\ (exists shown,
          {| cp_name := "Button"; cp_props := Some shown; cp_notFound := None |}
            ∈ components
          /\ Forall2 shows [Examples.size_prop] shown)
    /\ "Ghost" ∈ notFound
    /\ length components = 1%nat /\ length notFound = 1%nat.
Proof.
  destruct (get_component_props_partitions None None
              (CallResolves (Some [TextContent (Ok [])])) Examples.app_map
              ["Button"; "Ghost"] fresh
              [ {| cp_name := "Button";
                   cp_props := Some [mapPropToAIFriendly Examples.size_prop];
                   cp_notFound := None |};
                {| cp_name := "Ghost"; cp_props := None;
                   cp_notFound := Some true |} ])
    as (components & notFound & msg & c' & Hcall & _ & Hfound & Hmissing & Hlen).
  - discriminate.
  - apply well_formed_fresh.
  - reflexivity.
  - vm_compute. reflexivity.
  - exists components, notFound, msg, c'.
    split; [exact Hcall |].
    assert (Hb : "Button" ∈ ["Button"; "Ghost"]) by repeat constructor.
    assert (Hg : "Ghost" ∈ ["Button"; "Ghost"]) by repeat constructor.
    split; [exact (proj1 (Hfound "Button" [Examples.size_prop] Hb eq_refl)) |].
    split; [apply (Hmissing "Ghost" Hg); [discriminate | reflexivity] |].
    vm_compute in Hcall. inversion Hcall; subst. split; reflexivity.
Defined.

Example button_ghost :
  (get_component_props_call Examples.druids (NamesArray ["Button"; "Ghost"]) fresh).1
  = Ok (PropsOk
          [{| cp_name := "Button";
              cp_props := Some [mapPropToAIFriendly Examples.size_prop];
              cp_notFound := None |}]
          ["Ghost"]
          "Retrieved props for 1 components. Could not find: Ghost").
Proof. reflexivity. Qed.

(** The channel call succeeds whenever no requested name is a property
    name of [Object.prototype]. *)
Lemma plain_names_call_succeeds (hs td : option Thrown)
  (listing : CallOutcome (list AvailableComponent))
  (componentMap : list AppMapItem) (names : list string) :
  plain_names names ->
  exists result,
    read_response (props_tool (service hs td listing (Ok componentMap)) names)
    = Ok result.
Proof.
  intros Hplain. simpl. unfold call_props_tool, getDruidsComponentProps.
  destruct (length names =? 0)%nat; [simpl; eauto |].
  destruct (plain_names_resolve names componentMap Hplain) as [result ->].
  simpl. eauto.
Qed.

(** A requested name that [found] inherits and the app map does not label
    fails the whole call: the tool throws, and the adapter answers
    [success: false]. *)
Example inherited_name_fails_the_call :
  getDruidsComponentProps (Ok Examples.app_map) ["Button"; "constructor"]
  = Throw (ErrorNamed "TypeError" "props.map is not a function")
  /\ (get_component_props_call Examples.druids
        (NamesArray ["Button"; "constructor"]) Examples.live).1
     = Ok (Failure "MCP error -32603: props.map is not a function"
             "Failed to retrieve component props. Please try again or use the RAG tool for general component information.").
Proof. split; reflexivity. Qed.

(** ** The session cache *)

Section CacheFacts.

Variable w : World.
Variable userId : string.

Lemma getChatEngine_hit (s : Server) (a : OpenAIAgent) :
  chatEngines s !! userId = Some a ->
  getChatEngine w userId s = (Ok (Some a), schedule_check userId (touch userId s)).
Proof.
  intros Hhit. unfold getChatEngine. eff_unfold. rewrite Hhit. simpl.
  rewrite Hhit. reflexivity.
Qed.

Lemma prepared_index (s : Server) :
  index_available w s -> is_Some (queryEngineTool (prepared w s)).
Proof.
  intros Hav. unfold prepared, initializeEngine.
  destruct (queryEngineTool s) as [q |] eqn:Hq.
  - destruct (isReady (mcpClient s)); simpl; rewrite Hq; eauto.
  - destruct Hav as [[q' Hq'] | Hload]; [congruence |]. rewrite Hload. simpl.
    destruct (isReady (mcpClient s)); simpl; eauto.
Qed.

Lemma prepared_frame (s : Server) :
  chatEngines (prepared w s) = chatEngines s
  /\ lastActivityTimes (prepared w s) = lastActivityTimes s
  /\ timers (prepared w s) = timers s
  /\ clock (prepared w s) = clock s
  /\ constructed (prepared w s) = constructed s
  /\ dispatched (prepared w s) = dispatched s.
Proof.
  unfold prepared, initializeEngine.
  destruct (queryEngineTool s); destruct (index_load w); simpl;
    repeat match goal with |- context [if ?b then _ else _] => destruct b end;
    simpl; auto 10.
Qed.

Lemma getChatEngine_miss (s : Server) (q : QueryEngineTool) :
  chatEngines s !! userId = None ->
  queryEngineTool (prepared w s) = Some q ->
  index_available w s ->
  let a := {| agent_ref := constructed s;
              tools := Retrieval q :: (Remote <$> createMCPTools) |} in
  getChatEngine w userId s
  = (Ok (Some a),
     schedule_check userId
       (touch userId (store_new_agent userId (tools a) (prepared w s)))).
Proof.
  intros Hmiss Hq Hav a. subst a.
  destruct (prepared_frame s) as (_ & _ & _ & _ & Hn & _).
  unfold getChatEngine, create_agent. eff_unfold. rewrite Hmiss. simpl.
  unfold prepared in *. unfold initializeEngine in *.
  destruct (queryEngineTool s) as [q0 |] eqn:Hq0; simpl.
  - rewrite Hq0. unfold on_mcp.
    destruct (isReady (mcpClient s)) eqn:Hr; simpl in *.
    + rewrite lookup_insert_eq. congruence.
    + destruct (connect (peer w) (mcpClient s)) as [[[]|e] c1]; simpl in *;
        rewrite lookup_insert_eq; congruence.
  - destruct Hav as [[q' Hq'] | Hload]; [congruence |].
    rewrite Hload in *. simpl in *. unfold on_mcp. simpl.
    destruct (isReady (mcpClient s)) eqn:Hr; simpl in *.
    + rewrite lookup_insert_eq. congruence.
    + destruct (connect (peer w) (mcpClient s)) as [[[]|e] c1]; simpl in *;
        rewrite lookup_insert_eq; congruence.
Qed.

Lemma getChatEngine_unavailable (s : Server) (e : Thrown) :
  chatEngines s !! userId = None ->
  queryEngineTool s = None -> index_load w = Some e ->
  getChatEngine w userId s = (Throw e, s).
Proof.
  intros Hmiss Hq Hload. unfold getChatEngine, create_agent, initializeEngine.
  eff_unfold. rewrite Hmiss. simpl. rewrite Hq, Hload. reflexivity.
Qed.

(** Every call falls under one of the three cases above. *)
Lemma getChatEngine_cases (s : Server) :
  (exists a, chatEngines s !! userId = Some a
             /\ getChatEngine w userId s
                = (Ok (Some a), schedule_check userId (touch userId s)))
  \/ (exists q, chatEngines s !! userId = None
                /\ getChatEngine w userId s
                   = (Ok (Some {| agent_ref := constructed s;
                                  tools := Retrieval q :: (Remote <$> createMCPTools) |}),
                      schedule_check userId
                        (touch userId
                           (store_new_agent userId
                              (Retrieval q :: (Remote <$> createMCPTools))
                              (prepared w s)))))
  \/ (exists e, chatEngines s !! userId = None
                /\ getChatEngine w userId s = (Throw e, s)).
Proof.
  destruct (chatEngines s !! userId) as [a |] eqn:Hu.
  - left. exists a. split; [reflexivity |]. apply getChatEngine_hit. exact Hu.
  - right. destruct (queryEngineTool s) as [q0 |] eqn:Hq0.
    + assert (Hav : index_available w s) by (left; eauto).
      destruct (prepared_index s Hav) as [q Hq].
      left. exists q. split; [reflexivity |].
      apply (getChatEngine_miss s q Hu Hq Hav).
    + destruct (index_load w) as [e |] eqn:Hload.
      * right. exists e. split; [reflexivity |].
        apply getChatEngine_unavailable; assumption.
      * assert (Hav : index_available w s) by (right; exact Hload).
        destruct (prepared_index s Hav) as [q Hq].
        left. exists q. split; [reflexivity |].
        apply (getChatEngine_miss s q Hu Hq Hav).
Qed.

End CacheFacts.

(** ** The event loop *)

Section LoopFacts.

Lemma access_clock (w : World) (u : string) (s : Server) :
  clock (getChatEngine w u s).2 = clock s.
Proof.
  destruct (prepared_frame w s) as (_ & _ & _ & Hc & _).
  destruct (getChatEngine_cases w u s)
    as [(a & _ & ->) | [(q & _ & ->) | (e & _ & ->)]]; simpl; auto.
Qed.

Lemma access_other (w : World) (u u' : string) (s : Server) :
  u' <> u ->
  chatEngines (getChatEngine w u' s).2 !! u = chatEngines s !! u
  /\ lastActivityTimes (getChatEngine w u' s).2 !! u = lastActivityTimes s !! u.
Proof.
  intros Hne.
  destruct (prepared_frame w s) as (Hce & Hla & _).
  destruct (getChatEngine_cases w u' s)
    as [(a & _ & ->) | [(q & _ & ->) | (e & _ & ->)]]; simpl.
  - rewrite lookup_insert_ne by exact Hne. auto.
  - rewrite !lookup_insert_ne by exact Hne. rewrite Hce, Hla. auto.
  - auto.
Qed.

Lemma access_constructed_hit (w : World) (u : string) (s : Server)
  (a : OpenAIAgent) :
  chatEngines s !! u = Some a ->
  constructed (getChatEngine w u s).2 = constructed s.
Proof. intros Hhit. rewrite (getChatEngine_hit w u s a Hhit). reflexivity. Qed.

Lemma on_mcp_state {A} (m : Eff MCPClient A) (s : Server) :
  (on_mcp m s).2 = set_mcpClient (m (mcpClient s)).2 s.
Proof. unfold on_mcp. destruct (m (mcpClient s)). reflexivity. Qed.

Lemma eviction_check_other (u u' : string) (s : Server) :
  u' <> u ->
  chatEngines (eviction_check u' s) !! u = chatEngines s !! u
  /\ lastActivityTimes (eviction_check u' s) !! u = lastActivityTimes s !! u.
Proof.
  intros Hne. unfold eviction_check.
  destruct (idle_threshold <=? _)%Z; simpl; [| auto].
  rewrite !lookup_delete_ne by exact Hne. auto.
Qed.

Lemma eviction_check_clock (u : string) (s : Server) :
  clock (eviction_check u s) = clock s.
Proof. unfold eviction_check. destruct (idle_threshold <=? _)%Z; reflexivity. Qed.

(** What the callback does, by the idle time it observes. *)
Lemma eviction_check_idle (u : string) (s : Server) (l : Z) :
  lastActivityTimes s !! u = Some l ->
  (idle_threshold <= clock s - l)%Z ->
  chatEngines (eviction_check u s) !! u = None
  /\ lastActivityTimes (eviction_check u s) !! u = None.
Proof.
  intros Hl Hidle. unfold eviction_check. rewrite Hl. simpl.
  rewrite (proj2 (Z.leb_le _ _)) by exact Hidle. simpl.
  rewrite !lookup_delete_eq. auto.
Qed.

Lemma eviction_check_active (u : string) (s : Server) (l : Z) :
  lastActivityTimes s !! u = Some l ->
  (clock s - l < idle_threshold)%Z ->
  eviction_check u s = s.
Proof.
  intros Hl Hidle. unfold eviction_check. rewrite Hl. simpl.
  rewrite (proj2 (Z.leb_gt _ _)) by exact Hidle. reflexivity.
Qed.

Lemma eviction_check_absent (u : string) (s : Server) :
  chatEngines s !! u = None -> lastActivityTimes s !! u = None ->
  chatEngines (eviction_check u s) !! u = None
  /\ lastActivityTimes (eviction_check u s) !! u = None.
Proof.
  intros Hc Hl. unfold eviction_check.
  destruct (idle_threshold <=? _)%Z; simpl; [| auto].
  rewrite !lookup_delete_eq. auto.
Qed.

Lemma step_clock (s s' : Server) (ev : Event) :
  step s ev = Some s' -> (clock s <= clock s')%Z.
Proof.
  destruct ev as [dt | tm | w u | p | p names | p]; simpl.
  - destruct (0 <=? dt)%Z eqn:Hdt; [| discriminate].
    intros [= <-]. simpl. apply Z.leb_le in Hdt. lia.
  - destruct (decide (tm ∈ timers s)); [| discriminate].
    destruct (due tm <=? clock s)%Z; [| discriminate].
    intros [= <-]. rewrite eviction_check_clock. simpl. lia.
  - intros [= <-]. rewrite access_clock. lia.
  - intros [= <-]. rewrite on_mcp_state. simpl. lia.
  - intros [= <-]. rewrite on_mcp_state. simpl. lia.
  - intros [= <-]. rewrite on_mcp_state. simpl. lia.
Qed.

Lemma run_clock (evs : list Event) (s s' : Server) :
  run s evs = Some s' -> (clock s <= clock s')%Z.
Proof.
  revert s. induction evs as [| ev evs IH]; intros s; simpl.
  - intros [= <-]. lia.
  - destruct (step s ev) as [s1 |] eqn:Hs; [| discriminate].
    intros Hrun. apply step_clock in Hs. apply IH in Hrun. lia.
Qed.

(** An event that is neither an access nor a check of [u] leaves the
    session of [u] alone. *)
Lemma step_frame (u : string) (s s' : Server) (ev : Event) :
  step s ev = Some s' ->
  accesses u ev = false -> checks u ev = false ->
  chatEngines s' !! u = chatEngines s !! u
  /\ lastActivityTimes s' !! u = lastActivityTimes s !! u.
Proof.
  destruct ev as [dt | tm | w u' | p | p names | p]; simpl.
  - destruct (0 <=? dt)%Z; [| discriminate]. intros [= <-]. auto.
  - destruct (decide (tm ∈ timers s)); [| discriminate].
    destruct (due tm <=? clock s)%Z; [| discriminate].
    intros [= <-] _ Hchk. apply bool_decide_eq_false in Hchk.
    apply (eviction_check_other u (timer_user tm)
             (set_timers (remove_first tm (timers s)) s) Hchk).
  - intros [= <-] Hacc _. apply bool_decide_eq_false in Hacc.
    apply access_other. exact Hacc.
  - intros [= <-] _ _. rewrite on_mcp_state. auto.
  - intros [= <-] _ _. rewrite on_mcp_state. auto.
  - intros [= <-] _ _. rewrite on_mcp_state. auto.
Qed.

(** The state in which the callback of a firing timer runs. *)
Lemma step_check (s s' : Server) (tm : Timer) :
  step s (TimerFires tm) = Some s' ->
  s' = eviction_check (timer_user tm) (set_timers (remove_first tm (timers s)) s).
Proof.
  simpl. destruct (decide (tm ∈ timers s)); [| discriminate].
  destruct (due tm <=? clock s)%Z; [| discriminate]. intros [= <-]. reflexivity.
Qed.

End LoopFacts.

(** ** Invariants of the cache *)

Section Invariants.

Lemma maps_agree_access (w : World) (u : string) (s : Server) :
  maps_agree s -> maps_agree (getChatEngine w u s).2.
Proof.
  unfold maps_agree. intros Hinv.
  destruct (prepared_frame w s) as (Hce & Hla & _).
  destruct (getChatEngine_cases w u s)
    as [(a & Hu & ->) | [(q & _ & ->) | (e & _ & ->)]]; simpl.
  - rewrite dom_insert_L, <- Hinv.
    assert (Hin : u ∈ dom (chatEngines s)) by (apply elem_of_dom; eauto).
    revert Hin. generalize (dom (chatEngines s)). intros D Hin.
    apply set_eq. intros x. rewrite elem_of_union, elem_of_singleton.
    split; [auto | intros [-> | Hx]; assumption].
  - rewrite !dom_insert_L, Hce, Hla, Hinv. reflexivity.
  - exact Hinv.
Qed.

Lemma maps_agree_check (u : string) (s : Server) :
  maps_agree s -> maps_agree (eviction_check u s).
Proof.
  unfold maps_agree, eviction_check. intros Hinv.
  destruct (idle_threshold <=? _)%Z; simpl; [| exact Hinv].
  rewrite !dom_delete_L, Hinv. reflexivity.
Qed.

Lemma maps_agree_step (s s' : Server) (ev : Event) :
  step s ev = Some s' -> maps_agree s -> maps_agree s'.
Proof.
  destruct ev as [dt | tm | w u | p | p names | p]; simpl.
  - destruct (0 <=? dt)%Z; [| discriminate]. intros [= <-]. auto.
  - destruct (decide (tm ∈ timers s)); [| discriminate].
    destruct (due tm <=? clock s)%Z; [| discriminate].
    intros [= <-] Hinv. apply maps_agree_check. exact Hinv.
  - intros [= <-]. apply maps_agree_access.
  - intros [= <-]. rewrite on_mcp_state. auto.
  - intros [= <-]. rewrite on_mcp_state. auto.
  - intros [= <-]. rewrite on_mcp_state. auto.
Qed.

Lemma refs_below_access (w : World) (u : string) (s : Server) :
  refs_below s -> refs_below (getChatEngine w u s).2.
Proof.
  unfold refs_below. intros Hinv u' a'.
  destruct (prepared_frame w s) as (Hce & _ & _ & _ & Hn & _).
  destruct (getChatEngine_cases w u s)
    as [(a & Hu & ->) | [(q & _ & ->) | (e & _ & ->)]]; simpl.
  - apply Hinv.
  - rewrite Hce, Hn. destruct (decide (u = u')) as [-> | Hne].
    + rewrite lookup_insert_eq. intros [= <-]. simpl. lia.
    + rewrite lookup_insert_ne by exact Hne. intros Hu'.
      apply Hinv in Hu'. lia.
  - apply Hinv.
Qed.

Lemma refs_below_check (u : string) (s : Server) :
  refs_below s -> refs_below (eviction_check u s).
Proof.
  unfold refs_below, eviction_check. intros Hinv u' a'.
  destruct (idle_threshold <=? _)%Z; simpl; [| apply Hinv].
  intros Hu'. apply lookup_delete_Some in Hu' as [_ Hu']. eapply Hinv; eauto.
Qed.

Lemma refs_below_step (s s' : Server) (ev : Event) :
  step s ev = Some s' -> refs_below s -> refs_below s'.
Proof.
  destruct ev as [dt | tm | w u | p | p names | p]; simpl.
  - destruct (0 <=? dt)%Z; [| discriminate]. intros [= <-]. auto.
  - destruct (decide (tm ∈ timers s)); [| discriminate].
    destruct (due tm <=? clock s)%Z; [| discriminate].
    intros [= <-] Hinv.
    apply (refs_below_check _ (set_timers (remove_first tm (timers s)) s)).
    exact Hinv.
  - intros [= <-]. apply refs_below_access.
  - intros [= <-]. rewrite on_mcp_state. auto.
  - intros [= <-]. rewrite on_mcp_state. auto.
  - intros [= <-]. rewrite on_mcp_state. auto.
Qed.

Lemma run_invariant (P : Server -> Prop) :
  (forall s s' ev, step s ev = Some s' -> P s -> P s') ->
  forall evs s s', run s evs = Some s' -> P s -> P s'.
Proof.
  intros Hstep. induction evs as [| ev evs IH]; intros s s'; simpl.
  - intros [= <-]. auto.
  - destruct (step s ev) as [s1 |] eqn:Hs; [| discriminate].
    intros Hrun HP. eapply IH; eauto.
Qed.

(** The channel of a running server is always well formed. *)
Lemma channel_well_formed_step (s s' : Server) (ev : Event) :
  step s ev = Some s' -> well_formed (mcpClient s) -> well_formed (mcpClient s').
Proof.
  destruct ev as [dt | tm | w u | p | p names | p]; simpl.
  - destruct (0 <=? dt)%Z; [| discriminate]. intros [= <-]. auto.
  - destruct (decide (tm ∈ timers s)); [| discriminate].
    destruct (due tm <=? clock s)%Z; [| discriminate].
    intros [= <-]. unfold eviction_check.
    destruct (idle_threshold <=? _)%Z; auto.
  - intros [= <-] Hwf.
    assert (Hprep : well_formed (mcpClient (prepared w s))).
    { unfold prepared, initializeEngine.
      destruct (queryEngineTool s); [| destruct (index_load w)]; simpl;
        (destruct (isReady (mcpClient s)); simpl;
         [exact Hwf | apply connect_well_formed; exact Hwf]). }
    destruct (getChatEngine_cases w u s)
      as [(a & _ & ->) | [(q & _ & ->) | (e & _ & ->)]]; simpl; auto.
  - intros [= <-] Hwf. rewrite on_mcp_state. simpl.
    apply list_components_call_well_formed. exact Hwf.
  - intros [= <-] Hwf. rewrite on_mcp_state. simpl.
    apply get_component_props_call_well_formed. exact Hwf.
  - intros [= <-] Hwf. rewrite on_mcp_state. simpl.
    apply disconnect_well_formed. exact Hwf.
Qed.

Lemma reachable_well_formed (s : Server) :
  reachable s -> well_formed (mcpClient s).
Proof.
  intros (t0 & evs & Hrun).
  apply (run_invariant (fun s => well_formed (mcpClient s))
           channel_well_formed_step evs (boot t0) s Hrun).
  apply well_formed_fresh.
Qed.

Lemma reachable_refs_below (s : Server) : reachable s -> refs_below s.
Proof.
  intros (t0 & evs & Hrun).
  apply (run_invariant refs_below refs_below_step evs (boot t0) s Hrun).
  intros u a. simpl. rewrite lookup_empty. discriminate.
Qed.

End Invariants.

(** C9: in every state the server reaches, the agent map and the
    last-activity map have the same set of session ids; each call of
    [getChatEngine] and each eviction callback keeps it so. *)
Theorem cache_maps_agree (t0 : Z) (evs : list Event) (s : Server) :
  run (boot t0) evs = Some s ->
  dom (chatEngines s) = dom (lastActivityTimes s)
  /\ (forall w u, maps_agree (getChatEngine w u s).2)
  /\ (forall u, maps_agree (eviction_check u s)).
Proof.
  intros Hrun.
  assert (Hinv : maps_agree s).
  { apply (run_invariant maps_agree maps_agree_step evs (boot t0) s Hrun).
    unfold maps_agree. simpl. rewrite !dom_empty_L. reflexivity. }
  split; [exact Hinv |]. split.
  - intros w u. apply maps_agree_access. exact Hinv.
  - intros u. apply maps_agree_check. exact Hinv.
Qed.

Lemma cache_maps_agree_witness :
  dom (chatEngines (Scenario.final [Access Scenario.healthy Scenario.alice;
                                    Elapse 600000;
                                    TimerFires Scenario.first_check]))
  = dom (lastActivityTimes
           (Scenario.final [Access Scenario.healthy Scenario.alice;
                            Elapse 600000;
                            TimerFires Scenario.first_check])).
Proof.
  destruct (cache_maps_agree 0 [Access Scenario.healthy Scenario.alice;
                                Elapse 600000;
                                TimerFires Scenario.first_check]
              (Scenario.final [Access Scenario.healthy Scenario.alice;
                               Elapse 600000;
                               TimerFires Scenario.first_check]))
    as [Hdom _].
  - vm_compute. reflexivity.
  - exact Hdom.
Defined.

(** ** Creation and reuse *)

Lemma kept_without_eviction (u : string) (a : OpenAIAgent) (evs : list Event) :
  forall s s', run s evs = Some s' -> no_eviction u s evs ->
               chatEngines s !! u = Some a -> chatEngines s' !! u = Some a.
Proof.
  induction evs as [| ev evs IH]; intros s s'; simpl.
  - intros [= <-] _ Hu. exact Hu.
  - destruct (step s ev) as [s1 |] eqn:Hs; [| discriminate].
    intros Hrun [Hne Hrest] Hu. apply (IH s1 s' Hrun Hrest).
    unfold evicts in Hne.
    destruct (accesses u ev) eqn:Hacc.
    { destruct ev; try discriminate. apply bool_decide_eq_true in Hacc. subst.
      simpl in Hs. injection Hs as <-.
      rewrite (getChatEngine_hit _ _ _ _ Hu). simpl. exact Hu. }
    destruct (checks u ev) eqn:Hchk.
    { destruct ev as [| tm | | | |]; try discriminate.
      apply bool_decide_eq_true in Hchk. simpl in Hne.
      apply step_check in Hs. subst s1. rewrite Hchk.
      unfold eviction_check. simpl. rewrite Hne. exact Hu. }
    destruct (step_frame u s s1 ev Hs Hacc Hchk) as [-> _]. exact Hu.
Qed.

(** ** Degraded construction *)

(** C3, the part the code does not do: when the connect attempt made
    while creating an agent fails, [getChatEngine] still returns an agent,
    but its tool list is the retrieval tool followed by both remote
    adapters, not the retrieval tool alone. *)
Theorem degraded_agent_keeps_remote_tools (w : World) (u : string) (s : Server)
  (e : Thrown) :
  index_available w s ->
  chatEngines s !! u = None ->
  isReady (mcpClient s) = false ->
  handshake (peer w) = Some e ->
  exists q s',
    getChatEngine w u s
    = (Ok (Some {| agent_ref := constructed s;
                   tools := [Retrieval q; Remote ListComponentsTool;
                             Remote GetComponentPropsTool] |}), s')
    /\ [Retrieval q; Remote ListComponentsTool; Remote GetComponentPropsTool]
       <> [Retrieval q]
    /\ isReady (mcpClient s') = false.
Proof.
  intros Hav Hmiss Hready Hh.
  destruct (prepared_index w s Hav) as [q Hq].
  exists q. eexists. split; [apply (getChatEngine_miss w u s q Hmiss Hq Hav) |].
  split; [discriminate |]. simpl.
  unfold prepared, initializeEngine.
  assert (Hoff : forall s1, mcpClient s1 = mcpClient s ->
            isReady (mcpClient (if isReady (mcpClient s1) then s1
                                else set_mcpClient
                                       (connect (peer w) (mcpClient s1)).2 s1))
            = false).
  { intros s1 Hs1. rewrite Hs1, Hready. simpl.
    apply (connect_fails (peer w) (mcpClient s) e Hready Hh). }
  destruct (queryEngineTool s); [apply Hoff; reflexivity |].
  destruct (index_load w); apply Hoff; reflexivity.
Qed.

Lemma degraded_agent_keeps_remote_tools_witness :
  exists q s',
    getChatEngine Scenario.degraded Scenario.alice (boot 0)
    = (Ok (Some {| agent_ref := 0;
                   tools := [Retrieval q; Remote ListComponentsTool;
                             Remote GetComponentPropsTool] |}), s').
Proof.
  destruct (degraded_agent_keeps_remote_tools Scenario.degraded Scenario.alice
              (boot 0) (ErrorObj "spawn node ENOENT"))
    as (q & s' & Hcall & _).
  - right. reflexivity.
  - apply lookup_empty.
  - reflexivity.
  - reflexivity.
  - exists q, s'. exact Hcall.
Defined.

(** ** Idle eviction *)

(** What a successful access leaves behind. *)
Lemma access_result (w : World) (u : string) (a : OpenAIAgent) (s0 s1 : Server) :
  getChatEngine w u s0 = (Ok (Some a), s1) ->
  chatEngines s1 !! u = Some a
  /\ lastActivityTimes s1 !! u = Some (clock s0)
  /\ clock s1 = clock s0.
Proof.
  intros Hcall.
  destruct (prepared_frame w s0) as (_ & _ & _ & Hclk & Hn & _).
  destruct (getChatEngine_cases w u s0)
    as [(a' & Hu & He) | [(q & _ & He) | (e & _ & He)]];
    rewrite He in Hcall; [| | discriminate].
  - injection Hcall as <- <-. simpl. rewrite lookup_insert_eq. auto.
  - injection Hcall as <- <-. simpl. rewrite !lookup_insert_eq, Hclk, Hn. auto.
Qed.

(** After an access at time [t0] that is never repeated, the session is
    either still cached with that timestamp, or gone, which only happens
    once the threshold has passed. *)
Lemma lone_access_invariant (u : string) (a : OpenAIAgent) (t0 : Z)
  (evs : list Event) :
  forall s s',
    run s evs = Some s' -> never_accessed u evs ->
    (chatEngines s !! u = Some a /\ lastActivityTimes s !! u = Some t0)
    \/ (chatEngines s !! u = None /\ lastActivityTimes s !! u = None
        /\ (t0 + idle_threshold <= clock s)%Z) ->
    (chatEngines s' !! u = Some a /\ lastActivityTimes s' !! u = Some t0)
    \/ (chatEngines s' !! u = None /\ lastActivityTimes s' !! u = None
        /\ (t0 + idle_threshold <= clock s')%Z).
Proof.
  induction evs as [| ev evs IH]; intros s s'; simpl.
  - intros [= <-] _ H. exact H.
  - destruct (step s ev) as [s1 |] eqn:Hs; [| discriminate].
    intros Hrun Hnever Hinv. inversion Hnever as [| ? ? Hacc Hrest]; subst.
    apply (IH s1 s' Hrun Hrest). clear IH Hrun Hrest Hnever.
    pose proof (step_clock s s1 ev Hs) as Hclk.
    destruct (checks u ev) eqn:Hchk.
    + destruct ev as [| tm | | | |]; try discriminate.
      apply bool_decide_eq_true in Hchk.
      apply step_check in Hs. rewrite Hchk in Hs.
      set (s2 := set_timers (remove_first tm (timers s)) s) in *.
      destruct Hinv as [[Hc Hl] | (Hc & Hl & Ht)].
      * destruct (Z_lt_le_dec (clock s2 - t0) idle_threshold) as [Hlt | Hge].
        -- left. rewrite Hs, (eviction_check_active u s2 t0 Hl Hlt). auto.
        -- right. rewrite Hs.
           destruct (eviction_check_idle u s2 t0 Hl Hge) as [H1 H2].
           rewrite eviction_check_clock. simpl in *. repeat split; auto. lia.
      * right. rewrite Hs.
        destruct (eviction_check_absent u s2 Hc Hl) as [H1 H2].
        rewrite eviction_check_clock. simpl. auto.
    + destruct (step_frame u s s1 ev Hs Hacc Hchk) as [-> ->].
      destruct Hinv as [? | (? & ? & ?)]; [left; auto | right].
      repeat split; auto. lia.
Qed.

(** C2: a session is accessed at [clock s0] and never again.  Whenever
    one of its eviction checks fires afterwards, the check removes the
    session if the threshold has elapsed since the access, and leaves it
    cached (same agent) if less has elapsed; so the session is absent
    after every check at or past the threshold and present after every
    earlier one. *)
Theorem idle_eviction (w : World) (u : string) (a : OpenAIAgent)
  (s0 s1 s s' : Server) (evs : list Event) (tm : Timer) :
  getChatEngine w u s0 = (Ok (Some a), s1) ->
  never_accessed u evs ->
  run s1 evs = Some s ->
  timer_user tm = u ->
  step s (TimerFires tm) = Some s' ->
  ((idle_threshold <= clock s - clock s0)%Z ->
   chatEngines s' !! u = None /\ lastActivityTimes s' !! u = None)
  /\ ((clock s - clock s0 < idle_threshold)%Z ->
      chatEngines s' !! u = Some a
      /\ lastActivityTimes s' !! u = Some (clock s0)).
Proof.
  intros Hcall Hnever Hrun Htm Hfire.
  assert (Hstart : chatEngines s1 !! u = Some a
                   /\ lastActivityTimes s1 !! u = Some (clock s0)).
  { destruct (access_result w u a s0 s1 Hcall) as (H1 & H2 & _). auto. }
  pose proof (lone_access_invariant u a (clock s0) evs s1 s Hrun Hnever
                (or_introl Hstart)) as Hinv.
  apply step_check in Hfire. rewrite Htm in Hfire.
  set (s2 := set_timers (remove_first tm (timers s)) s) in *.
  split.
  - intros Hidle. rewrite Hfire.
    destruct Hinv as [[Hc Hl] | (Hc & Hl & _)].
    + apply (eviction_check_idle u s2 (clock s0) Hl Hidle).
    + apply (eviction_check_absent u s2 Hc Hl).
  - intros Hidle. rewrite Hfire.
    destruct Hinv as [[Hc Hl] | (_ & _ & Ht)]; [| lia].
    rewrite (eviction_check_active u s2 (clock s0) Hl Hidle). auto.
Qed.

Lemma idle_eviction_witness :
  chatEngines (Scenario.final [Access Scenario.healthy Scenario.alice;
                               Elapse 600000;
                               TimerFires Scenario.first_check]) !! Scenario.alice
  = None
  /\ chatEngines (Scenario.final [Access Scenario.healthy Scenario.alice;
                                  Elapse 599999;
                                  TimerFires Scenario.first_check]) !! Scenario.alice
     = Some Scenario.first_agent.
Proof.
  split.
  - refine (proj1 (proj1 (idle_eviction Scenario.healthy Scenario.alice
             Scenario.first_agent (boot 0)
             (Scenario.final [Access Scenario.healthy Scenario.alice])
             (Scenario.final [Access Scenario.healthy Scenario.alice; Elapse 600000])
             _ [Elapse 600000] Scenario.first_check _ _ _ _ _) _)).
    + vm_compute. reflexivity.
    + repeat constructor.
    + vm_compute. reflexivity.
    + reflexivity.
    + vm_compute. reflexivity.
    + vm_compute. discriminate.
  - refine (proj1 (proj2 (idle_eviction Scenario.healthy Scenario.alice
             Scenario.first_agent (boot 0)
             (Scenario.final [Access Scenario.healthy Scenario.alice])
             (Scenario.final [Access Scenario.healthy Scenario.alice; Elapse 599999])
             _ [Elapse 599999] Scenario.first_check _ _ _ _ _) _)).
    + vm_compute. reflexivity.
    + repeat constructor.
    + vm_compute. reflexivity.
    + reflexivity.
    + vm_compute. reflexivity.
    + vm_compute. reflexivity.
Defined.

(** *** Sessions without a pending check *)

Lemma access_timers (w : World) (u : string) (s : Server) (tm : Timer) :
  tm ∈ timers (getChatEngine w u s).2 -> tm ∈ timers s \/ timer_user tm = u.
Proof.
  destruct (prepared_frame w s) as (_ & _ & Ht & _).
  destruct (getChatEngine_cases w u s)
    as [(a & _ & ->) | [(q & _ & ->) | (e & _ & ->)]]; simpl; auto.
  - intros Hin. apply elem_of_app in Hin as [Hin | Hin]; [auto |].
    apply list_elem_of_singleton in Hin. subst. auto.
  - rewrite Ht. intros Hin. apply elem_of_app in Hin as [Hin | Hin]; [auto |].
    apply list_elem_of_singleton in Hin. subst. auto.
Qed.

Lemma remove_first_subset (tm x : Timer) (l : list Timer) :
  x ∈ remove_first tm l -> x ∈ l.
Proof.
  induction l as [| y l IH]; simpl; [auto |].
  destruct (decide (y = tm)).
  - intros Hin. apply elem_of_cons. auto.
  - intros Hin. apply elem_of_cons in Hin as [-> | Hin];
      apply elem_of_cons; auto.
Qed.

Lemma eviction_check_timers (u : string) (s : Server) :
  timers (eviction_check u s) = timers s.
Proof. unfold eviction_check. destruct (idle_threshold <=? _)%Z; reflexivity. Qed.

(** Checks are scheduled by accesses only: a session that has no check
    pending and is not accessed again is never evicted. *)
Lemma unchecked_session_stays (u : string) (a : OpenAIAgent) (evs : list Event) :
  forall s s',
    run s evs = Some s' -> never_accessed u evs ->
    (forall tm, tm ∈ timers s -> timer_user tm <> u) ->
    chatEngines s !! u = Some a ->
    chatEngines s' !! u = Some a.
Proof.
  induction evs as [| ev evs IH]; intros s s'; simpl.
  - intros [= <-] _ _ Hc. exact Hc.
  - destruct (step s ev) as [s1 |] eqn:Hs; [| discriminate].
    intros Hrun Hnever Hnone Hc. inversion Hnever as [| ? ? Hacc Hrest]; subst.
    assert (Hchk : checks u ev = false).
    { destruct ev as [| tm | | | |]; try reflexivity. simpl in *.
      destruct (decide (tm ∈ timers s)) as [Hin |]; [| discriminate].
      apply bool_decide_eq_false. apply Hnone. exact Hin. }
    destruct (step_frame u s s1 ev Hs Hacc Hchk) as [Hc1 _].
    apply (IH s1 s' Hrun Hrest); [| rewrite Hc1; exact Hc].
    intros tm Hin.
    destruct ev as [dt | tm' | w u' | p | p names | p]; simpl in Hs.
    + destruct (0 <=? dt)%Z; [| discriminate]. injection Hs as <-. auto.
    + destruct (decide (tm' ∈ timers s)); [| discriminate].
      destruct (due tm' <=? clock s)%Z; [| discriminate]. injection Hs as <-.
      rewrite eviction_check_timers in Hin. simpl in Hin.
      apply remove_first_subset in Hin. auto.
    + injection Hs as <-. apply access_timers in Hin as [Hin | Hin]; [auto |].
      simpl in Hacc. apply bool_decide_eq_false in Hacc. congruence.
    + injection Hs as <-. rewrite on_mcp_state in Hin. auto.
    + injection Hs as <-. rewrite on_mcp_state in Hin. auto.
    + injection Hs as <-. rewrite on_mcp_state in Hin. auto.
Qed.

(** One access, its check fired on time, then a day without activity:
    the session is still cached. *)
Example single_access_checked_on_time :
  chatEngines (Scenario.final [Access Scenario.healthy Scenario.alice;
                               Elapse 300000;
                               TimerFires Scenario.first_check;
                               Elapse 86400000]) !! Scenario.alice
  = Some Scenario.first_agent
  /\ timers (Scenario.final [Access Scenario.healthy Scenario.alice;
                             Elapse 300000;
                             TimerFires Scenario.first_check;
                             Elapse 86400000]) = [].
Proof. split; vm_compute; reflexivity. Qed.

(** ** Re-access *)

(** While the clock stays below [lo + idle_threshold], a session whose
    last activity is at [lo] or later is kept, whatever happens. *)
Lemma kept_while_fresh (u : string) (a : OpenAIAgent) (lo : Z)
  (evs : list Event) :
  forall s s',
    run s evs = Some s' ->
    (clock s' < lo + idle_threshold)%Z ->
    (lo <= clock s)%Z ->
    chatEngines s !! u = Some a ->
    (exists l, lastActivityTimes s !! u = Some l /\ (lo <= l)%Z) ->
    chatEngines s' !! u = Some a
    /\ exists l, lastActivityTimes s' !! u = Some l /\ (lo <= l)%Z.
Proof.
  induction evs as [| ev evs IH]; intros s s'; simpl.
  - intros [= <-] _ _ Hc Hl. auto.
  - destruct (step s ev) as [s1 |] eqn:Hs; [| discriminate].
    intros Hrun Hend Hlo Hc (l & Hl & Hle).
    pose proof (step_clock s s1 ev Hs) as Hclk.
    pose proof (run_clock evs s1 s' Hrun) as Hclk'.
    apply (IH s1 s' Hrun Hend); [lia | |]; clear IH Hrun.
    + destruct (accesses u ev) eqn:Hacc.
      { destruct ev; try discriminate. apply bool_decide_eq_true in Hacc. subst.
        simpl in Hs. injection Hs as <-.
        rewrite (getChatEngine_hit _ _ _ _ Hc). exact Hc. }
      destruct (checks u ev) eqn:Hchk.
      { destruct ev as [| tm | | | |]; try discriminate.
        apply bool_decide_eq_true in Hchk.
        apply step_check in Hs. rewrite Hchk in Hs. rewrite Hs.
        rewrite (eviction_check_active u _ l); [exact Hc | exact Hl |].
        simpl. lia. }
      destruct (step_frame u s s1 ev Hs Hacc Hchk) as [-> _]. exact Hc.
    + destruct (accesses u ev) eqn:Hacc.
      { destruct ev; try discriminate. apply bool_decide_eq_true in Hacc. subst.
        simpl in Hs. injection Hs as <-.
        rewrite (getChatEngine_hit _ _ _ _ Hc). simpl.
        rewrite lookup_insert_eq. eauto. }
      destruct (checks u ev) eqn:Hchk.
      { destruct ev as [| tm | | | |]; try discriminate.
        apply bool_decide_eq_true in Hchk.
        apply step_check in Hs. rewrite Hchk in Hs. rewrite Hs.
        rewrite (eviction_check_active u _ l); [eauto | exact Hl |].
        simpl. lia. }
      destruct (step_frame u s s1 ev Hs Hacc Hchk) as [_ ->]. eauto.
Qed.

(** C4: a session accessed at [clock s0] and again at
    [clock s0 + T - eps], with [0 < eps < T - D], is still cached, with
    the agent of the first access, at [clock s0 + T + eps / 2]; whatever
    checks fire in between, including those scheduled by the first access,
    none evicts it. *)
Theorem reaccess_resets_idleness (w1 w2 : World) (u : string) (a : OpenAIAgent)
  (s0 s1 s2 s3 s4 : Server) (r : Res (option OpenAIAgent))
  (evs1 evs2 : list Event) (eps : Z) :
  (0 < eps < idle_threshold - check_delay)%Z ->
  getChatEngine w1 u s0 = (Ok (Some a), s1) ->
  run s1 evs1 = Some s2 ->
  clock s2 = (clock s0 + idle_threshold - eps)%Z ->
  getChatEngine w2 u s2 = (r, s3) ->
  run s3 evs2 = Some s4 ->
  clock s4 = (clock s0 + idle_threshold + eps / 2)%Z ->
  r = Ok (Some a) /\ chatEngines s4 !! u = Some a.
Proof.
  intros Heps Hcall1 Hrun1 Hclk2 Hcall2 Hrun2 Hclk4.
  unfold idle_threshold, check_delay in Heps.
  destruct (access_result w1 u a s0 s1 Hcall1) as (Hc1 & Hl1 & Hk1).
  destruct (kept_while_fresh u a (clock s0) evs1 s1 s2 Hrun1) as [Hc2 _];
    [unfold idle_threshold in *; lia | lia | exact Hc1 | eauto with lia |].
  rewrite (getChatEngine_hit w2 u s2 a Hc2) in Hcall2.
  injection Hcall2 as <- <-. split; [reflexivity |].
  destruct (kept_while_fresh u a (clock s2) evs2
              (schedule_check u (touch u s2)) s4 Hrun2) as [Hc4 _]; simpl.
  - rewrite Hclk4, Hclk2. unfold idle_threshold.
    assert (eps / 2 <= eps)%Z by (apply Z.div_le_upper_bound; lia). lia.
  - lia.
  - exact Hc2.
  - rewrite lookup_insert_eq. eauto with lia.
  - exact Hc4.
Qed.

Lemma reaccess_resets_idleness_witness :
  chatEngines (Scenario.final [Access Scenario.healthy Scenario.alice;
                               Elapse 540000;
                               Access Scenario.degraded Scenario.alice;
                               Elapse 90000;
                               TimerFires Scenario.first_check]) !! Scenario.alice
  = Some Scenario.first_agent.
Proof.
  refine (proj2 (reaccess_resets_idleness Scenario.healthy Scenario.degraded
            Scenario.alice Scenario.first_agent (boot 0)
            (Scenario.final [Access Scenario.healthy Scenario.alice])
            (Scenario.final [Access Scenario.healthy Scenario.alice; Elapse 540000])
            (Scenario.final [Access Scenario.healthy Scenario.alice; Elapse 540000;
                             Access Scenario.degraded Scenario.alice])
            _ (Ok (Some Scenario.first_agent))
            [Elapse 540000] [Elapse 90000; TimerFires Scenario.first_check]
            60000 _ _ _ _ _ _ _)).
  - vm_compute. split; reflexivity.
  - vm_compute. reflexivity.
  - vm_compute. reflexivity.
  - vm_compute. reflexivity.
  - vm_compute. reflexivity.
  - vm_compute. reflexivity.
  - vm_compute. reflexivity.
Defined.

(** ** Routes *)

Lemma access_dispatched (w : World) (u : string) (s : Server) :
  dispatched (getChatEngine w u s).2 = dispatched s.
Proof.
  destruct (prepared_frame w s) as (_ & _ & _ & _ & _ & Hd).
  destruct (getChatEngine_cases w u s)
    as [(a & _ & ->) | [(q & _ & ->) | (e & _ & ->)]]; simpl; auto.
Qed.

(** Entering the dispatcher is recorded, whatever happens next. *)
Lemma queryIndex_dispatched (w : World) (query u : string) (s : Server) :
  dispatched (queryIndex w query u s).2 = S (dispatched s).
Proof.
  unfold queryIndex, with_agent. eff_unfold.
  pose proof (access_dispatched w u (count_dispatch s)) as Hd.
  destruct (getChatEngine w u (count_dispatch s)) as [[[a |] | e] s1]; simpl in *;
    exact Hd.
Qed.

Lemma streamQueryIndex_dispatched (w : World) (query u : string) (s : Server) :
  dispatched (streamQueryIndex w query u s).2 = S (dispatched s).
Proof.
  unfold streamQueryIndex, with_agent. eff_unfold.
  pose proof (access_dispatched w u (count_dispatch s)) as Hd.
  destruct (getChatEngine w u (count_dispatch s)) as [[[a |] | e] s1]; simpl in *;
    exact Hd.
Qed.

(** C7: a POST /query without X-User header is answered with status 400
    and leaves the whole server state as it was, so the dispatcher was
    not entered (entering it moves the [dispatched] counter); POST
    /stream-query is guarded in the same way. *)
Theorem missing_header_rejected (w : World) (req : Request) (s : Server) :
  x_user req = None ->
  post_query w req s = (Json 400 (BodyError "Missing X-User header"), s)
  /\ post_stream_query w req s = (Json 400 (BodyError "Missing X-User header"), s)
  /\ dispatched (post_query w req s).2 = dispatched s
  /\ dispatched (post_stream_query w req s).2 = dispatched s.
Proof.
  intros Hh. unfold post_query, post_stream_query. rewrite Hh. simpl. auto.
Qed.

Lemma missing_header_rejected_witness :
  (post_query Scenario.healthy (Scenario.anonymous "ping") (boot 0)).1
  = Json 400 (BodyError "Missing X-User header").
Proof.
  destruct (missing_header_rejected Scenario.healthy (Scenario.anonymous "ping")
              (boot 0)) as (Hq & _).
  - reflexivity.
  - rewrite Hq. reflexivity.
Defined.

Lemma length_append (a b : string) :
  String.length (a +:+ b) = (String.length a + String.length b)%nat.
Proof. induction a as [| c a IH]; simpl; [reflexivity | rewrite IH; reflexivity]. Qed.

Lemma substring_prefix (a b : string) :
  String.substring 0 (String.length a) (a +:+ b) = a.
Proof.
  induction a as [| c a IH]; simpl.
  - destruct b; reflexivity.
  - rewrite IH. reflexivity.
Qed.

Lemma frame_body_frame (response : string) : frame_body (frame response) = response.
Proof.
  unfold frame_body, frame.
  change ("data: " +:+ response +:+ newline +:+ newline)
    with (String "d" (String "a" (String "t" (String "a" (String ":" (String " "
            (response +:+ newline +:+ newline))))))).
  cbn [String.length String.substring].
  rewrite length_append.
  change (String.length (newline +:+ newline)) with 2%nat.
  match goal with
  | |- String.substring 0 ?n _ = _ =>
      replace n with (String.length response) by lia
  end.
  apply substring_prefix.
Qed.

Lemma frame_bodies (fragments : list string) :
  frame_body <$> (frame <$> fragments) = fragments.
Proof.
  induction fragments as [| c l IH]; [reflexivity |].
  rewrite !fmap_cons, frame_body_frame, IH. reflexivity.
Qed.

(** The dispatch counter is not read by the cache. *)
Lemma access_count_dispatch (w : World) (u : string) (s : Server) :
  getChatEngine w u (count_dispatch s)
  = ((getChatEngine w u s).1, count_dispatch (getChatEngine w u s).2).
Proof.
  unfold getChatEngine, create_agent, initializeEngine, on_mcp. eff_unfold. simpl.
  destruct (chatEngines s !! u) as [a |] eqn:Hu; simpl.
  - rewrite Hu. reflexivity.
  - destruct (queryEngineTool s) as [q0 |] eqn:Hq0; simpl.
    + rewrite Hq0. destruct (isReady (mcpClient s)); simpl.
      * rewrite !lookup_insert_eq. reflexivity.
      * destruct (connect (peer w) (mcpClient s)) as [[[] | e] c1]; simpl;
          rewrite !lookup_insert_eq; reflexivity.
    + destruct (index_load w); simpl; [reflexivity |].
      destruct (isReady (mcpClient s)); simpl.
      * rewrite !lookup_insert_eq. reflexivity.
      * destruct (connect (peer w) (mcpClient s)) as [[[] | e] c1]; simpl;
          rewrite !lookup_insert_eq; reflexivity.
Qed.

(** C8, as stated, fails: a model whose stream ends without a fragment
    gives the same (empty) output in both modes, and the streamed request
    succeeds without writing any frame. *)
Lemma stream_without_frames :
  same_output Scenario.silent
    {| agent_ref := 0;
       tools := [Retrieval {| qe_name := "druids_query_engine";
                              qe_description := "A query engine for the DRUIDS design system";
                              qe_similarityTopK := 3 |};
                 Remote ListComponentsTool; Remote GetComponentPropsTool] |}
    "ping" []
  /\ (post_stream_query Scenario.silent (Scenario.ask "ping") (boot 0)).1
     = EventStream []
  /\ (post_query Scenario.silent (Scenario.ask "ping") (boot 0)).1
     = Json 200 (BodyAnswer "").
Proof. split; [split; reflexivity |]. split; reflexivity. Qed.

(** C8 (amended): with a model that gives the same output in both modes,
    a POST /stream-query for a session whose agent is available writes
    exactly one [data:] frame per fragment of the model's stream, in
    order, and the concatenation of the frame bodies is the answer the
    non-streamed path returns for the same query; there is at least one
    frame whenever the stream has at least one fragment. *)
Theorem stream_matches_answer (w : World) (req : Request) (u : string)
  (s : Server) (a : OpenAIAgent) (chunks : list string) :
  x_user req = Some u -> u <> "" ->
  (getChatEngine w u s).1 = Ok (Some a) ->
  same_output w a (body_query req) chunks ->
  exists s',
    post_stream_query w req s = (EventStream (frame <$> chunks), s')
    /\ queryIndex w (body_query req) u s = (Ok (String.concat "" chunks), s')
    /\ String.concat "" (frame_body <$> (frame <$> chunks)) = String.concat "" chunks
    /\ length (frame <$> chunks) = length chunks
    /\ (chunks <> [] -> frame <$> chunks <> []).
Proof.
  intros Hh Hu Hget [Hstream Hfull].
  exists (count_dispatch (getChatEngine w u s).2).
  assert (Hpresent : missing (x_user req) = false).
  { rewrite Hh. simpl. apply String.eqb_neq. exact Hu. }
  split; [| split; [| split; [| split]]].
  - unfold post_stream_query, streamQueryIndex, with_agent. rewrite Hpresent, Hh.
    simpl. eff_unfold. simpl. rewrite access_count_dispatch, Hget. simpl.
    rewrite Hstream. reflexivity.
  - unfold queryIndex, with_agent. eff_unfold. simpl.
    rewrite access_count_dispatch, Hget. simpl. rewrite Hfull. reflexivity.
  - rewrite frame_bodies. reflexivity.
  - apply length_fmap.
  - destruct chunks; [congruence | discriminate].
Qed.

Lemma stream_matches_answer_witness :
  (post_stream_query Scenario.healthy (Scenario.ask "ping") (boot 0)).1
  = EventStream [frame "You asked: "; frame "ping"]
  /\ (queryIndex Scenario.healthy "ping" Scenario.alice (boot 0)).1
     = Ok "You asked: ping".
Proof.
  destruct (stream_matches_answer Scenario.healthy (Scenario.ask "ping")
              Scenario.alice (boot 0)
              {| agent_ref := 0;
                 tools := [Retrieval {| qe_name := "druids_query_engine";
                                        qe_description := "A query engine for the DRUIDS design system";
                                        qe_similarityTopK := 3 |};
                           Remote ListComponentsTool; Remote GetComponentPropsTool] |}
              ["You asked: "; "ping"])
    as (s' & Hstream & Hfull & _).
  - reflexivity.
  - discriminate.
  - reflexivity.
  - split; reflexivity.
  - split; [exact (f_equal fst Hstream) | exact (f_equal fst Hfull)].
Defined.

(** * Further properties *)

(** ** String methods *)

Section StringFacts.

Import JsString.

Lemma prefix_empty (s : string) : String.prefix EmptyString s = true.
Proof. destruct s; reflexivity. Qed.

Lemma prefix_append (pat s : string) : String.prefix pat (pat +:+ s) = true.
Proof.
  induction pat as [| a pat IH]; [apply prefix_empty |].
  change (String a pat +:+ s) with (String a (pat +:+ s)). simpl.
  destruct (ascii_dec a a); [exact IH | congruence].
Qed.

Lemma prefix_length (pat s : string) :
  String.prefix pat s = true ->
  (String.length (drop (String.length pat) s) + String.length pat)%nat
  = String.length s.
Proof.
  revert s. induction pat as [| a pat IH]; intros s.
  - intros _. simpl. lia.
  - destruct s as [| b s]; simpl; [discriminate |].
    destruct (ascii_dec a b); [| discriminate].
    intros Hp. apply IH in Hp. lia.
Qed.

Lemma drop_append (a b : string) : drop (String.length a) (a +:+ b) = b.
Proof. induction a as [| c a IH]; simpl; [reflexivity | exact IH]. Qed.

Lemma includes_append (pre pat post : string) :
  includes (pre +:+ pat +:+ post) pat = true.
Proof.
  induction pre as [| c pre IH].
  - change (EmptyString +:+ pat +:+ post) with (pat +:+ post).
    pose proof (prefix_append pat post) as Hp.
    destruct (pat +:+ post); cbn [includes]; rewrite Hp; reflexivity.
  - change (String c pre +:+ pat +:+ post) with (String c (pre +:+ pat +:+ post)).
    cbn [includes]. rewrite IH. apply orb_true_r.
Qed.

Lemma replace_absent (s pat rep : string) :
  includes s pat = false -> replace s pat rep = s.
Proof.
  induction s as [| c s IH]; cbn [includes replace].
  - intros H. apply orb_false_elim in H as [-> _]. reflexivity.
  - intros H. apply orb_false_elim in H as [-> H]. rewrite IH by exact H.
    reflexivity.
Qed.

(** The occurrence that is replaced is the leftmost one: a prefix that
    does not contain the first character of the pattern is kept. *)
Lemma replace_leftmost (pre post rep pat : string) (c : ascii) :
  includes pre (String c EmptyString) = false ->
  replace (pre +:+ String c pat +:+ post) (String c pat) rep
  = pre +:+ rep +:+ post.
Proof.
  induction pre as [| d pre IH]; intros Hpre.
  - change (EmptyString +:+ String c pat +:+ post) with (String c pat +:+ post).
    pose proof (prefix_append (String c pat) post) as Hp.
    pose proof (drop_append (String c pat) post) as Hd.
    change (String c pat +:+ post) with (String c (pat +:+ post)) in *.
    cbn [replace]. rewrite Hp, Hd. reflexivity.
  - cbn [includes] in Hpre. apply orb_false_elim in Hpre as [Hd Hpre].
    change (String d pre +:+ String c pat +:+ post)
      with (String d (pre +:+ String c pat +:+ post)).
    cbn [replace].
    assert (Hno : String.prefix (String c pat) (String d (pre +:+ String c pat +:+ post))
                  = false).
    { simpl in *. destruct (ascii_dec c d); [| reflexivity].
      rewrite prefix_empty in Hd. discriminate. }
    rewrite Hno, IH by exact Hpre. reflexivity.
Qed.

Lemma prefix_split (pat s : string) :
  String.prefix pat s = true -> s = pat +:+ drop (String.length pat) s.
Proof.
  revert s. induction pat as [| a pat IH]; intros s.
  - intros _. reflexivity.
  - destruct s as [| b s]; simpl; [discriminate |].
    destruct (ascii_dec a b) as [-> |]; [| discriminate].
    intros Hp. change (String b pat +:+ drop (String.length pat) s)
      with (String b (pat +:+ drop (String.length pat) s)).
    rewrite <- (IH s Hp). reflexivity.
Qed.

(** What [replace] does when the pattern occurs: the string splits around
    one occurrence, and that occurrence is what is replaced. *)
Lemma replace_split (s pat rep : string) :
  includes s pat = true ->
  exists pre post,
    s = pre +:+ pat +:+ post /\ replace s pat rep = pre +:+ rep +:+ post.
Proof.
  induction s as [| c s IH]; cbn [includes replace].
  - rewrite orb_false_r. intros Hp. rewrite Hp.
    exists EmptyString, (drop (String.length pat) EmptyString).
    split; [exact (prefix_split pat EmptyString Hp) | reflexivity].
  - destruct (String.prefix pat (String c s)) eqn:Hp.
    + intros _. exists EmptyString, (drop (String.length pat) (String c s)).
      split; [exact (prefix_split pat (String c s) Hp) | reflexivity].
    + rewrite orb_false_l. intros Hin.
      destruct (IH Hin) as (pre & post & Hs & Hr).
      exists (String c pre), post. rewrite Hr.
      split; [rewrite Hs at 1 |]; reflexivity.
Qed.

Lemma replace_length (s pat rep : string) :
  includes s pat = true ->
  (String.length (replace s pat rep) + String.length pat)%nat
  = (String.length s + String.length rep)%nat.
Proof.
  induction s as [| c s IH]; cbn [includes replace].
  - rewrite orb_false_r. intros Hp. rewrite Hp.
    rewrite length_append. pose proof (prefix_length pat EmptyString Hp) as H.
    lia.
  - destruct (String.prefix pat (String c s)) eqn:Hp.
    + intros _. rewrite length_append.
      pose proof (prefix_length pat (String c s) Hp) as H. lia.
    + rewrite orb_false_l. intros Hin. apply IH in Hin.
      cbn [String.length]. lia.
Qed.

End StringFacts.

(** ** The listing tool *)

Section ListingFacts.

Import JsString Listing McpServer.

Lemma is_component_spec (item : AppMapEntry) :
  is_component item = true
  <-> exists d, entry_destination item = Some d
                /\ includes d "/components/" = true.
Proof.
  unfold is_component. split.
  - destruct (entry_destination item) as [d |]; [| discriminate].
    intros H. apply andb_true_iff in H as [_ H]. eauto.
  - intros (d & -> & Hin). rewrite Hin, andb_true_r.
    destruct d; [discriminate | reflexivity].
Qed.

(** X1: the listing tool returns exactly the app-map entries whose
    destination contains "/components/", each turned into a component
    record, in the order of the app map; entries without a destination are
    never listed. *)
Theorem listing_selects_components (dir : string)
  (componentMap : list AppMapEntry) :
  exists r,
    listAvailableDruidsComponents dir (Ok componentMap) = Ok r
    /\ (forall c, c ∈ r <->
          exists item d, item ∈ componentMap
                         /\ entry_destination item = Some d
                         /\ includes d "/components/" = true
                         /\ c = to_available dir item)
    /\ sublist (ac_name <$> r) (entry_label <$> componentMap).
Proof.
  eexists. split; [reflexivity |]. split.
  - intros c. rewrite list_elem_of_fmap. split.
    + intros (item & -> & Hin). apply list_elem_of_filter in Hin as [Hc Hin].
      apply is_component_spec in Hc as (d & Hd & Hinc). eauto 10.
    + intros (item & d & Hin & Hd & Hinc & ->). exists item. split; [reflexivity |].
      apply list_elem_of_filter. split; [| exact Hin].
      apply is_component_spec. eauto.
  - rewrite <- list_fmap_compose.
    change (ac_name ∘ to_available dir) with entry_label.
    apply fmap_sublist. apply sublist_filter.
Qed.

(** X2: an entry whose destination is [pre ++ "/components/" ++ post],
    with no slash in [pre], is listed under the directory path
    [dir ++ pre ++ "/" ++ post]: only the leftmost "/components/" segment
    is collapsed. *)
Theorem listing_directory_path (dir pre post : string) (item : AppMapEntry)
  (componentMap : list AppMapEntry) :
  item ∈ componentMap ->
  entry_destination item = Some (pre +:+ "/components/" +:+ post) ->
  includes pre "/" = false ->
  exists r c,
    listAvailableDruidsComponents dir (Ok componentMap) = Ok r
    /\ c ∈ r
    /\ ac_name c = entry_label item
    /\ ac_directoryPath c = dir +:+ pre +:+ "/" +:+ post.
Proof.
  intros Hin Hd Hpre.
  exists (to_available dir
            <$> filter (fun item => is_component item = true) componentMap),
         (to_available dir item).
  split; [reflexivity |]. split.
  - apply list_elem_of_fmap_2. apply list_elem_of_filter. split; [| exact Hin].
    apply is_component_spec. eexists. split; [exact Hd |]. apply includes_append.
  - split; [reflexivity |]. unfold to_available. simpl. rewrite Hd. simpl.
    rewrite (replace_leftmost pre post "/" "components/" "/"%char Hpre).
    reflexivity.
Qed.

Lemma listing_directory_path_witness :
  exists r c,
    listAvailableDruidsComponents Cases.dir (Ok Cases.entries) = Ok r
    /\ c ∈ r
    /\ ac_name c = "Button"
    /\ ac_directoryPath c = "packages/druids/button".
Proof.
  destruct (listing_directory_path Cases.dir "" "button" Cases.button_entry
              Cases.entries) as (r & c & Hr & Hc & Hn & Hp).
  - repeat constructor.
  - reflexivity.
  - reflexivity.
  - exists r, c. repeat split; assumption.
Defined.

(** X3: whatever the destination of a listed entry, its directory path
    is [dir] followed by the destination with one "/components/" segment
    collapsed to a single slash: the path is twelve characters shorter
    than [dir] and the destination together, plus one. *)
Theorem listing_collapses_one_segment (dir : string) (item : AppMapEntry) :
  is_component item = true ->
  exists pre post,
    entry_destination item = Some (pre +:+ "/components/" +:+ post)
    /\ ac_directoryPath (to_available dir item) = dir +:+ pre +:+ "/" +:+ post
    /\ (String.length (ac_directoryPath (to_available dir item)) + 11)%nat
       = (String.length dir
          + String.length (pre +:+ "/components/" +:+ post))%nat.
Proof.
  intros Hc. apply is_component_spec in Hc as (d & Hd & Hinc).
  destruct (replace_split d "/components/" "/" Hinc) as (pre & post & Hsplit & Hrep).
  exists pre, post. unfold to_available. simpl. rewrite Hd. simpl.
  split; [rewrite Hsplit; reflexivity |]. split; [rewrite Hrep; reflexivity |].
  rewrite <- Hsplit, length_append.
  pose proof (replace_length d "/components/" "/" Hinc) as H. simpl in H. lia.
Qed.

Lemma listing_collapses_one_segment_witness :
  exists pre post,
    entry_destination Cases.button_entry = Some (pre +:+ "/components/" +:+ post)
    /\ ac_directoryPath (to_available Cases.dir Cases.button_entry)
       = Cases.dir +:+ pre +:+ "/" +:+ post.
Proof.
  destruct (listing_collapses_one_segment Cases.dir Cases.button_entry)
    as (pre & post & H1 & H2 & _).
  - reflexivity.
  - exists pre, post. split; assumption.
Defined.

End ListingFacts.

(** ** The MCP server *)

Section ServerFacts.

Import Listing McpServer.

(** X4: the names served by the call handler are the names the listing
    handler advertises: an advertised name is dispatched to its tool, and
    every other name is rejected with "Tool not found: <name>". *)
Theorem served_tools_are_advertised (dir : string)
  (fetched : Res (list AppMapEntry)) (name : string) (arguments : CallArguments) :
  (name ∈ td_name <$> list_tools ->
   (name = "list-available-druids-components"
    /\ call_tool dir fetched name arguments
       = res_map ComponentList (listAvailableDruidsComponents dir fetched))
   \/ (name = "get-druids-component-props"
       /\ forall names, arguments = WithNames names ->
            call_tool dir fetched name arguments
            = res_map ComponentProps
                (getDruidsComponentProps (res_map (fmap props_view) fetched)
                   (default [] names))))
  /\ (name ∉ td_name <$> list_tools ->
      call_tool dir fetched name arguments
      = Throw (ErrorObj ("Tool not found: " +:+ name))).
Proof.
  unfold call_tool. split.
  - intros Hin. simpl in Hin.
    apply elem_of_cons in Hin as [-> | Hin]; [left; split; reflexivity |].
    apply elem_of_cons in Hin as [-> | Hin]; [| inversion Hin].
    right. split; [reflexivity |]. intros names ->. reflexivity.
  - intros Hout. simpl in Hout.
    destruct (String.eqb_spec name "list-available-druids-components") as [-> | _].
    { exfalso. apply Hout. repeat constructor. }
    destruct (String.eqb_spec name "get-druids-component-props") as [-> | _].
    { exfalso. apply Hout. repeat constructor. }
    reflexivity.
Qed.

End ServerFacts.

(** ** The props tool *)

Section PropsToolFacts.

Lemma build_lookup_filter (names : list string) (componentMap : list AppMapItem) :
  build_lookup (list_to_set names)
    (filter (fun item => label item ∈ names) componentMap)
  = build_lookup (list_to_set names) componentMap.
Proof.
  unfold build_lookup. generalize empty_object. intros acc. revert acc.
  induction componentMap as [| x rest IH]; intros acc; [reflexivity |].
  rewrite filter_cons. cbv beta.
  destruct (decide (label x ∈ names)) as [Hx | Hx]; simpl.
  - apply IH.
  - rewrite decide_False by (rewrite elem_of_list_to_set; exact Hx). apply IH.
Qed.

(** X5: for requested names none of which is a property name of
    [Object.prototype], the props tool answers with one entry per
    requested name, in the order of the request and with repetitions
    kept; each entry either carries props and no [notFound] flag, or the
    flag and no props. *)
Theorem props_result_shape (componentMap : list AppMapItem) (names : list string) :
  names <> [] ->
  plain_names names ->
  exists r,
    getDruidsComponentProps (Ok componentMap) names = Ok r
    /\ cp_name <$> r = names
    /\ forall entry, entry ∈ r ->
         (cp_props entry = None /\ cp_notFound entry = Some true)
         \/ (exists ps, cp_props entry = Some ps /\ cp_notFound entry = None).
Proof.
  intros Hne Hplain. unfold getDruidsComponentProps.
  replace (length names =? 0)%nat with false
    by (destruct names; [congruence | reflexivity]).
  destruct (plain_names_resolve names componentMap Hplain) as [r Hr].
  exists r. split; [exact Hr |].
  pose proof (map_res_Forall2 _ _ _ Hr) as Hall. split.
  - clear Hr. induction Hall as [| n entry l l' Hn _ IH]; [reflexivity |].
    rewrite fmap_cons, IH, (format_result_name _ _ _ Hn). reflexivity.
  - intros entry Hin.
    destruct (Forall2_elem_r _ _ _ entry Hall Hin) as (n & _ & Hn).
    unfold format_result in Hn.
    destruct (get_property _ n) as [| ps | []]; try discriminate;
      injection Hn as <-; simpl; eauto.
Qed.

Lemma props_result_shape_witness :
  exists r,
    getDruidsComponentProps (Ok Examples.app_map) ["Input"; "Ghost"; "Input"] = Ok r
    /\ cp_name <$> r = ["Input"; "Ghost"; "Input"].
Proof.
  destruct (props_result_shape Examples.app_map ["Input"; "Ghost"; "Input"])
    as (r & Hr & Hn & _).
  - discriminate.
  - refine (bool_decide_unpack _ _). vm_compute. exact I.
  - exists r. split; assumption.
Defined.

(** X6: the answer of the props tool depends only on the app-map entries
    whose label was requested: dropping every other entry changes
    nothing. *)
Theorem props_ignore_unrequested (componentMap : list AppMapItem)
  (names : list string) :
  getDruidsComponentProps
    (Ok (filter (fun item => label item ∈ names) componentMap)) names
  = getDruidsComponentProps (Ok componentMap) names.
Proof.
  unfold getDruidsComponentProps. destruct (length names =? 0)%nat; [reflexivity |].
  rewrite build_lookup_filter. reflexivity.
Qed.

End PropsToolFacts.

(** ** The channel in use *)

Section ChannelUse.

Lemma listAvailableComponents_state (p : Peer) (c : MCPClient) :
  (listAvailableComponents p c).2
  = if not_usable c then c
    else sent (WCallTool "list-available-druids-components" None) c.
Proof. unfold listAvailableComponents. destruct (not_usable c); reflexivity. Qed.

Lemma getComponentProps_state (p : Peer) (l : list string) (c : MCPClient) :
  (getComponentProps p l c).2
  = if not_usable c then c
    else sent (WCallTool "get-druids-component-props" (Some l)) c.
Proof. unfold getComponentProps. destruct (not_usable c); reflexivity. Qed.

Lemma list_components_call_state (p : Peer) (c : MCPClient) :
  isReady c = true ->
  (list_components_call p c).2 = (listAvailableComponents p c).2.
Proof.
  intros Hr. unfold list_components_call. eff_unfold.
  rewrite (ensure_connected_ready p c Hr). simpl.
  destruct (listAvailableComponents p c) as [[v | e] c1]; reflexivity.
Qed.

Lemma get_component_props_call_state (p : Peer) (names : JsNames) (c : MCPClient) :
  isReady c = true ->
  (get_component_props_call p names c).2
  = if invalid_names names then c
    else (getComponentProps p (elements names) c).2.
Proof.
  intros Hr. unfold get_component_props_call. eff_unfold.
  destruct (invalid_names names); simpl; [reflexivity |].
  rewrite (ensure_connected_ready p c Hr). simpl.
  destruct (getComponentProps p (elements names) c) as [[v | e] c1]; reflexivity.
Qed.

(** X7: a channel that is ready stays ready through [connect], both
    remote operations and both adapters, whatever the peer answers
    (rejection and malformed text included): nothing but [disconnect]
    clears readiness, and a ready channel is never handshaken again. *)
Theorem readiness_is_kept (p : Peer) (c : MCPClient) (names : JsNames)
  (l : list string) :
  isReady c = true ->
  connect p c = (Ok tt, c)
  /\ isReady (listAvailableComponents p c).2 = true
  /\ isReady (getComponentProps p l c).2 = true
  /\ isReady (list_components_call p c).2 = true
  /\ isReady (get_component_props_call p names c).2 = true
  /\ (WConnect ∉ drop (length (wire c)) (wire (list_components_call p c).2))
  /\ (WConnect ∉ drop (length (wire c))
                   (wire (get_component_props_call p names c).2)).
Proof.
  intros Hr. assert (Hc : isConnected c = true) by exact Hr.
  assert (Hno : forall op, op <> WConnect ->
            WConnect ∉ drop (length (wire c)) (wire (sent op c))).
  { intros op Hop. simpl. rewrite drop_app_length. intros Hin.
    apply list_elem_of_singleton in Hin. congruence. }
  assert (Hno0 : WConnect ∉ drop (length (wire c)) (wire c)).
  { rewrite drop_all. apply not_elem_of_nil. }
  rewrite list_components_call_state, get_component_props_call_state by exact Hr.
  rewrite listAvailableComponents_state, !getComponentProps_state.
  split; [unfold connect; rewrite Hc; reflexivity |].
  destruct (not_usable c), (invalid_names names); simpl;
    repeat split; auto; apply Hno; discriminate.
Qed.

Lemma readiness_is_kept_witness :
  isReady (list_components_call Examples.unreachable Examples.live).2 = true
  /\ isReady (get_component_props_call Examples.unreachable
                (NamesArray ["Button"]) Examples.live).2 = true.
Proof.
  destruct (readiness_is_kept Examples.unreachable Examples.live
              (NamesArray ["Button"]) []) as (_ & _ & _ & H1 & H2 & _).
  - reflexivity.
  - split; assumption.
Defined.

(** X8: one call of an adapter sends at most one handshake and at most
    one remote call, in that order, and nothing else; the remote call of
    the props adapter carries exactly the requested names.  Nothing is
    retried. *)
Theorem adapter_wire_discipline (p : Peer) (names : JsNames) (c : MCPClient) :
  (exists ops,
     wire (list_components_call p c).2 = wire c ++ ops
     /\ (ops = [] \/ ops = [WConnect]
         \/ ops = [WCallTool "list-available-druids-components" None]
         \/ ops = [WConnect; WCallTool "list-available-druids-components" None]))
  /\ (exists ops,
        wire (get_component_props_call p names c).2 = wire c ++ ops
        /\ (ops = [] \/ ops = [WConnect]
            \/ ops = [WCallTool "get-druids-component-props" (Some (elements names))]
            \/ ops = [WConnect;
                      WCallTool "get-druids-component-props" (Some (elements names))])).
Proof.
  split.
  - unfold list_components_call. eff_unfold.
    unfold ensure_connected, isReady, connect, listAvailableComponents.
    destruct (isConnected c) eqn:Hc; simpl.
    + destruct (not_usable c); simpl.
      * exists []. rewrite app_nil_r. auto.
      * eexists [_]. destruct (read_response _); simpl; auto.
    + destruct (handshake p); simpl.
      * exists [WConnect]. auto.
      * unfold not_usable. simpl. eexists [WConnect; _].
        destruct (read_response _); simpl; rewrite <- app_assoc; auto 6.
  - unfold get_component_props_call. eff_unfold.
    destruct (invalid_names names); simpl.
    { exists []. rewrite app_nil_r. auto. }
    unfold ensure_connected, isReady, connect, getComponentProps.
    destruct (isConnected c) eqn:Hc; simpl.
    + destruct (not_usable c); simpl.
      * exists []. rewrite app_nil_r. auto.
      * eexists [_]. destruct (read_response _); simpl; auto.
    + destruct (handshake p); simpl.
      * exists [WConnect]. auto.
      * unfold not_usable. simpl. eexists [WConnect; _].
        destruct (read_response _); simpl; rewrite <- app_assoc; auto 6.
Qed.

(** X9: on a ready channel the list adapter's envelope is decided by the
    remote call alone: a parsed answer gives [success: true] with the
    components, their count and the count in the message; a rejection or
    unparsable text gives [success: false] with the error's message, or
    "Unknown error occurred" when the thrown value is not an [Error]. *)
Theorem list_adapter_outcome (p : Peer) (c : MCPClient) :
  well_formed c -> isReady c = true ->
  (forall components, read_response (list_tool p) = Ok components ->
     (list_components_call p c).1
     = Ok (ListOk components (length components)
             ("Found " +:+ pretty (length components)
              +:+ " available DRUIDS components")))
  /\ (forall e, read_response (list_tool p) = Throw e ->
        exists hint,
          (list_components_call p c).1 = Ok (Failure (error_text e) hint)).
Proof.
  intros Hwf Hr.
  assert (Hu : not_usable c = false) by (apply not_usable_false; assumption).
  unfold list_components_call. eff_unfold.
  rewrite (ensure_connected_ready p c Hr). simpl.
  unfold listAvailableComponents. rewrite Hu. simpl. split.
  - intros components ->. reflexivity.
  - intros e ->. simpl. eauto.
Qed.

Lemma list_adapter_outcome_witness :
  (list_components_call Cases.server Examples.live).1
  = Ok (ListOk [Listing.to_available Cases.dir Cases.button_entry] 1
          "Found 1 available DRUIDS components").
Proof.
  destruct (list_adapter_outcome Cases.server Examples.live) as [Hok _].
  - intros _. simpl. eauto.
  - reflexivity.
  - apply (Hok [Listing.to_available Cases.dir Cases.button_entry]). reflexivity.
Defined.

(** X10: a response whose first content element is not text (or that has
    no content) is not an error: the props adapter reports
    [success: true] with no component found and none missing, although
    names were requested. *)
Theorem textless_response_is_empty_success (p : Peer) (names : list string)
  (c : MCPClient) :
  well_formed c -> isReady c = true -> names <> [] ->
  textless (props_tool p names) ->
  (get_component_props_call p (NamesArray names) c).1
  = Ok (PropsOk [] [] "Retrieved props for 0 components. ").
Proof.
  intros Hwf Hr Hne Hless.
  assert (Hu : not_usable c = false) by (apply not_usable_false; assumption).
  assert (Hread : read_response (props_tool p names) = Ok []).
  { destruct Hless as [-> | [-> | [rest ->]]]; reflexivity. }
  unfold get_component_props_call. eff_unfold.
  replace (invalid_names (NamesArray names)) with false
    by (destruct names; [congruence | reflexivity]).
  rewrite (ensure_connected_ready p c Hr). simpl.
  unfold getComponentProps. rewrite Hu. simpl. rewrite Hread. reflexivity.
Qed.

Lemma textless_response_is_empty_success_witness :
  (get_component_props_call
     {| handshake := None; teardown := None;
        list_tool := CallResolves None;
        props_tool := fun _ => CallResolves (Some [OtherContent]) |}
     (NamesArray ["Button"]) Examples.live).1
  = Ok (PropsOk [] [] "Retrieved props for 0 components. ").
Proof.
  apply textless_response_is_empty_success.
  - intros _. simpl. eauto.
  - reflexivity.
  - discriminate.
  - right. right. exists []. reflexivity.
Defined.

(** X11: a failed connect is not sticky.  After an adapter call that
    could not connect, the next call against a reachable service performs
    a fresh handshake, makes its remote call and leaves the channel
    ready. *)
Theorem adapter_recovers_after_failed_connect (down up : Peer) (c : MCPClient)
  (e : Thrown) (components : list AvailableComponent) :
  isReady c = false ->
  handshake down = Some e ->
  handshake up = None ->
  read_response (list_tool up) = Ok components ->
  let c1 := (list_components_call down c).2 in
  let call := WCallTool "list-available-druids-components" None in
  isReady c1 = false
  /\ (list_components_call up c1).1
     = Ok (ListOk components (length components)
             ("Found " +:+ pretty (length components)
              +:+ " available DRUIDS components"))
  /\ isReady (list_components_call up c1).2 = true
  /\ wire (list_components_call up c1).2 = wire c ++ [WConnect; WConnect; call].
Proof.
  intros Hr Hdown Hup Hread c1 call.
  assert (Hc : isConnected c = false) by exact Hr.
  assert (Hc1 : c1 = (connect down c).2).
  { subst c1. unfold list_components_call. eff_unfold.
    destruct (ensure_connected_fails down c e Hr Hdown) as [-> _]. reflexivity. }
  assert (Hoff : isReady c1 = false).
  { rewrite Hc1. apply (connect_fails down c e Hc Hdown). }
  split; [exact Hoff |].
  assert (Hwire : wire c1 = wire c ++ [WConnect]).
  { rewrite Hc1. unfold connect. rewrite Hc, Hdown. reflexivity. }
  unfold list_components_call. eff_unfold.
  unfold ensure_connected. rewrite Hoff.
  unfold connect. unfold isReady in Hoff. rewrite Hoff, Hup. simpl.
  unfold listAvailableComponents, not_usable. simpl. rewrite Hread. simpl.
  split; [reflexivity |]. split; [reflexivity |].
  rewrite Hwire, <- !app_assoc. reflexivity.
Qed.

Lemma adapter_recovers_after_failed_connect_witness :
  (list_components_call Cases.server
     (list_components_call Examples.unreachable fresh).2).1
  = Ok (ListOk [Listing.to_available Cases.dir Cases.button_entry] 1
          "Found 1 available DRUIDS components").
Proof.
  destruct (adapter_recovers_after_failed_connect Examples.unreachable Cases.server
              fresh (ErrorObj "spawn node ENOENT")
              [Listing.to_available Cases.dir Cases.button_entry])
    as (_ & H & _); [reflexivity | reflexivity | reflexivity | reflexivity |].
  exact H.
Defined.

(** X12: the list tool end to end (adapter, client and the repository's
    tool service): on a channel that is ready or can connect, the adapter
    answers [success: true] with the component entries of the app map,
    their number as [total] and in the message; when the app map cannot
    be fetched the handler throws, the client rejects with the protocol
    error made from it, and the adapter answers [success: false] with
    "MCP error -32603: " followed by the message of the fetch error. *)
Theorem list_tool_end_to_end (hs td : option Thrown) (dir : string)
  (fetched : Res (list Listing.AppMapEntry)) (c : MCPClient) :
  well_formed c ->
  (isReady c = false -> hs = None) ->
  exists hint,
    (list_components_call (McpServer.peer_of hs td dir fetched) c).1
    = match fetched with
      | Ok componentMap =>
          let components :=
            Listing.to_available dir
              <$> filter (fun item => Listing.is_component item = true) componentMap in
          Ok (ListOk components (length components)
                ("Found " +:+ pretty (length components)
                 +:+ " available DRUIDS components"))
      | Throw e =>
          Ok (Failure ("MCP error -32603: " +:+ handler_message e) hint)
      end.
Proof.
  intros Hwf Hhs. set (p := McpServer.peer_of hs td dir fetched).
  assert (Hconn : exists c1, ensure_connected p c = (Ok tt, c1)
                             /\ not_usable c1 = false).
  { destruct (isReady c) eqn:Hc.
    - exists c. split; [apply ensure_connected_ready; exact Hc |].
      apply not_usable_false; assumption.
    - assert (Hh : handshake p = None) by (apply Hhs; reflexivity).
      destruct (connect_ok p c Hc Hh) as (H1 & H2 & H3).
      exists (connect p c).2. split.
      + unfold ensure_connected. rewrite Hc.
        destruct (connect p c) as [r c1]. simpl in *. rewrite H1. reflexivity.
      + unfold not_usable. rewrite H2. simpl.
        rewrite bool_decide_eq_true_2; auto. }
  destruct Hconn as (c1 & Hens & Huse).
  unfold list_components_call. eff_unfold. rewrite Hens. simpl.
  unfold listAvailableComponents. rewrite Huse. simpl.
  destruct fetched as [componentMap | e]; simpl; eauto.
Qed.

Lemma list_tool_end_to_end_witness :
  exists hint,
    (list_components_call Cases.server_without_map fresh).1
    = Ok (Failure "MCP error -32603: fetch failed" hint).
Proof.
  destruct (list_tool_end_to_end None None Cases.dir
              (Throw (ErrorNamed "TypeError" "fetch failed")) fresh) as (hint & H).
  - apply well_formed_fresh.
  - reflexivity.
  - exists hint. exact H.
Defined.

End ChannelUse.

(** ** The channel of a running server *)

Section WireFacts.

Lemma handshake_first_sent (op : WireOp) (c : MCPClient) :
  not_usable c = false -> handshake_first c -> handshake_first (sent op c).
Proof.
  unfold handshake_first, not_usable. simpl. intros Hu Hf.
  destruct (wire c) as [| o rest]; simpl; [| exact Hf].
  rewrite Hf in Hu. discriminate.
Qed.

Lemma handshake_first_connect (p : Peer) (c : MCPClient) :
  handshake_first c -> handshake_first (connect p c).2.
Proof.
  unfold connect. destruct (isConnected c) eqn:Hc; [auto |].
  unfold handshake_first. intros Hf.
  destruct (handshake p); simpl; destruct (wire c); simpl; auto.
Qed.

Lemma handshake_first_disconnect (p : Peer) (c : MCPClient) :
  handshake_first c -> handshake_first (disconnect p c).2.
Proof.
  unfold disconnect. destruct (not_usable c) eqn:Hu; [auto |]. intros Hf.
  destruct (teardown p); simpl; [apply handshake_first_sent; assumption |].
  unfold handshake_first, not_usable in *. simpl.
  destruct (wire c); simpl; [| exact Hf]. rewrite Hf in Hu. discriminate.
Qed.

Lemma handshake_first_ensure (p : Peer) (c : MCPClient) :
  handshake_first c -> handshake_first (ensure_connected p c).2.
Proof.
  unfold ensure_connected. destruct (isReady c); [auto |].
  apply handshake_first_connect.
Qed.

Lemma handshake_first_list_call (p : Peer) (c : MCPClient) :
  handshake_first c -> handshake_first (list_components_call p c).2.
Proof.
  intros Hf. unfold list_components_call. eff_unfold.
  pose proof (handshake_first_ensure p c Hf) as H1.
  destruct (ensure_connected p c) as [[[] | e] c1]; simpl in *; [| exact H1].
  unfold listAvailableComponents.
  destruct (not_usable c1) eqn:Hu; simpl; [exact H1 |].
  destruct (read_response (list_tool p)); simpl;
    apply handshake_first_sent; assumption.
Qed.

Lemma handshake_first_props_call (p : Peer) (names : JsNames) (c : MCPClient) :
  handshake_first c -> handshake_first (get_component_props_call p names c).2.
Proof.
  intros Hf. unfold get_component_props_call. eff_unfold.
  destruct (invalid_names names); simpl; [exact Hf |].
  pose proof (handshake_first_ensure p c Hf) as H1.
  destruct (ensure_connected p c) as [[[] | e] c1]; simpl in *; [| exact H1].
  unfold getComponentProps.
  destruct (not_usable c1) eqn:Hu; simpl; [exact H1 |].
  destruct (read_response (props_tool p (elements names))); simpl;
    apply handshake_first_sent; assumption.
Qed.

Lemma handshake_first_step (s s' : Server) (ev : Event) :
  step s ev = Some s' ->
  handshake_first (mcpClient s) -> handshake_first (mcpClient s').
Proof.
  destruct ev as [dt | tm | w u | p | p names | p]; simpl.
  - destruct (0 <=? dt)%Z; [| discriminate]. intros [= <-]. auto.
  - destruct (decide (tm ∈ timers s)); [| discriminate].
    destruct (due tm <=? clock s)%Z; [| discriminate].
    intros [= <-]. unfold eviction_check.
    destruct (idle_threshold <=? _)%Z; auto.
  - intros [= <-] Hf.
    assert (Hprep : handshake_first (mcpClient (prepared w s))).
    { unfold prepared, initializeEngine.
      destruct (queryEngineTool s); [| destruct (index_load w)]; simpl;
        (destruct (isReady (mcpClient s)); simpl;
         [exact Hf | apply handshake_first_connect; exact Hf]). }
    destruct (getChatEngine_cases w u s)
      as [(a & _ & ->) | [(q & _ & ->) | (e & _ & ->)]]; simpl; auto.
  - intros [= <-] Hf. rewrite on_mcp_state. simpl.
    apply handshake_first_list_call. exact Hf.
  - intros [= <-] Hf. rewrite on_mcp_state. simpl.
    apply handshake_first_props_call. exact Hf.
  - intros [= <-] Hf. rewrite on_mcp_state. simpl.
    apply handshake_first_disconnect. exact Hf.
Qed.

(** X13: in every state a server reaches, nothing was sent on a channel
    that never connected, and whatever was sent began with a handshake:
    no tool call and no teardown ever precedes the first handshake. *)
Theorem wire_starts_with_handshake (s : Server) (op : WireOp) :
  reachable s ->
  op ∈ wire (mcpClient s) ->
  head (wire (mcpClient s)) = Some WConnect.
Proof.
  intros (t0 & evs & Hrun) Hin.
  assert (Hf : handshake_first (mcpClient s)).
  { apply (run_invariant (fun s => handshake_first (mcpClient s))
             handshake_first_step evs (boot t0) s Hrun).
    reflexivity. }
  unfold handshake_first in Hf.
  destruct (wire (mcpClient s)) as [| o rest]; [inversion Hin |].
  simpl. rewrite Hf. reflexivity.
Qed.

Lemma wire_starts_with_handshake_witness :
  head (wire (mcpClient
                (Scenario.final [Access Scenario.healthy Scenario.alice;
                                 ToolProps Examples.druids (NamesArray ["Button"]);
                                 Disconnect Examples.druids])))
  = Some WConnect.
Proof.
  apply (wire_starts_with_handshake _ WClose).
  - exists 0%Z, [Access Scenario.healthy Scenario.alice;
                 ToolProps Examples.druids (NamesArray ["Button"]);
                 Disconnect Examples.druids].
    vm_compute. reflexivity.
  - vm_compute. repeat constructor.
Defined.

End WireFacts.

(** ** Failure of the cache, and the listening server *)

Section ServingFacts.

(** X14: [getChatEngine] throws in one situation only: the session is not
    cached, the index is not loaded, and loading it fails.  It then
    throws the load error itself and leaves every piece of state as it
    was; the "Failed to initialize query engine" branch is never taken. *)
Theorem getChatEngine_failure (w : World) (u : string) (s : Server) (e : Thrown) :
  ((getChatEngine w u s).1 = Throw e
   <-> chatEngines s !! u = None /\ queryEngineTool s = None
       /\ index_load w = Some e)
  /\ ((getChatEngine w u s).1 = Throw e -> (getChatEngine w u s).2 = s).
Proof.
  destruct (chatEngines s !! u) as [a |] eqn:Hu.
  { rewrite (getChatEngine_hit w u s a Hu). simpl.
    split; [split; [discriminate | intros (H & _); discriminate] | discriminate]. }
  destruct (queryEngineTool s) as [q0 |] eqn:Hq0.
  { assert (Hav : index_available w s) by (left; rewrite Hq0; eauto).
    destruct (prepared_index w s Hav) as [q Hq].
    rewrite (getChatEngine_miss w u s q Hu Hq Hav). simpl.
    split; [split; [discriminate | intros (_ & H & _); discriminate] | discriminate]. }
  destruct (index_load w) as [e' |] eqn:Hload.
  - rewrite (getChatEngine_unavailable w u s e' Hu Hq0 Hload). simpl.
    split; [split |]; [intros [= ->]; auto | intros (_ & _ & [= ->]); reflexivity
                      | reflexivity].
  - assert (Hav : index_available w s) by (right; exact Hload).
    destruct (prepared_index w s Hav) as [q Hq].
    rewrite (getChatEngine_miss w u s q Hu Hq Hav). simpl.
    split; [split; [discriminate | intros (_ & _ & H); discriminate] | discriminate].
Qed.

Lemma index_kept_step (s s' : Server) (ev : Event) :
  step s ev = Some s' ->
  is_Some (queryEngineTool s) -> is_Some (queryEngineTool s').
Proof.
  destruct ev as [dt | tm | w u | p | p names | p]; simpl.
  - destruct (0 <=? dt)%Z; [| discriminate]. intros [= <-]. auto.
  - destruct (decide (tm ∈ timers s)); [| discriminate].
    destruct (due tm <=? clock s)%Z; [| discriminate].
    intros [= <-]. unfold eviction_check.
    destruct (idle_threshold <=? _)%Z; auto.
  - intros [= <-] Hq.
    assert (Hav : index_available w s) by (left; exact Hq).
    pose proof (prepared_index w s Hav) as Hprep.
    destruct (getChatEngine_cases w u s)
      as [(a & _ & ->) | [(q & _ & ->) | (e & _ & ->)]]; simpl; auto.
  - intros [= <-]. rewrite on_mcp_state. auto.
  - intros [= <-]. rewrite on_mcp_state. auto.
  - intros [= <-]. rewrite on_mcp_state. auto.
Qed.

Lemma serving_index (s : Server) : serving s -> is_Some (queryEngineTool s).
Proof.
  intros (w0 & t0 & s0 & evs & Hlisten & Hrun).
  apply (run_invariant (fun s => is_Some (queryEngineTool s))
           index_kept_step evs s0 s Hrun).
  unfold Startup.listening, initializeEngine in Hlisten.
  destruct (index_load w0); [discriminate |]. injection Hlisten as <-.
  simpl. eauto.
Qed.

(** X15: the server listens only once the index is loaded, and nothing
    unloads it: in every state of a listening server [getChatEngine]
    returns an agent, for every session id and whatever the outside world
    does, so a request with a session header is answered with status 500
    only when the model call itself throws. *)
Theorem listening_server_always_has_an_agent (s : Server) (w : World)
  (req : Request) (u : string) :
  serving s ->
  x_user req = Some u -> u <> "" ->
  exists a,
    (getChatEngine w u s).1 = Ok (Some a)
    /\ (post_query w req s).1
       = match chat_full w a (body_query req) with
         | Ok answer => Json 200 (BodyAnswer answer)
         | Throw e => Json 500 (BodyError (describe e))
         end.
Proof.
  intros Hserving Hh Hu.
  assert (Hget : exists a, (getChatEngine w u s).1 = Ok (Some a)).
  { pose proof (serving_index s Hserving) as Hq.
    destruct (chatEngines s !! u) as [a |] eqn:Hc.
    - exists a. rewrite (getChatEngine_hit w u s a Hc). reflexivity.
    - assert (Hav : index_available w s) by (left; exact Hq).
      destruct (prepared_index w s Hav) as [q Hq'].
      eexists. rewrite (getChatEngine_miss w u s q Hc Hq' Hav). reflexivity. }
  destruct Hget as [a Hget]. exists a. split; [exact Hget |].
  unfold post_query, queryIndex, with_agent. rewrite Hh. simpl.
  replace (String.eqb u "") with false by (symmetry; apply String.eqb_neq; exact Hu).
  eff_unfold. simpl. rewrite access_count_dispatch, Hget. simpl.
  destruct (chat_full w a (body_query req)); reflexivity.
Qed.

Lemma listening_server_always_has_an_agent_witness :
  (post_query Scenario.degraded (Scenario.ask "ping")
     (default (boot 0) (Startup.listening Scenario.healthy 0))).1
  = Json 200 (BodyAnswer "You asked: ping").
Proof.
  destruct (listening_server_always_has_an_agent
              (default (boot 0) (Startup.listening Scenario.healthy 0))
              Scenario.degraded (Scenario.ask "ping") Scenario.alice)
    as (a & _ & Hpost).
  - exists Scenario.healthy, 0%Z,
      (default (boot 0) (Startup.listening Scenario.healthy 0)), [].
    split; reflexivity.
  - reflexivity.
  - discriminate.
  - rewrite Hpost. reflexivity.
Defined.

End ServingFacts.

(** ** Routes, again *)

Section RouteFacts.

(** X16: POST /query answers 400 exactly when the X-User header is absent
    or empty; a request with a non-empty header enters the dispatcher
    exactly once and is answered with 200 or 500. *)
Theorem query_route_status (w : World) (req : Request) (s : Server) :
  ((post_query w req s).1 = Json 400 (BodyError "Missing X-User header")
   <-> x_user req = None \/ x_user req = Some "")
  /\ (x_user req = Some "" -> (post_query w req s).2 = s)
  /\ (forall u, x_user req = Some u -> u <> "" ->
        dispatched (post_query w req s).2 = S (dispatched s)
        /\ ((exists answer, (post_query w req s).1 = Json 200 (BodyAnswer answer))
            \/ (exists msg, (post_query w req s).1 = Json 500 (BodyError msg)))).
Proof.
  unfold post_query.
  destruct (x_user req) as [u |] eqn:Hh; simpl.
  - destruct (String.eqb_spec u "") as [-> | Hne].
    + split; [split; auto |]. split; [reflexivity |]. intros u [= <-] H. congruence.
    + pose proof (queryIndex_dispatched w (body_query req) u s) as Hd.
      destruct (queryIndex w (body_query req) u s) as [[answer | e] s1]; simpl in *.
      * split; [split; [discriminate | intros [H | [= H]]; congruence] |].
        split; [intros [= H]; congruence |].
        intros u' [= <-] _. split; [exact Hd | eauto].
      * split; [split; [discriminate | intros [H | [= H]]; congruence] |].
        split; [intros [= H]; congruence |].
        intros u' [= <-] _. split; [exact Hd | eauto].
  - split; [split; auto |]. split; [discriminate |]. intros u H. discriminate.
Qed.


(** The text a route puts into its 500 answer. *)
Example describe_is_toString :
  describe (ErrorObj "boom") = "Error: boom"
  /\ describe (ErrorNamed "TypeError" "fetch failed") = "TypeError: fetch failed"
  /\ describe (ErrorObj "") = "Error"
  /\ describe (ErrorNamed "RangeError" "") = "RangeError"
  /\ describe NonError = "An unknown error occurred".
Proof. repeat split. Qed.

(** X18: a model call that throws is answered with status 500, but the
    session it was made for stays cached, stamped with the time of the
    request, and its eviction check is pending: the failure rolls nothing
    back. *)
Theorem failed_query_keeps_session (w : World) (req : Request) (u : string)
  (s : Server) (a : OpenAIAgent) (e : Thrown) :
  x_user req = Some u -> u <> "" ->
  (getChatEngine w u s).1 = Ok (Some a) ->
  chat_full w a (body_query req) = Throw e ->
  (post_query w req s).1 = Json 500 (BodyError (describe e))
  /\ chatEngines (post_query w req s).2 !! u = Some a
  /\ lastActivityTimes (post_query w req s).2 !! u = Some (clock s)
  /\ {| due := clock s + check_delay; timer_user := u |}
     ∈ timers (post_query w req s).2.
Proof.
  intros Hh Hu Hget Hchat.
  unfold post_query, queryIndex, with_agent. rewrite Hh. simpl.
  replace (String.eqb u "") with false by (symmetry; apply String.eqb_neq; exact Hu).
  eff_unfold. simpl. rewrite access_count_dispatch, Hget. simpl. rewrite Hchat.
  simpl. split; [reflexivity |].
  destruct (getChatEngine w u s) as [r s1] eqn:Hcall. simpl in *. subst r.
  destruct (access_result w u a s s1 Hcall) as (Hc & Hl & _).
  split; [exact Hc |]. split; [exact Hl |].
  destruct (prepared_frame w s) as (_ & _ & Ht & Hclk & _).
  destruct (getChatEngine_cases w u s)
    as [(a' & _ & He) | [(q & _ & He) | (e' & _ & He)]];
    rewrite He in Hcall; [| | discriminate]; injection Hcall as _ <-; simpl.
  - apply elem_of_app. right. repeat constructor.
  - rewrite Hclk. apply elem_of_app. right. repeat constructor.
Qed.

Lemma failed_query_keeps_session_witness :
  (post_query
     {| index_load := None; peer := Examples.druids;
        chat_full := fun _ _ => Throw (ErrorObj "429 rate limited");
        chat_stream := Scenario.echo_stream |}
     (Scenario.ask "ping") (boot 0)).1
  = Json 500 (BodyError "Error: 429 rate limited")
  /\ chatEngines
       (post_query
          {| index_load := None; peer := Examples.druids;
             chat_full := fun _ _ => Throw (ErrorObj "429 rate limited");
             chat_stream := Scenario.echo_stream |}
          (Scenario.ask "ping") (boot 0)).2 !! Scenario.alice
     = Some Scenario.first_agent.
Proof.
  destruct (failed_query_keeps_session
              {| index_load := None; peer := Examples.druids;
                 chat_full := fun _ _ => Throw (ErrorObj "429 rate limited");
                 chat_stream := Scenario.echo_stream |}
              (Scenario.ask "ping") Scenario.alice (boot 0) Scenario.first_agent
              (ErrorObj "429 rate limited"))
    as (H1 & H2 & _).
  - reflexivity.
  - discriminate.
  - vm_compute. reflexivity.
  - reflexivity.
  - split; assumption.
Defined.

End RouteFacts.

(** ** Time and the pending checks *)

Section TimeFacts.

Lemma time_sane_check (u : string) (s : Server) :
  time_sane s -> time_sane (eviction_check u s).
Proof.
  unfold eviction_check. destruct (idle_threshold <=? _)%Z; [| auto].
  intros (H1 & H2 & H3). repeat split; simpl.
  - intros u' l Hl. apply lookup_delete_Some in Hl as [_ Hl]. eauto.
  - exact H2.
  - intros tm l Hin Hl. apply lookup_delete_Some in Hl as [_ Hl]. eauto.
Qed.

Lemma time_sane_touch (u : string) (s : Server) (extra : list Timer) :
  time_sane s ->
  (forall tm, tm ∈ extra -> tm = {| due := clock s + check_delay; timer_user := u |}) ->
  forall ce q c n d,
    time_sane {| queryEngineTool := q; chatEngines := ce;
                 lastActivityTimes := <[u := clock s]> (lastActivityTimes s);
                 mcpClient := c; timers := timers s ++ extra; clock := clock s;
                 constructed := n; dispatched := d |}.
Proof.
  intros (H1 & H2 & H3) Hextra ce q c n d. repeat split; simpl.
  - intros u' l. destruct (decide (u = u')) as [<- | Hne].
    + rewrite lookup_insert_eq. intros [= <-]. lia.
    + rewrite lookup_insert_ne by exact Hne. apply H1.
  - intros tm Hin. apply elem_of_app in Hin as [Hin | Hin]; [auto |].
    rewrite (Hextra tm Hin). simpl. lia.
  - intros tm l Hin. destruct (decide (u = timer_user tm)) as [Heq | Hne].
    + rewrite <- Heq, lookup_insert_eq. intros [= <-].
      apply elem_of_app in Hin as [Hin | Hin]; [apply H2; exact Hin |].
      rewrite (Hextra tm Hin). simpl. lia.
    + rewrite lookup_insert_ne by exact Hne. intros Hl.
      apply elem_of_app in Hin as [Hin | Hin]; [eauto |].
      rewrite (Hextra tm Hin) in Hne. simpl in Hne. congruence.
Qed.

Lemma time_sane_access (w : World) (u : string) (s : Server) :
  time_sane s -> time_sane (getChatEngine w u s).2.
Proof.
  intros Hsane.
  destruct (prepared_frame w s) as (Hce & Hla & Ht & Hclk & _).
  assert (Hprep : time_sane (prepared w s)).
  { destruct Hsane as (H1 & H2 & H3). unfold time_sane.
    rewrite Hla, Ht, Hclk. auto. }
  destruct (getChatEngine_cases w u s)
    as [(a & _ & ->) | [(q & _ & ->) | (e & _ & ->)]]; simpl; [| | exact Hsane].
  - apply (time_sane_touch u s); [exact Hsane |].
    intros tm Hin. apply list_elem_of_singleton in Hin. exact Hin.
  - apply (time_sane_touch u (prepared w s)); [exact Hprep |].
    intros tm Hin. apply list_elem_of_singleton in Hin. exact Hin.
Qed.

Lemma time_sane_step (s s' : Server) (ev : Event) :
  step s ev = Some s' -> time_sane s -> time_sane s'.
Proof.
  destruct ev as [dt | tm | w u | p | p names | p]; simpl.
  - destruct (0 <=? dt)%Z eqn:Hdt; [| discriminate]. apply Z.leb_le in Hdt.
    intros [= <-] (H1 & H2 & H3). repeat split; simpl.
    + intros u l Hl. apply H1 in Hl. lia.
    + intros tm Hin. apply H2 in Hin. lia.
    + exact H3.
  - destruct (decide (tm ∈ timers s)); [| discriminate].
    destruct (due tm <=? clock s)%Z; [| discriminate].
    intros [= <-] (H1 & H2 & H3). apply time_sane_check.
    repeat split; simpl; [exact H1 | |].
    + intros x Hin. apply remove_first_subset in Hin. auto.
    + intros x l Hin. apply remove_first_subset in Hin. eauto.
  - intros [= <-]. apply time_sane_access.
  - intros [= <-]. rewrite on_mcp_state. auto.
  - intros [= <-]. rewrite on_mcp_state. auto.
  - intros [= <-]. rewrite on_mcp_state. auto.
Qed.

Lemma boot_time_sane (t0 : Z) : time_sane (boot t0).
Proof.
  repeat split; simpl.
  - intros u l. rewrite lookup_empty. discriminate.
  - intros tm Hin. inversion Hin.
  - intros tm l Hin. inversion Hin.
Qed.

(** X19: in every state a server reaches, no session is stamped in the
    future, and every pending eviction check is due at most five minutes
    from now and at most five minutes after the last activity of its
    session. *)
Theorem reachable_time_sane (s : Server) (tm : Timer) (l : Z) :
  reachable s ->
  tm ∈ timers s ->
  lastActivityTimes s !! timer_user tm = Some l ->
  (l <= clock s)%Z
  /\ (due tm <= clock s + check_delay)%Z
  /\ (due tm <= l + check_delay)%Z.
Proof.
  intros (t0 & evs & Hrun) Hin Hl.
  destruct (run_invariant time_sane time_sane_step evs (boot t0) s Hrun
              (boot_time_sane t0)) as (H1 & H2 & H3).
  split; [exact (H1 _ _ Hl) |]. split; [exact (H2 _ Hin) | exact (H3 _ _ Hin Hl)].
Qed.

Lemma reachable_time_sane_witness :
  (due Scenario.first_check <= 120000 + check_delay)%Z.
Proof.
  refine (proj1 (proj2 (reachable_time_sane
            (Scenario.final [Access Scenario.healthy Scenario.alice; Elapse 120000])
            Scenario.first_check 0 _ _ _))).
  - exists 0%Z, [Access Scenario.healthy Scenario.alice; Elapse 120000].
    vm_compute. reflexivity.
  - vm_compute. repeat constructor.
  - vm_compute. reflexivity.
Defined.




End TimeFacts.

(** ** Sessions and their agents *)

Section SessionFacts.

Lemma agents_unshared_step (s s' : Server) (ev : Event) :
  step s ev = Some s' ->
  refs_below s /\ agents_unshared s -> refs_below s' /\ agents_unshared s'.
Proof.
  intros Hs [Hbelow Hun]. split; [eapply refs_below_step; eauto |].
  unfold agents_unshared in *.
  destruct ev as [dt | tm | w u | p | p names | p]; simpl in Hs.
  - destruct (0 <=? dt)%Z; [| discriminate]. injection Hs as <-. exact Hun.
  - destruct (decide (tm ∈ timers s)); [| discriminate].
    destruct (due tm <=? clock s)%Z; [| discriminate]. injection Hs as <-.
    unfold eviction_check. destruct (idle_threshold <=? _)%Z; simpl; [| exact Hun].
    intros x y a a' Hx Hy. apply lookup_delete_Some in Hx as [_ Hx].
    apply lookup_delete_Some in Hy as [_ Hy]. eauto.
  - injection Hs as <-.
    destruct (prepared_frame w s) as (Hce & _ & _ & _ & Hn & _).
    destruct (getChatEngine_cases w u s)
      as [(a0 & _ & ->) | [(q & _ & ->) | (e & _ & ->)]]; simpl; auto.
    rewrite Hce, Hn. intros x y a a' Hx Hy Href.
    destruct (decide (u = x)) as [<- | Hx'], (decide (u = y)) as [<- | Hy'];
      [reflexivity | | |].
    + rewrite lookup_insert_eq in Hx. rewrite lookup_insert_ne in Hy by exact Hy'.
      injection Hx as <-. apply Hbelow in Hy. simpl in Href. lia.
    + rewrite lookup_insert_eq in Hy. rewrite lookup_insert_ne in Hx by exact Hx'.
      injection Hy as <-. apply Hbelow in Hx. simpl in Href. lia.
    + rewrite lookup_insert_ne in Hx by exact Hx'.
      rewrite lookup_insert_ne in Hy by exact Hy'. eauto.
  - injection Hs as <-. rewrite on_mcp_state. exact Hun.
  - injection Hs as <-. rewrite on_mcp_state. exact Hun.
  - injection Hs as <-. rewrite on_mcp_state. exact Hun.
Qed.

(** X21: no agent object is ever held by two sessions: in every state a
    server reaches, two session ids whose cached agents are the same
    instance are the same id, and every cached agent is one of the
    [constructed] agents built so far. *)
Theorem sessions_never_share_an_agent (s : Server) (u u' : string)
  (a a' : OpenAIAgent) :
  reachable s ->
  chatEngines s !! u = Some a -> chatEngines s !! u' = Some a' ->
  (agent_ref a = agent_ref a' -> u = u')
  /\ (agent_ref a < constructed s)%nat.
Proof.
  intros (t0 & evs & Hrun) Hu Hu'.
  destruct (run_invariant (fun s => refs_below s /\ agents_unshared s)
              agents_unshared_step evs (boot t0) s Hrun) as [Hbelow Hun].
  { split.
    - intros x y. simpl. rewrite lookup_empty. discriminate.
    - intros x y b b'. simpl. rewrite lookup_empty. discriminate. }
  split; [intros Href; eapply Hun; eauto | eapply Hbelow; eauto].
Qed.

Lemma sessions_never_share_an_agent_witness :
  (agent_ref Scenario.first_agent < 2)%nat.
Proof.
  refine (proj2 (sessions_never_share_an_agent
            (Scenario.final [Access Scenario.healthy Scenario.alice;
                             Access Scenario.degraded "bob"])
            Scenario.alice "bob" Scenario.first_agent
            {| agent_ref := 1; tools := tools Scenario.first_agent |} _ _ _)).
  - exists 0%Z, [Access Scenario.healthy Scenario.alice;
                 Access Scenario.degraded "bob"].
    vm_compute. reflexivity.
  - vm_compute. reflexivity.
  - vm_compute. reflexivity.
Defined.

(** X22: sessions do not interfere: a call of [getChatEngine] for one
    session id, and an eviction check of one session id, leave the agent
    and the time stamp of every other session as they were. *)
Theorem sessions_do_not_interfere (w : World) (u other : string) (s : Server) :
  other <> u ->
  chatEngines (getChatEngine w u s).2 !! other = chatEngines s !! other
  /\ lastActivityTimes (getChatEngine w u s).2 !! other
     = lastActivityTimes s !! other
  /\ chatEngines (eviction_check u s) !! other = chatEngines s !! other
  /\ lastActivityTimes (eviction_check u s) !! other
     = lastActivityTimes s !! other.
Proof.
  intros Hne.
  destruct (access_other w other u s) as [H1 H2]; [congruence |].
  destruct (eviction_check_other other u s) as [H3 H4]; [congruence |].
  auto.
Qed.

Lemma sessions_do_not_interfere_witness :
  chatEngines
    (eviction_check "bob"
       (Scenario.final [Access Scenario.healthy Scenario.alice;
                        Access Scenario.healthy "bob";
                        Elapse 600000])) !! Scenario.alice
  = Some Scenario.first_agent.
Proof.
  destruct (sessions_do_not_interfere Scenario.healthy "bob" Scenario.alice
              (Scenario.final [Access Scenario.healthy Scenario.alice;
                               Access Scenario.healthy "bob";
                               Elapse 600000])) as (_ & _ & H & _).
  - discriminate.
  - rewrite H. vm_compute. reflexivity.
Defined.

End SessionFacts.

(** ** The tools of an agent *)

Section ToolsetFacts.

Lemma full_toolset_step (s s' : Server) (ev : Event) :
  step s ev = Some s' ->
  (forall u a, chatEngines s !! u = Some a -> full_toolset a) ->
  forall u a, chatEngines s' !! u = Some a -> full_toolset a.
Proof.
  intros Hs Hinv.
  destruct ev as [dt | tm | w u | p | p names | p]; simpl in Hs.
  - destruct (0 <=? dt)%Z; [| discriminate]. injection Hs as <-. exact Hinv.
  - destruct (decide (tm ∈ timers s)); [| discriminate].
    destruct (due tm <=? clock s)%Z; [| discriminate]. injection Hs as <-.
    unfold eviction_check. destruct (idle_threshold <=? _)%Z; simpl; [| exact Hinv].
    intros x a Hx. apply lookup_delete_Some in Hx as [_ Hx]. eauto.
  - injection Hs as <-.
    destruct (prepared_frame w s) as (Hce & _).
    destruct (getChatEngine_cases w u s)
      as [(a0 & _ & ->) | [(q & _ & ->) | (e & _ & ->)]]; simpl; auto.
    rewrite Hce. intros x a. destruct (decide (u = x)) as [<- | Hne].
    + rewrite lookup_insert_eq. intros [= <-]. exists q. reflexivity.
    + rewrite lookup_insert_ne by exact Hne. apply Hinv.
  - injection Hs as <-. rewrite on_mcp_state. exact Hinv.
  - injection Hs as <-. rewrite on_mcp_state. exact Hinv.
  - injection Hs as <-. rewrite on_mcp_state. exact Hinv.
Qed.

(** X23: every agent in the cache was built with the retrieval tool
    followed by the two remote adapters, in this order, whether or not the
    channel was connected when it was built. *)
Theorem agents_have_all_tools (s : Server) (u : string) (a : OpenAIAgent) :
  reachable s ->
  chatEngines s !! u = Some a ->
  exists q, tools a = [Retrieval q; Remote ListComponentsTool;
                       Remote GetComponentPropsTool].
Proof.
  intros (t0 & evs & Hrun) Hu.
  apply (run_invariant
           (fun s => forall u a, chatEngines s !! u = Some a -> full_toolset a)
           full_toolset_step evs (boot t0) s Hrun) with (u := u); [| exact Hu].
  intros x b. simpl. rewrite lookup_empty. discriminate.
Qed.

Lemma agents_have_all_tools_witness :
  exists q, tools Scenario.first_agent
            = [Retrieval q; Remote ListComponentsTool; Remote GetComponentPropsTool].
Proof.
  apply (agents_have_all_tools
           (Scenario.final [Access Scenario.degraded Scenario.alice])
           Scenario.alice).
  - exists 0%Z, [Access Scenario.degraded Scenario.alice]. vm_compute. reflexivity.
  - vm_compute. reflexivity.
Defined.

End ToolsetFacts.

(** ** backend/query.ts *)

Section LegacyFacts.

Lemma legacy_hit (w : World) (u : string) (l : Legacy.Server) (a : OpenAIAgent) :
  Legacy.chatEngines l !! u = Some a ->
  Legacy.getChatEngine w u l
  = (Ok (Some a), Legacy.schedule_check u (Legacy.touch u l)).
Proof.
  intros Hhit. unfold Legacy.getChatEngine. eff_unfold. rewrite Hhit. simpl.
  rewrite Hhit. reflexivity.
Qed.

Lemma legacy_miss_loaded (w : World) (u : string) (l : Legacy.Server)
  (q : QueryEngineTool) :
  Legacy.chatEngines l !! u = None ->
  Legacy.queryEngineTool l = Some q ->
  Legacy.getChatEngine w u l
  = (Ok (Some {| agent_ref := Legacy.constructed l; tools := [Retrieval q] |}),
     Legacy.schedule_check u (Legacy.touch u (Legacy.store_new_agent u q l))).
Proof.
  intros Hmiss Hq. unfold Legacy.getChatEngine, Legacy.create_agent. eff_unfold.
  rewrite Hmiss. simpl. rewrite Hq. simpl. rewrite Hq. simpl.
  rewrite lookup_insert_eq. reflexivity.
Qed.

Lemma legacy_miss_loading (w : World) (u : string) (l : Legacy.Server) :
  Legacy.chatEngines l !! u = None ->
  Legacy.queryEngineTool l = None ->
  index_load w = None ->
  exists l1 q,
    Legacy.initializeEngine w l = (Ok tt, l1)
    /\ Legacy.queryEngineTool l1 = Some q
    /\ Legacy.getChatEngine w u l
       = (Ok (Some {| agent_ref := Legacy.constructed l; tools := [Retrieval q] |}),
          Legacy.schedule_check u (Legacy.touch u (Legacy.store_new_agent u q l1))).
Proof.
  intros Hmiss Hq Hload.
  unfold Legacy.getChatEngine, Legacy.create_agent, Legacy.initializeEngine.
  eff_unfold. rewrite Hmiss. simpl. rewrite Hq, Hload. simpl.
  eexists. eexists. split; [reflexivity |]. split; [reflexivity |].
  rewrite lookup_insert_eq. reflexivity.
Qed.

Lemma legacy_unavailable (w : World) (u : string) (l : Legacy.Server) (e : Thrown) :
  Legacy.chatEngines l !! u = None ->
  Legacy.queryEngineTool l = None ->
  index_load w = Some e ->
  Legacy.getChatEngine w u l = (Throw e, l).
Proof.
  intros Hmiss Hq Hload.
  unfold Legacy.getChatEngine, Legacy.create_agent, Legacy.initializeEngine.
  eff_unfold. rewrite Hmiss. simpl. rewrite Hq, Hload. reflexivity.
Qed.








Lemma legacy_toolset_step (l l' : Legacy.Server) (ev : Legacy.Event) :
  Legacy.step l ev = Some l' ->
  (forall u a, Legacy.chatEngines l !! u = Some a -> exists q, tools a = [Retrieval q]) ->
  forall u a, Legacy.chatEngines l' !! u = Some a -> exists q, tools a = [Retrieval q].
Proof.
  intros Hs Hinv. destruct ev as [dt | tm | w u]; simpl in Hs.
  - destruct (0 <=? dt)%Z; [| discriminate]. injection Hs as <-. exact Hinv.
  - destruct (decide (tm ∈ Legacy.timers l)); [| discriminate].
    destruct (due tm <=? Legacy.clock l)%Z; [| discriminate]. injection Hs as <-.
    unfold Legacy.eviction_check.
    destruct (idle_threshold <=? _)%Z; simpl; [| exact Hinv].
    intros x a Hx. apply lookup_delete_Some in Hx as [_ Hx]. eauto.
  - injection Hs as <-.
    destruct (Legacy.chatEngines l !! u) as [a0 |] eqn:Hu.
    { rewrite (legacy_hit w u l a0 Hu). exact Hinv. }
    assert (Hins : forall q l1,
              Legacy.chatEngines l1 = Legacy.chatEngines l ->
              forall x a,
                Legacy.chatEngines
                  (Legacy.schedule_check u
                     (Legacy.touch u (Legacy.store_new_agent u q l1))) !! x = Some a ->
                exists q', tools a = [Retrieval q']).
    { intros q l1 Hl1 x a. simpl. rewrite Hl1.
      destruct (decide (u = x)) as [<- | Hne].
      - rewrite lookup_insert_eq. intros [= <-]. eauto.
      - rewrite lookup_insert_ne by exact Hne. apply Hinv. }
    destruct (Legacy.queryEngineTool l) as [q |] eqn:Hq.
    { rewrite (legacy_miss_loaded w u l q Hu Hq). apply Hins. reflexivity. }
    destruct (index_load w) as [e |] eqn:Hload.
    { rewrite (legacy_unavailable w u l e Hu Hq Hload). exact Hinv. }
    destruct (legacy_miss_loading w u l Hu Hq Hload) as (l1 & q & Hinit & _ & ->).
    apply Hins. unfold Legacy.initializeEngine in Hinit. rewrite Hload in Hinit.
    injection Hinit as <-. reflexivity.
Qed.

(** X25: in backend/query.ts every cached agent is built with the
    retrieval tool alone. *)
Theorem query_ts_agents_are_retrieval_only (t0 : Z) (evs : list Legacy.Event)
  (l : Legacy.Server) (u : string) (a : OpenAIAgent) :
  Legacy.run (Legacy.boot t0) evs = Some l ->
  Legacy.chatEngines l !! u = Some a ->
  exists q, tools a = [Retrieval q].
Proof.
  intros Hrun Hu.
  assert (Hinv : forall evs l0 l1,
            Legacy.run l0 evs = Some l1 ->
            (forall u a, Legacy.chatEngines l0 !! u = Some a ->
                         exists q, tools a = [Retrieval q]) ->
            forall u a, Legacy.chatEngines l1 !! u = Some a ->
                        exists q, tools a = [Retrieval q]).
  { clear. induction evs as [| ev evs IH]; intros l0 l1; simpl.
    - intros [= <-]. auto.
    - destruct (Legacy.step l0 ev) as [l' |] eqn:Hs; [| discriminate].
      intros Hrun Hinv. apply (IH l' l1 Hrun).
      eapply legacy_toolset_step; eauto. }
  apply (Hinv evs (Legacy.boot t0) l Hrun) with (u := u); [| exact Hu].
  intros x b. simpl. rewrite lookup_empty. discriminate.
Qed.

Lemma query_ts_agents_are_retrieval_only_witness :
  exists q,
    tools {| agent_ref := 0;
             tools := [Retrieval {| qe_name := "druids_query_engine";
                                    qe_description := "A query engine for the DRUIDS design system";
                                    qe_similarityTopK := 3 |}] |}
    = [Retrieval q].
Proof.
  apply (query_ts_agents_are_retrieval_only 0
           [Legacy.Access Scenario.degraded Scenario.alice]
           (default (Legacy.boot 0)
              (Legacy.run (Legacy.boot 0)
                 [Legacy.Access Scenario.degraded Scenario.alice]))
           Scenario.alice).
  - vm_compute. reflexivity.
  - vm_compute. reflexivity.
Defined.

End LegacyFacts.

(** ** Calls that overlap *)

Section OverlapFacts.

Import Overlap.

Lemma connect_in_two_steps (p : Peer) (c : MCPClient) :
  isConnected c = false ->
  connect p c = connect_settle p (connect_begin c).
Proof.
  intros Hc. unfold connect, connect_settle, connect_begin. rewrite Hc.
  destruct (handshake p); reflexivity.
Qed.

Lemma begin_effect (v : string) (s : Server) :
  segment_effect v s (begin v s).2.
Proof.
  unfold segment_effect, begin, after_index, build, tail.
  destruct (chatEngines s !! v); simpl; [auto |].
  destruct (queryEngineTool s) eqn:Hq; simpl;
    [| split; [intros [? [=]] | auto]].
  destruct (isReady (mcpClient s)); simpl; rewrite ?Hq; eauto.
Qed.

Lemma resume_effect (w : World) (v : string) (point : Await) (s : Server) :
  segment_effect v s (resume w v point s).2.
Proof.
  unfold segment_effect, resume, after_index, build, tail, initializeEngine.
  destruct point; simpl.
  - destruct (index_load w); simpl; [auto |].
    destruct (isReady (mcpClient s)); simpl; eauto.
  - split; [auto |]. right. eauto.
Qed.

Lemma effect_frame (u v : string) (s s' : Server) :
  segment_effect v s s' -> u <> v -> chatEngines s' !! u = chatEngines s !! u.
Proof.
  intros (_ & [[-> _] | (allTools & -> & _)]) Hne; [reflexivity |].
  apply lookup_insert_ne. auto.
Qed.

Lemma effect_sound (v : string) (s s' : Server) :
  segment_effect v s s' ->
  refs_below s /\ agents_unshared s -> refs_below s' /\ agents_unshared s'.
Proof.
  unfold refs_below, agents_unshared.
  intros (_ & [[Hce Hn] | (allTools & Hce & Hn)]) [Hbelow Hun];
    rewrite Hce, Hn; [auto |].
  split.
  - intros u a. destruct (decide (v = u)) as [-> | Hne].
    + rewrite lookup_insert_eq. intros [= <-]. simpl. lia.
    + rewrite lookup_insert_ne by exact Hne. intros Hu. apply Hbelow in Hu. lia.
  - intros x y a a' Hx Hy Href.
    destruct (decide (v = x)) as [<- | Hx'], (decide (v = y)) as [<- | Hy'];
      [reflexivity | | |].
    + rewrite lookup_insert_eq in Hx. rewrite lookup_insert_ne in Hy by exact Hy'.
      injection Hx as <-. apply Hbelow in Hy. simpl in Href. lia.
    + rewrite lookup_insert_eq in Hy. rewrite lookup_insert_ne in Hx by exact Hx'.
      injection Hy as <-. apply Hbelow in Hx. simpl in Href. lia.
    + rewrite lookup_insert_ne in Hx by exact Hx'.
      rewrite lookup_insert_ne in Hy by exact Hy'. eauto.
Qed.

(** A segment that constructs an agent returns it, stored under its id. *)
Lemma build_returns (u : string) (s : Server) :
  exists a,
    build u s = (Returns (Ok (Some a)) true, (build u s).2)
    /\ chatEngines (build u s).2 !! u = Some a.
Proof.
  unfold build, tail. simpl. rewrite lookup_insert_eq. eauto.
Qed.

Lemma begin_hit (u : string) (s : Server) (a : OpenAIAgent) :
  chatEngines s !! u = Some a ->
  begin u s = (Returns (Ok (Some a)) false, schedule_check u (touch u s)).
Proof.
  intros Hu. unfold begin, tail. rewrite Hu. simpl. rewrite Hu. reflexivity.
Qed.

(** The first segment of a miss either suspends, leaving the cache as it
    is, or (index loaded, channel ready) constructs the agent at once. *)
Lemma begin_miss (u : string) (s : Server) :
  chatEngines s !! u = None ->
  (queryEngineTool s = None /\ begin u s = (Suspends AwaitIndex, s))
  \/ (is_Some (queryEngineTool s)
      /\ (begin u s).1 = Suspends AwaitConnect
      /\ chatEngines (begin u s).2 = chatEngines s
      /\ queryEngineTool (begin u s).2 = queryEngineTool s)
  \/ (is_Some (queryEngineTool s) /\ begin u s = build u s).
Proof.
  intros Hu. unfold begin, after_index. rewrite Hu.
  destruct (queryEngineTool s) eqn:Hq; [| auto].
  destruct (isReady (mcpClient s)); simpl; [eauto | rewrite Hq; eauto 10].
Qed.

Lemma resume_index (w : World) (u : string) (s : Server) :
  index_load w = None ->
  ((resume w u AwaitIndex s).1 = Suspends AwaitConnect
   /\ chatEngines (resume w u AwaitIndex s).2 = chatEngines s
   /\ is_Some (queryEngineTool (resume w u AwaitIndex s).2))
  \/ (exists s1, resume w u AwaitIndex s = build u s1
                 /\ chatEngines s1 = chatEngines s).
Proof.
  intros Hload. unfold resume, initializeEngine, after_index. rewrite Hload. simpl.
  destruct (isReady (mcpClient s)); simpl; eauto 10.
Qed.

Lemma resume_connect (w : World) (u : string) (s : Server) :
  exists s1, resume w u AwaitConnect s = build u s1
             /\ chatEngines s1 = chatEngines s.
Proof. unfold resume. eexists. split; [reflexivity |]. reflexivity. Qed.

(** Turns other than calls. *)
Lemma turn_step (st st' : State) (ev : Backend.Event) :
  step st (Turn ev) = Some st' ->
  Backend.step (server st) ev = Some (server st')
  /\ pending st' = pending st /\ returns st' = returns st
  /\ forall u, accesses u ev = false.
Proof.
  simpl. destruct ev; try discriminate;
    (destruct (Backend.step (server st) _) as [s1 |] eqn:Hs; [| discriminate];
     intros [= <-]; simpl; auto).
Qed.

Lemma turn_absent (u : string) (s s' : Server) (ev : Backend.Event) :
  Backend.step s ev = Some s' -> accesses u ev = false ->
  chatEngines s !! u = None -> chatEngines s' !! u = None.
Proof.
  intros Hs Hacc Hu. destruct (checks u ev) eqn:Hchk.
  - destruct ev as [| tm | | | |]; try discriminate.
    apply step_check in Hs. subst s'. unfold eviction_check.
    destruct (idle_threshold <=? _)%Z; simpl; [| exact Hu].
    apply lookup_delete_None. auto.
  - destruct (step_frame u s s' ev Hs Hacc Hchk) as [-> _]. exact Hu.
Qed.

Lemma turn_kept (u : string) (a : OpenAIAgent) (s s' : Server) (ev : Backend.Event) :
  Backend.step s ev = Some s' -> accesses u ev = false ->
  evicts u s ev = false ->
  chatEngines s !! u = Some a -> chatEngines s' !! u = Some a.
Proof.
  intros Hs Hacc Hev Hu.
  apply (kept_without_eviction u a [ev] s s'); [simpl; rewrite Hs; reflexivity | | exact Hu].
  simpl. rewrite Hs. auto.
Qed.

Lemma step_sound (st st' : State) (ev : Event) :
  step st ev = Some st' ->
  refs_below (server st) /\ agents_unshared (server st) ->
  refs_below (server st') /\ agents_unshared (server st').
Proof.
  destruct ev as [id w v | id | ev].
  - simpl. destruct (pending st !! id); [discriminate |]. intros [= <-].
    unfold advance. pose proof (begin_effect v (server st)) as Heff.
    destruct (begin v (server st)) as [[point | r built] s1]; simpl in *;
      apply (effect_sound v); exact Heff.
  - simpl. destruct (pending st !! id) as [call |]; [| discriminate]. intros [= <-].
    unfold advance.
    pose proof (resume_effect (call_world call) (call_user call) (call_await call)
                  (server st)) as Heff.
    destruct (resume _ _ _ (server st)) as [[point | r built] s1]; simpl in *;
      apply (effect_sound (call_user call)); exact Heff.
  - intros Hs. apply turn_step in Hs as (Hs & _).
    apply (agents_unshared_step _ _ _ Hs).
Qed.

Lemma started_sound (st : State) :
  started st -> refs_below (server st) /\ agents_unshared (server st).
Proof.
  intros (s0 & evs & Hempty & Hrun).
  assert (H0 : refs_below (server (idle s0)) /\ agents_unshared (server (idle s0))).
  { unfold refs_below, agents_unshared. simpl. rewrite Hempty.
    split; intros *; rewrite lookup_empty; discriminate. }
  revert Hrun H0. generalize (idle s0). clear Hempty s0.
  induction evs as [| ev evs IH]; intros st0; simpl.
  - intros [= <-]. auto.
  - destruct (step st0 ev) as [st1 |] eqn:Hs; [| discriminate].
    intros Hrun H0. apply (IH st1 Hrun). eapply step_sound; eauto.
Qed.

Lemma advance_pending (id : nat) (w : World) (v : string)
  (out : Progress * Server) (st : State) :
  (forall j, j <> id -> pending (advance id w v out st) !! j = pending st !! j)
  /\ (forall call, pending (advance id w v out st) !! id = Some call ->
        call_user call = v)
  /\ server (advance id w v out st) = out.2.
Proof.
  unfold advance. destruct out as [[point | r b] s1]; simpl; split_and!.
  - intros j Hj. apply lookup_insert_ne. auto.
  - intros call. rewrite lookup_insert_eq. intros [= <-]. reflexivity.
  - reflexivity.
  - intros j Hj. apply lookup_delete_ne. auto.
  - intros call. rewrite lookup_delete_eq. discriminate.
  - reflexivity.
Qed.

Lemma advance_returns (u : string) (id : nat) (w : World) (v : string)
  (out : Progress * Server) (st : State) :
  v <> u ->
  exists new, returns (advance id w v out st) = returns st ++ new
              /\ returned_to u new = [].
Proof.
  intros Hne. unfold advance. destruct out as [[point | r b] s1]; simpl.
  - exists []. rewrite app_nil_r. auto.
  - eexists [_]. split; [reflexivity |].
    unfold returned_to. rewrite filter_cons. simpl.
    rewrite decide_False by exact Hne. reflexivity.
Qed.

Lemma advance_in_flight (u : string) (id : nat) (w : World) (v : string)
  (out : Progress * Server) (st : State) :
  v <> u -> ~ in_flight u st -> ~ in_flight u (advance id w v out st).
Proof.
  intros Hne Hno (j & call & Hj & Hu).
  destruct (advance_pending id w v out st) as (Hother & Hsame & _).
  destruct (decide (j = id)) as [-> | Hj'].
  - apply Hsame in Hj. congruence.
  - rewrite Hother in Hj by exact Hj'. apply Hno. exists j, call. auto.
Qed.

(** Once the agent is stored and no call for [u] is in progress, every
    call for [u] is a hit: it returns the stored agent in its first
    segment and constructs nothing. *)
Lemma later_calls_hit (i : nat) (u : string) (a : OpenAIAgent) (evs : list Event) :
  forall st st',
    run st evs = Some st' ->
    undisturbed i u st evs = true ->
    chatEngines (server st) !! u = Some a ->
    ~ in_flight u st ->
    exists new,
      returns st' = returns st ++ new
      /\ Forall (fun r => ret_value r = Ok (Some a) /\ ret_built r = false)
           (returned_to u new)
      /\ chatEngines (server st') !! u = Some a.
Proof.
  induction evs as [| ev evs IH]; intros st st'; simpl.
  - intros [= <-] _ Hu _. exists []. rewrite app_nil_r. split; [reflexivity |].
    split; [constructor | exact Hu].
  - destruct (step st ev) as [st1 |] eqn:Hs; [| discriminate].
    intros Hrun Hquiet Hu Hno.
    apply andb_true_iff in Hquiet as [Hquiet Hrest].
    apply andb_true_iff in Hquiet as [_ Hev]. apply negb_true_iff in Hev.
    assert (Hnext : chatEngines (server st1) !! u = Some a
                    /\ ~ in_flight u st1
                    /\ exists new1, returns st1 = returns st ++ new1
                         /\ Forall (fun r => ret_value r = Ok (Some a)
                                             /\ ret_built r = false)
                              (returned_to u new1)).
    { destruct ev as [id w0 v | id | e].
      - simpl in Hs. destruct (pending st !! id) eqn:Hid; [discriminate |].
        injection Hs as <-.
        destruct (decide (v = u)) as [-> | Hne].
        + rewrite (begin_hit u (server st) a Hu). unfold advance. simpl.
          split; [exact Hu |]. split.
          * intros (j & call & Hj & Hcu). simpl in Hj. apply Hno. exists j, call.
            apply lookup_delete_Some in Hj as [_ Hj]. auto.
          * eexists [_]. split; [reflexivity |].
            unfold returned_to. rewrite filter_cons. simpl.
            rewrite decide_True by reflexivity. repeat constructor.
        + destruct (advance_pending id w0 v (begin v (server st)) st)
            as (_ & _ & Hsrv).
          rewrite Hsrv.
          rewrite (effect_frame u v _ _ (begin_effect v (server st)))
            by (intros ->; congruence).
          split; [exact Hu |]. split; [apply advance_in_flight; auto |].
          destruct (advance_returns u id w0 v (begin v (server st)) st Hne)
            as (new1 & -> & Hnew).
          exists new1. split; [reflexivity |]. rewrite Hnew. constructor.
      - simpl in Hs. destruct (pending st !! id) as [call |] eqn:Hid; [| discriminate].
        injection Hs as <-.
        assert (Hne : call_user call <> u).
        { intros Heq. apply Hno. exists id, call. auto. }
        destruct (advance_pending id (call_world call) (call_user call)
                    (resume (call_world call) (call_user call) (call_await call)
                       (server st)) st) as (_ & _ & Hsrv).
        rewrite Hsrv.
        rewrite (effect_frame u (call_user call) _ _
                   (resume_effect (call_world call) (call_user call)
                      (call_await call) (server st)))
          by (intros ->; congruence).
        split; [exact Hu |]. split; [apply advance_in_flight; auto |].
        destruct (advance_returns u id (call_world call) (call_user call)
                    (resume (call_world call) (call_user call) (call_await call)
                       (server st)) st Hne)
          as (new1 & -> & Hnew).
        exists new1. split; [reflexivity |]. rewrite Hnew. constructor.
      - apply turn_step in Hs as (Hs & Hp & Hr & Hacc). simpl in Hev.
        split; [exact (turn_kept u a _ _ e Hs (Hacc u) Hev Hu) |]. split.
        + intros (j & call & Hj & Hcu). apply Hno. exists j, call.
          rewrite <- Hp. auto.
        + exists []. rewrite app_nil_r. split; [exact Hr | constructor]. }
    destruct Hnext as (Hu1 & Hno1 & new1 & Hr1 & Hall1).
    destruct (IH st1 st' Hrun Hrest Hu1 Hno1) as (new & Hr & Hall & Hu').
    exists (new1 ++ new). split; [rewrite Hr, Hr1, app_assoc; reflexivity |].
    split; [| exact Hu'].
    unfold returned_to in *. rewrite filter_app. apply Forall_app. auto.
Qed.

(** While the first call for [u] is suspended and no other call for [u]
    begins, the id stays out of the cache; when the call resumes for the
    last time it constructs the agent, stores and returns it. *)
Lemma first_call_stores (i : nat) (w : World) (u : string) (evs : list Event) :
  forall st st' point,
    run st evs = Some st' ->
    undisturbed i u st evs = true ->
    pending st !! i = Some {| call_world := w; call_user := u; call_await := point |} ->
    (forall j call, pending st !! j = Some call -> call_user call = u -> j = i) ->
    chatEngines (server st) !! u = None ->
    match point with
    | AwaitIndex => index_load w = None
    | AwaitConnect => is_Some (queryEngineTool (server st))
    end ->
    exists new,
      returns st' = returns st ++ new
      /\ ((is_Some (pending st' !! i) /\ returned_to u new = []
           /\ chatEngines (server st') !! u = None)
          \/ (exists a rest,
                returned_to u new
                = {| ret_call := i; ret_user := u; ret_value := Ok (Some a);
                     ret_built := true |} :: rest
                /\ Forall (fun r => ret_value r = Ok (Some a) /\ ret_built r = false)
                     rest
                /\ chatEngines (server st') !! u = Some a)).
Proof.
  induction evs as [| ev evs IH]; intros st st' point; simpl.
  - intros [= <-] _ Hi _ Hu _. exists []. rewrite app_nil_r.
    split; [reflexivity |]. left. rewrite Hi. eauto.
  - destruct (step st ev) as [st1 |] eqn:Hs; [| discriminate].
    intros Hrun Hquiet Hi Honly Hu Hidx.
    apply andb_true_iff in Hquiet as [Hquiet Hrest].
    apply andb_true_iff in Hquiet as [Hbeg Hev]. apply negb_true_iff in Hev.
    rewrite Hi in Hbeg. apply negb_true_iff in Hbeg.
    destruct ev as [id w0 v | id | e].
    + (* another call begins *)
      simpl in Hs. destruct (pending st !! id) eqn:Hid; [discriminate |].
      injection Hs as <-. simpl in Hbeg. apply bool_decide_eq_false in Hbeg.
      assert (Hidi : i <> id) by (intros ->; congruence).
      destruct (advance_pending id w0 v (begin v (server st)) st)
        as (Hother & Hsame & Hsrv).
      destruct (advance_returns u id w0 v (begin v (server st)) st Hbeg)
        as (new1 & Hr1 & Hnew1).
      pose proof (begin_effect v (server st)) as Heff.
      destruct (IH _ st' point Hrun Hrest) as (new & Hr & Hcases).
      * rewrite Hother by exact Hidi. exact Hi.
      * intros j call Hj Hcu. destruct (decide (j = id)) as [-> | Hj'].
        -- apply Hsame in Hj. congruence.
        -- rewrite Hother in Hj by exact Hj'. eauto.
      * rewrite Hsrv, (effect_frame u v _ _ Heff) by auto. exact Hu.
      * rewrite Hsrv. destruct point; [exact Hidx |]. apply Heff. exact Hidx.
      * exists (new1 ++ new).
        split; [rewrite Hr, Hr1, app_assoc; reflexivity |].
        unfold returned_to in *. rewrite filter_app, Hnew1. exact Hcases.
    + simpl in Hs. destruct (pending st !! id) as [call |] eqn:Hid; [| discriminate].
      injection Hs as <-.
      destruct (decide (id = i)) as [-> | Hidi].
      * (* the first call resumes *)
        rewrite Hi in Hid. injection Hid as <-. simpl in *.
        assert (Hbuild : forall s1,
                  resume w u point (server st) = build u s1 ->
                  chatEngines s1 = chatEngines (server st) ->
                  exists new,
                    returns st' = returns st ++ new
                    /\ exists a rest,
                         returned_to u new
                         = {| ret_call := i; ret_user := u;
                              ret_value := Ok (Some a); ret_built := true |} :: rest
                         /\ Forall (fun r => ret_value r = Ok (Some a)
                                             /\ ret_built r = false) rest
                         /\ chatEngines (server st') !! u = Some a).
        { intros s1 Hres Hce. rewrite Hres in Hrun, Hrest.
          destruct (build_returns u s1) as (a & Hb & Hstored).
          rewrite Hb in Hrun, Hrest. unfold advance in Hrun, Hrest. simpl in *.
          edestruct (later_calls_hit i u a evs _ st' Hrun Hrest) as (new & Hr & Hall & Hu').
          - simpl. exact Hstored.
          - intros (j & call & Hj & Hcu). simpl in Hj.
            apply lookup_delete_Some in Hj as [Hji Hj].
            apply Hji. symmetry. eapply Honly; eauto.
          - simpl in Hr. eexists. split; [rewrite Hr, <- app_assoc; reflexivity |].
            exists a, (returned_to u new). unfold returned_to. rewrite filter_app.
            rewrite filter_cons. simpl. rewrite decide_True by reflexivity.
            rewrite filter_nil. simpl. auto. }
        destruct point.
        -- destruct (resume_index w u (server st) Hidx)
             as [(Hp & Hce & Hq) | (s1 & Hres & Hce)].
           ++ destruct (resume w u AwaitIndex (server st)) as [pr s1] eqn:Hres.
              simpl in Hp, Hce, Hq. subst pr. unfold advance in Hrun, Hrest.
              simpl in Hrun, Hrest.
              apply (IH _ st' AwaitConnect Hrun Hrest).
              ** simpl. apply lookup_insert_eq.
              ** simpl. intros j call Hj Hcu.
                 destruct (decide (j = i)) as [-> | Hji]; [reflexivity |].
                 rewrite lookup_insert_ne in Hj by auto. eauto.
              ** simpl. rewrite Hce. exact Hu.
              ** simpl. exact Hq.
           ++ destruct (Hbuild s1 Hres Hce) as (new & Hr & Hdone). eauto.
        -- destruct (resume_connect w u (server st)) as (s1 & Hres & Hce).
           destruct (Hbuild s1 Hres Hce) as (new & Hr & Hdone). eauto.
      * (* a call for another id resumes *)
        assert (Hne : call_user call <> u).
        { intros Heq. apply Hidi. eapply Honly; eauto. }
        destruct (advance_pending id (call_world call) (call_user call)
                    (resume (call_world call) (call_user call) (call_await call)
                       (server st)) st) as (Hother & Hsame & Hsrv).
        destruct (advance_returns u id (call_world call) (call_user call)
                    (resume (call_world call) (call_user call) (call_await call)
                       (server st)) st Hne)
          as (new1 & Hr1 & Hnew1).
        pose proof (resume_effect (call_world call) (call_user call)
                      (call_await call) (server st)) as Heff.
        destruct (IH _ st' point Hrun Hrest) as (new & Hr & Hcases).
        -- rewrite Hother by auto. exact Hi.
        -- intros j c0 Hj Hcu. destruct (decide (j = id)) as [-> | Hj'].
           ++ apply Hsame in Hj. congruence.
           ++ rewrite Hother in Hj by exact Hj'. eauto.
        -- rewrite Hsrv, (effect_frame u _ _ _ Heff) by auto. exact Hu.
        -- rewrite Hsrv. destruct point; [exact Hidx |]. apply Heff. exact Hidx.
        -- exists (new1 ++ new).
           split; [rewrite Hr, Hr1, app_assoc; reflexivity |].
           unfold returned_to in *. rewrite filter_app, Hnew1. exact Hcases.
    + (* another turn *)
      apply turn_step in Hs as (Hs & Hp & Hr1 & Hacc).
      destruct (IH _ st' point Hrun Hrest) as (new & Hr & Hcases).
      * rewrite Hp. exact Hi.
      * rewrite Hp. exact Honly.
      * exact (turn_absent u _ _ e Hs (Hacc u) Hu).
      * destruct point; [exact Hidx |]. exact (index_kept_step _ _ _ Hs Hidx).
      * exists new. rewrite Hr, Hr1. auto.
Qed.

Lemma run_sound (evs : list Event) (st st' : State) :
  run st evs = Some st' ->
  refs_below (server st) /\ agents_unshared (server st) ->
  refs_below (server st') /\ agents_unshared (server st').
Proof.
  revert st. induction evs as [| ev evs IH]; intros st; simpl.
  - intros [= <-]. auto.
  - destruct (step st ev) as [st1 |] eqn:Hs; [| discriminate].
    intros Hrun H0. apply (IH st1 Hrun). eapply step_sound; eauto.
Qed.

(** A call whose segments follow one another with nothing in between is
    one turn of [Backend.step]: same result, same state. *)
Lemma call_alone_is_one_turn (st : State) (i : nat) (w : World) (u : string) :
  pending st !! i = None ->
  exists k built,
    (k <= 2)%nat
    /\ run st (Begin i w u :: replicate k (Settle i))
       = Some {| server := (getChatEngine w u (server st)).2;
                 pending := pending st;
                 returns := returns st
                            ++ [{| ret_call := i; ret_user := u;
                                   ret_value := (getChatEngine w u (server st)).1;
                                   ret_built := built |}] |}.
Proof.
  intros Hi. set (s := server st).
  assert (Hdel : forall c, delete i (<[i := c]> (pending st)) = pending st).
  { intros c. rewrite delete_insert_eq. apply delete_id. exact Hi. }
  assert (Hdel0 : delete i (pending st) = pending st) by (apply delete_id; exact Hi).
  destruct (chatEngines s !! u) as [a |] eqn:Hu.
  { exists 0%nat, false. split; [lia |]. simpl. rewrite Hi. fold s.
    rewrite (begin_hit u s a Hu), (getChatEngine_hit w u s a Hu).
    unfold advance. simpl. rewrite Hdel0. reflexivity. }
  unfold getChatEngine, create_agent, initializeEngine. eff_unfold.
  rewrite Hu. simpl.
  destruct (queryEngineTool s) as [q |] eqn:Hq; simpl.
  - rewrite Hq. destruct (isReady (mcpClient s)) eqn:Hr; simpl.
    + exists 0%nat, true. split; [lia |]. simpl. rewrite Hi. fold s.
      unfold begin, after_index, build, tail. rewrite Hu, Hq, Hr. simpl.
      unfold advance. simpl. rewrite ?Hq, Hdel0. reflexivity.
    + exists 1%nat, true. split; [lia |]. simpl. rewrite Hi. fold s.
      unfold begin, after_index. rewrite Hu, Hq, Hr. unfold advance. simpl.
      rewrite lookup_insert_eq. simpl.
      unfold build, tail, on_mcp. simpl. rewrite ?Hq.
      rewrite (connect_in_two_steps (peer w) (mcpClient s) Hr).
      destruct (connect_settle (peer w) (connect_begin (mcpClient s)))
        as [[[] | e] c1]; simpl; rewrite Hdel; reflexivity.
  - destruct (index_load w) as [e |] eqn:Hload; simpl.
    + exists 1%nat, false. split; [lia |]. simpl. rewrite Hi. fold s.
      unfold begin. rewrite Hu, Hq. unfold advance. simpl.
      rewrite lookup_insert_eq. simpl. unfold initializeEngine. rewrite Hload.
      simpl. rewrite Hdel. reflexivity.
    + destruct (isReady (mcpClient s)) eqn:Hr; simpl.
      * exists 1%nat, true. split; [lia |]. simpl. rewrite Hi. fold s.
        unfold begin. rewrite Hu, Hq. unfold advance. simpl.
        rewrite lookup_insert_eq. simpl. unfold initializeEngine. rewrite Hload.
        simpl. unfold after_index, build, tail. simpl. rewrite Hr. simpl.
        rewrite Hdel. reflexivity.
      * exists 2%nat, true. split; [lia |]. simpl. rewrite Hi. fold s.
        unfold begin. rewrite Hu, Hq. unfold advance. simpl.
        rewrite lookup_insert_eq. simpl. unfold initializeEngine. rewrite Hload.
        simpl. unfold after_index. simpl. rewrite Hr. simpl.
        rewrite lookup_insert_eq. simpl.
        unfold build, tail, on_mcp. simpl.
        rewrite (connect_in_two_steps (peer w) (mcpClient s) Hr).
        destruct (connect_settle (peer w) (connect_begin (mcpClient s)))
          as [[[] | e] c1]; simpl; rewrite insert_insert_eq, Hdel; reflexivity.
Qed.

End OverlapFacts.

(** C1, as stated, fails: two calls for the same new id that overlap in
    the wait for the handshake both miss, each constructs an agent, the
    second overwrites the first, and the next call returns another agent
    than the one the first call stored and returned. *)
Lemma overlapping_first_calls_build_two_agents :
  exists s0 st a0 a1,
    Startup.listening Scenario.healthy 0 = Some s0
    /\ chatEngines s0 !! Scenario.alice = None
    /\ Overlap.run (Overlap.idle s0)
         [Overlap.Begin 1 Scenario.healthy Scenario.alice;
          Overlap.Begin 2 Scenario.healthy Scenario.alice;
          Overlap.Settle 1;
          Overlap.Settle 2;
          Overlap.Begin 3 Scenario.healthy Scenario.alice] = Some st
    /\ Overlap.returns st
       = [ {| Overlap.ret_call := 1; Overlap.ret_user := Scenario.alice;
              Overlap.ret_value := Ok (Some a0); Overlap.ret_built := true |};
           {| Overlap.ret_call := 2; Overlap.ret_user := Scenario.alice;
              Overlap.ret_value := Ok (Some a1); Overlap.ret_built := true |};
           {| Overlap.ret_call := 3; Overlap.ret_user := Scenario.alice;
              Overlap.ret_value := Ok (Some a1); Overlap.ret_built := false |} ]
    /\ a0 <> a1
    /\ constructed (Overlap.server st) = 2%nat.
Proof.
  eexists. eexists. eexists. eexists.
  split; [reflexivity |]. split; [reflexivity |].
  split; [vm_compute; reflexivity |]. split; [vm_compute; reflexivity |].
  split; [discriminate | reflexivity].
Qed.

(** C1 (amended): a call for a session id that is not cached and for
    which no call is in progress, and during which no other call for the
    id begins, constructs exactly one agent, stores it under that id and
    under no other, and returns it; every later call for the id, as long
    as no check has evicted it, returns that same agent and constructs
    nothing.  Calls for other ids, timers and tool calls may interleave
    freely.  (Until the call has returned, the id stays out of the cache.) *)
Theorem session_agent_created_once (st st' : Overlap.State) (i : nat) (w : World)
  (u : string) (evs : list Overlap.Event) :
  started st ->
  index_available w (Overlap.server st) ->
  chatEngines (Overlap.server st) !! u = None ->
  ~ in_flight u st ->
  Overlap.run st (Overlap.Begin i w u :: evs) = Some st' ->
  undisturbed i u st (Overlap.Begin i w u :: evs) = true ->
  exists new,
    Overlap.returns st' = Overlap.returns st ++ new
    /\ ((is_Some (Overlap.pending st' !! i) /\ returned_to u new = []
         /\ chatEngines (Overlap.server st') !! u = None)
        \/ (exists a rest,
              returned_to u new
              = {| Overlap.ret_call := i; Overlap.ret_user := u;
                   Overlap.ret_value := Ok (Some a);
                   Overlap.ret_built := true |} :: rest
              /\ Forall (fun r => Overlap.ret_value r = Ok (Some a)
                                  /\ Overlap.ret_built r = false) rest
              /\ chatEngines (Overlap.server st') !! u = Some a
              /\ forall u', chatEngines (Overlap.server st') !! u' = Some a ->
                            u' = u)).
Proof.
  intros Hstart Hav Hu Hno Hrun Hquiet.
  assert (Hsound' : agents_unshared (Overlap.server st')).
  { apply (run_sound _ _ _ Hrun). apply started_sound. exact Hstart. }
  assert (Hunique : forall a, chatEngines (Overlap.server st') !! u = Some a ->
            forall u', chatEngines (Overlap.server st') !! u' = Some a -> u' = u).
  { intros a Ha u' Hu'. exact (Hsound' u' u a a Hu' Ha eq_refl). }
  simpl in Hrun, Hquiet.
  destruct (Overlap.pending st !! i) eqn:Hi; [discriminate |].
  apply andb_true_iff in Hquiet as [_ Hquiet].
  assert (Honly : forall c j call,
            <[i := c]> (Overlap.pending st) !! j = Some call ->
            Overlap.call_user call = u -> j = i).
  { intros c j call Hj Hcu. destruct (decide (j = i)) as [-> | Hji]; [reflexivity |].
    rewrite lookup_insert_ne in Hj by auto. exfalso. apply Hno. exists j, call. auto. }
  assert (Hfinish : forall stx point,
            Overlap.run stx evs = Some st' -> undisturbed i u stx evs = true ->
            Overlap.pending stx
            = <[i := {| Overlap.call_world := w; Overlap.call_user := u;
                        Overlap.call_await := point |}]> (Overlap.pending st) ->
            Overlap.returns stx = Overlap.returns st ->
            chatEngines (Overlap.server stx) !! u = None ->
            match point with
            | Overlap.AwaitIndex => index_load w = None
            | Overlap.AwaitConnect => is_Some (queryEngineTool (Overlap.server stx))
            end ->
            exists new,
              Overlap.returns st' = Overlap.returns st ++ new
              /\ ((is_Some (Overlap.pending st' !! i) /\ returned_to u new = []
                   /\ chatEngines (Overlap.server st') !! u = None)
                  \/ (exists a rest,
                        returned_to u new
                        = {| Overlap.ret_call := i; Overlap.ret_user := u;
                             Overlap.ret_value := Ok (Some a);
                             Overlap.ret_built := true |} :: rest
                        /\ Forall (fun r => Overlap.ret_value r = Ok (Some a)
                                            /\ Overlap.ret_built r = false) rest
                        /\ chatEngines (Overlap.server st') !! u = Some a
                        /\ forall u', chatEngines (Overlap.server st') !! u' = Some a ->
                                      u' = u))).
  { intros stx point Hrunx Hqx Hpx Hrx Hux Hidx.
    destruct (first_call_stores i w u evs stx st' point Hrunx Hqx)
      as (new & Hr & Hcases); auto.
    - rewrite Hpx. apply lookup_insert_eq.
    - rewrite Hpx. apply Honly.
    - exists new. rewrite Hr, Hrx. split; [reflexivity |].
      destruct Hcases as [? | (a & rest & Hfirst & Hlater & Ha)]; [auto |].
      right. exists a, rest. split; [exact Hfirst |]. split; [exact Hlater |].
      split; [exact Ha | exact (Hunique a Ha)]. }
  destruct (begin_miss u (Overlap.server st) Hu)
    as [(Hq & Hb) | [(Hq & Hb & Hce & Hqt) | (Hq & Hb)]].
  - rewrite Hb in Hrun, Hquiet. unfold Overlap.advance in Hrun, Hquiet.
    simpl in Hrun, Hquiet.
    apply (Hfinish _ Overlap.AwaitIndex Hrun Hquiet); try reflexivity; [exact Hu |].
    destruct Hav as [[q Hq'] | Hload]; [congruence | exact Hload].
  - destruct (Overlap.begin u (Overlap.server st)) as [pr s1] eqn:Hbeg.
    simpl in Hb, Hce, Hqt. subst pr. unfold Overlap.advance in Hrun, Hquiet.
    simpl in Hrun, Hquiet.
    apply (Hfinish _ Overlap.AwaitConnect Hrun Hquiet); try reflexivity.
    + simpl. rewrite Hce. exact Hu.
    + simpl. rewrite Hqt. exact Hq.
  - rewrite Hb in Hrun, Hquiet.
    destruct (build_returns u (Overlap.server st)) as (a & Hbuild & Hstored).
    rewrite Hbuild in Hrun, Hquiet. unfold Overlap.advance in Hrun, Hquiet.
    simpl in Hrun, Hquiet.
    edestruct (later_calls_hit i u a evs _ st' Hrun Hquiet) as (new & Hr & Hall & Ha).
    + simpl. exact Hstored.
    + intros (j & call & Hj & Hcu). simpl in Hj.
      apply lookup_delete_Some in Hj as [_ Hj]. apply Hno. exists j, call. auto.
    + simpl in Hr. eexists. split; [rewrite Hr, <- app_assoc; reflexivity |].
      right. exists a, (returned_to u new). split.
      * unfold returned_to. rewrite filter_app, filter_cons. simpl.
        rewrite decide_True by reflexivity. rewrite filter_nil. reflexivity.
      * split; [exact Hall |]. split; [exact Ha | exact (Hunique a Ha)].
Qed.

Lemma session_agent_created_once_witness :
  exists new,
    Overlap.returns
      (Cases.after (Overlap.Begin 1 Scenario.healthy Scenario.alice
                    :: Cases.interleaved))
    = Overlap.returns (Overlap.idle Cases.listening) ++ new
    /\ exists a rest,
         returned_to Scenario.alice new
         = {| Overlap.ret_call := 1; Overlap.ret_user := Scenario.alice;
              Overlap.ret_value := Ok (Some a); Overlap.ret_built := true |} :: rest
         /\ length rest = 2%nat
         /\ Forall (fun r => Overlap.ret_value r = Ok (Some a)
                             /\ Overlap.ret_built r = false) rest.
Proof.
  destruct (session_agent_created_once (Overlap.idle Cases.listening)
              (Cases.after (Overlap.Begin 1 Scenario.healthy Scenario.alice
                            :: Cases.interleaved))
              1 Scenario.healthy Scenario.alice Cases.interleaved)
    as (new & Hr & [(Hpending & _) | (a & rest & Hfirst & Hlater & _)]).
  - exists Cases.listening, []. split; reflexivity.
  - left. eexists. reflexivity.
  - reflexivity.
  - intros (j & call & Hj & _). simpl in Hj. rewrite lookup_empty in Hj.
    discriminate.
  - vm_compute. reflexivity.
  - vm_compute. reflexivity.
  - exfalso. vm_compute in Hpending. destruct Hpending as [? H]. discriminate H.
  - exists new. split; [exact Hr |]. exists a, rest.
    split; [exact Hfirst |]. split; [| exact Hlater].
    vm_compute in Hr. apply app_inv_head with (l := []) in Hr. subst new.
    vm_compute in Hfirst. injection Hfirst as _ <-. reflexivity.
Defined.

